(** * Colony detection: segmentation engine and colony analysis orchestrator

    A shallow embedding of [colony_analysis/core/sam_model.py] (class
    [SAMModel]) and [colony_analysis/analysis/colony.py] (class
    [ColonyAnalyzer]), and the properties of them that the specification
    states.

    Python objects that the code mutates in place (colony records and the
    mappings they hold) live in an object store and are passed by reference.
    Exceptions, logging and calls to collaborators are threaded through a
    state-and-exception monad in which the state survives a raise, as it does
    in Python. *)

From Stdlib Require Import ZArith QArith Qround Lia DecimalZ.
From stdpp Require Import base option list strings.

Open Scope Z_scope.

(* ====================================================================== *)
(** * Python basics *)
(* ====================================================================== *)

Module Py.

(** A Python [str] is a sequence of Unicode code points. *)
Abbreviation pystr := (list Z) (only parsing).

(** String literals of the source are written as Rocq strings. *)
Fixpoint lit (s : String.string) : pystr :=
  match s with
  | String.EmptyString => []
  | String.String a s' => Z.of_N (Ascii.N_of_ascii a) :: lit s'
  end.

(** The exceptions ([Exception] subclasses) that the code can meet. [Other]
    stands for whatever class a collaborator raises. *)
Inductive exn :=
| KeyError (key : pystr)
| TypeError
| AttributeError
| ValueError
| OverflowError
| IndexError
| ZeroDivisionError
| RuntimeError
| Other (tag : nat).

Inductive result (A : Type) :=
| Ok (a : A)
| Raise (e : exn).
Arguments Ok {A} a.
Arguments Raise {A} e.

(** ** State and exception monad

    A computation takes the state, and returns a value or raises, with the
    state it reached either way. *)
Section Monad.
Context {S : Type}.

Definition M (A : Type) : Type := S -> result A * S.

Definition ret {A} (a : A) : M A := fun s => (Ok a, s).

Definition bind {A B} (m : M A) (k : A -> M B) : M B :=
  fun s => match m s with
           | (Ok a, s') => k a s'
           | (Raise e, s') => (Raise e, s')
           end.

Definition raise {A} (e : exn) : M A := fun s => (Raise e, s).

(** [try: m except Exception as e: h e] *)
Definition try_except {A} (m : M A) (h : exn -> M A) : M A :=
  fun s => match m s with
           | (Ok a, s') => (Ok a, s')
           | (Raise e, s') => h e s'
           end.

Definition get : M S := fun s => (Ok s, s).
Definition modify (f : S -> S) : M unit := fun s => (Ok tt, f s).

(** The outcome of a pure, fallible call. *)
Definition lift {A} (r : result A) : M A := fun s => (r, s).
End Monad.
Arguments M S A : clear implicits.

Declare Scope py_scope.
Delimit Scope py_scope with py.
Notation "x <~ m ;; k" := (bind m (fun x => k))
  (at level 100, m at next level, right associativity) : py_scope.
Notation "m ;;; k" := (bind m (fun _ => k))
  (at level 100, right associativity) : py_scope.

(** ** Built-ins *)

(** [range(n)] *)
Definition range (n : Z) : list Z := Z.of_nat <$> seq 0 (Z.to_nat n).

(** [chr(i)]: the one-character string of code point [i]; [ValueError]
    outside [range(0x110000)], [OverflowError] beyond a C int. *)
Definition chr (i : Z) : result pystr :=
  if (0 <=? i) && (i <? 1114112) then Ok [i]
  else if (-2147483648 <=? i) && (i <=? 2147483647) then Raise ValueError
  else Raise OverflowError.

Fixpoint uint_digits (u : Decimal.uint) : pystr :=
  match u with
  | Decimal.Nil => []
  | Decimal.D0 u' => 48 :: uint_digits u'
  | Decimal.D1 u' => 49 :: uint_digits u'
  | Decimal.D2 u' => 50 :: uint_digits u'
  | Decimal.D3 u' => 51 :: uint_digits u'
  | Decimal.D4 u' => 52 :: uint_digits u'
  | Decimal.D5 u' => 53 :: uint_digits u'
  | Decimal.D6 u' => 54 :: uint_digits u'
  | Decimal.D7 u' => 55 :: uint_digits u'
  | Decimal.D8 u' => 56 :: uint_digits u'
  | Decimal.D9 u' => 57 :: uint_digits u'
  end.

(** [str(n)] for an [int]: its decimal digits, with a minus sign if negative. *)
Definition str_of_int (n : Z) : pystr :=
  match Z.to_int n with
  | Decimal.Pos u => uint_digits u
  | Decimal.Neg u => 45 :: uint_digits u
  end.

(** [xs[i]] on a list. *)
Definition index {A} (xs : list A) (i : nat) : result A :=
  match xs !! i with
  | Some x => Ok x
  | None => Raise IndexError
  end.

(** [sep.join(parts)] on strings. *)
Fixpoint join (sep : pystr) (parts : list pystr) : pystr :=
  match parts with
  | [] => []
  | [p] => p
  | p :: rest => p ++ sep ++ join sep rest
  end.

(** ** Floats

    A finite [float] is the rational it denotes; an operation is the exact
    one followed by rounding to the nearest double, [fround]. *)
Class Rounding := { fround : Q -> Q }.

Section Floats.
Context `{Rounding}.

Definition float_of_int (n : Z) : Q := fround (inject_Z n).

(** [a / b] on two [int]s. *)
Definition int_true_div (a b : Z) : result Q :=
  if b =? 0 then Raise ZeroDivisionError
  else Ok (fround (inject_Z a / inject_Z b)).

(** [x * y] on two [float]s. *)
Definition fmul (x y : Q) : Q := fround (x * y).

(** [int(x)]: truncation towards zero. *)
Definition int_of_float (x : Q) : Z := Z.quot (Qnum x) (Z.pos (Qden x)).
End Floats.

Definition Qltb (x y : Q) : bool := negb (Qle_bool y x).

End Py.

(* ====================================================================== *)
(** * The segmentation engine: [core/sam_model.py] *)
(* ====================================================================== *)

Module Sam.
Import Py.
Open Scope py_scope.

(** ** Arrays *)

(** A 2-dimensional integer array, as rows of entries. A boolean array holds
    0 and 1. *)
Abbreviation grid := (list (list Z)) (only parsing).

(** An image is a 2-dimensional array (grayscale) or a 3-dimensional one
    (rows of pixels, a pixel being its channel values). *)
Inductive ndarray :=
| Arr2 (g : grid)
| Arr3 (g : list (list (list Z))).

Definition height {A} (g : list (list A)) : Z := Z.of_nat (length g).

(** The second dimension, read off the first row (0 for an array without
    rows). *)
Definition width {A} (g : list (list A)) : Z :=
  match g with
  | [] => 0
  | row :: _ => Z.of_nat (length row)
  end.

(** [image.shape[2]], read off the first pixel. *)
Definition channels (g : list (list (list Z))) : Z :=
  match g with
  | (p :: _) :: _ => Z.of_nat (length p)
  | _ => 0
  end.

(** [image.shape[:2]] *)
Definition shape2 (image : ndarray) : Z * Z :=
  match image with
  | Arr2 g => (height g, width g)
  | Arr3 g => (height g, width g)
  end.

(** [np.zeros((h, w), dtype=bool)] *)
Definition zeros (h w : Z) : grid :=
  replicate (Z.to_nat h) (replicate (Z.to_nat w) 0).

(** The entry at row [y], column [x]; 0 outside the array. *)
Definition px (g : grid) (y x : Z) : Z :=
  if (0 <=? y) && (0 <=? x)
  then default 0 (g !! Z.to_nat y ≫= (.!! Z.to_nat x))
  else 0.

Definition pxb (g : list (list bool)) (y x : Z) : bool :=
  if (0 <=? y) && (0 <=? x)
  then default false (g !! Z.to_nat y ≫= (.!! Z.to_nat x))
  else false.

(** [a.astype(np.uint8)] on an integer array. *)
Definition astype_uint8 (g : grid) : grid := map (map (fun v => v mod 256)) g.

(** [a - b] on two [uint8] arrays of one shape: wraps around. *)
Definition sub_uint8 (a b : grid) : grid :=
  zip_with (zip_with (fun u v => (u - v) mod 256)) a b.

(** [a > 0] *)
Definition gt0 (g : grid) : list (list bool) := map (map (fun v => 0 <? v)) g.

(** ** OpenCV

    [cv2.cvtColor] and [cv2.dilate] as OpenCV documents them, on [uint8]
    data. *)

(** [cv2.cvtColor(image, cv2.COLOR_GRAY2RGB)]: the gray value in each of
    three channels. *)
Definition cvtColor_GRAY2RGB (g : grid) : list (list (list Z)) :=
  map (map (fun v => [v; v; v])) g.

(** [cv2.cvtColor(image, cv2.COLOR_RGBA2RGB)]: the alpha channel dropped. *)
Definition cvtColor_RGBA2RGB (g : list (list (list Z))) : list (list (list Z)) :=
  map (map (take 3)) g.

Definition offsets : list Z := [-1; 0; 1].

(** The maximum over the 3x3 neighbourhood of (y, x). Positions outside the
    array do not count (the default border of a dilation is the lowest
    value). *)
Definition neighbourhood_max (g : grid) (y x : Z) : Z :=
  foldr Z.max 0 (dy ← offsets; dx ← offsets; [px g (y + dy) (x + dx)]).

(** One dilation by [np.ones((3, 3), np.uint8)], anchored at its centre. *)
Definition dilate3x3 (g : grid) : grid :=
  imap (fun y row =>
          imap (fun x _ => neighbourhood_max g (Z.of_nat y) (Z.of_nat x)) row) g.

(** [cv2.dilate(src, np.ones((3, 3), np.uint8), iterations=iterations)] *)
Definition dilate (src : grid) (iterations : Z) : grid :=
  Nat.iter (Z.to_nat iterations) dilate3x3 src.

(** ** The external segmentation capability *)

(** One candidate of the automatic mask generator. *)
Record mask_data := {
  segmentation : grid;
  stability_score : Q;
  area : Z
}.

(** [np.array([x1, y1, x2, y2])] *)
Record box := { x1 : Z; y1 : Z; x2 : Z; y2 : Z }.

(** [SamAutomaticMaskGenerator.generate], [SamPredictor.set_image] and
    [SamPredictor.predict] (of the image last set): masks and scores, the
    logits left out. *)
Class Backend := {
  generate : ndarray -> result (list mask_data);
  set_image : ndarray -> result unit;
  predict : ndarray -> option (list (list Q)) -> option (list Z) ->
            option box -> result (list grid * list Q)
}.

(** What a run of the engine does that can be seen from outside it: its
    normalisation of an image, its calls to the backend, and the warnings it
    logs, in order. *)
Inductive call :=
| Normalize (image : ndarray)
| Generate (image : ndarray)
| SetImage (image : ndarray)
| Predict (point_coords : option (list (list Q))) (point_labels : option (list Z))
          (b : option box)
| Warning (cell : pystr) (e : exn).

Record engine := {
  predictor_image : option ndarray;  (* the image the predictor holds *)
  trace : list call
}.

Definition emit (c : call) : M engine unit :=
  modify (fun s => {| predictor_image := predictor_image s; trace := trace s ++ [c] |}).

(** [np.argmax(scores)]: the first index of the largest score. *)
Fixpoint argmax_from (best_i : nat) (best : Q) (i : nat) (xs : list Q) : nat :=
  match xs with
  | [] => best_i
  | x :: rest =>
      if Qltb best x then argmax_from i x (S i) rest
      else argmax_from best_i best (S i) rest
  end.

Definition argmax (xs : list Q) : result nat :=
  match xs with
  | [] => Raise ValueError
  | x :: rest => Ok (argmax_from 0 x 1 rest)
  end.

(** ** [SAMModel] *)

Section SAMModel.
Context `{Backend} `{Rounding}.

(** The conversions of [_preprocess_image]. *)
Definition normalized (image : ndarray) : ndarray :=
  match image with
  | Arr2 g => Arr3 (cvtColor_GRAY2RGB g)
  | Arr3 g =>
      if channels g =? 4 then Arr3 (cvtColor_RGBA2RGB g)
      else if 3 <? channels g then Arr3 (map (map (take 3)) g)
      else Arr3 g
  end.

Definition _preprocess_image (image : ndarray) : M engine ndarray :=
  emit (Normalize image) ;;; ret (normalized image).

(** The loop of [segment_everything] over the candidates. *)
Fixpoint filter_candidates (min_area : Z) (max_area : option Z)
    (masks_data : list mask_data) (masks : list grid) (scores : list Q)
    : list grid * list Q :=
  match masks_data with
  | [] => (masks, scores)
  | md :: rest =>
      if area md <? min_area then
        filter_candidates min_area max_area rest masks scores
      else if match max_area with
              | Some m => m <? area md
              | None => false
              end then
        filter_candidates min_area max_area rest masks scores
      else
        filter_candidates min_area max_area rest
          (masks ++ [segmentation md]) (scores ++ [stability_score md])
  end.

Definition segment_everything (image : ndarray) (min_area : Z)
    (max_area : option Z) : M engine (list grid * list Q) :=
  image <~ _preprocess_image image ;;
  emit (Generate image) ;;;
  masks_data <~ lift (generate image) ;;
  ret (filter_candidates min_area max_area masks_data [] []).

Definition segment_with_prompts (image : ndarray)
    (points : option (list (list Q))) (point_labels : option (list Z))
    (boxes : option box) : M engine (grid * Q) :=
  image <~ _preprocess_image image ;;
  emit (SetImage image) ;;;
  lift (set_image image) ;;;
  modify (fun s => {| predictor_image := Some image; trace := trace s |}) ;;;
  let point_coords :=
    match points with Some (_ :: _) => points | _ => None end in
  let point_labels_array :=
    match point_labels with Some (_ :: _) => point_labels | _ => None end in
  s <~ get ;;
  match predictor_image s with
  | None => raise RuntimeError
  | Some set =>
      emit (Predict point_coords point_labels_array boxes) ;;;
      ms <~ lift (predict set point_coords point_labels_array boxes) ;;
      best_idx <~ lift (argmax (snd ms)) ;;
      mask <~ lift (index (fst ms) best_idx) ;;
      score <~ lift (index (snd ms) best_idx) ;;
      ret (mask, score)
  end.

(** The label of the cell in row [r], column [c]: [f"{row_labels[r]}{c+1}"]. *)
Definition cell_label (row_labels : list pystr) (r c : Z) : result pystr :=
  match index row_labels (Z.to_nat r) with
  | Ok letter => Ok (letter ++ str_of_int (c + 1))
  | Raise e => Raise e
  end.

(** The box of the cell in row [r], column [c]. *)
Definition cell_box (cell_height cell_width padding : Q) (r c : Z) : box :=
  let pad_y := int_of_float (fmul cell_height padding) in
  let pad_x := int_of_float (fmul cell_width padding) in
  {| x1 := int_of_float (fmul (float_of_int c) cell_width) + pad_x;
     y1 := int_of_float (fmul (float_of_int r) cell_height) + pad_y;
     x2 := int_of_float (fmul (float_of_int (c + 1)) cell_width) - pad_x;
     y2 := int_of_float (fmul (float_of_int (r + 1)) cell_height) - pad_y |}.

(** The loop of [segment_grid] over the cells. *)
Fixpoint grid_cells (image : ndarray) (height width : Z)
    (cell_height cell_width padding : Q) (row_labels : list pystr)
    (cells : list (Z * Z)) (masks : list grid) (labels : list pystr)
    : M engine (list grid * list pystr) :=
  match cells with
  | [] => ret (masks, labels)
  | (r, c) :: rest =>
      let b := cell_box cell_height cell_width padding r c in
      out <~ try_except
               (ms <~ segment_with_prompts image None None (Some b) ;;
                label <~ lift (cell_label row_labels r c) ;;
                ret (masks ++ [fst ms], labels ++ [label]))
               (fun e =>
                  label <~ lift (cell_label row_labels r c) ;;
                  emit (Warning label e) ;;;
                  let empty_mask := zeros height width in
                  ret (masks ++ [empty_mask], labels ++ [label])) ;;
      grid_cells image height width cell_height cell_width padding
        row_labels rest (fst out) (snd out)
  end.

(** [[chr(65 + i) for i in range(rows)]] *)
Fixpoint row_letters (idxs : list Z) : result (list pystr) :=
  match idxs with
  | [] => Ok []
  | i :: rest =>
      match chr (65 + i) with
      | Raise e => Raise e
      | Ok letter =>
          match row_letters rest with
          | Raise e => Raise e
          | Ok letters => Ok (letter :: letters)
          end
      end
  end.

Definition segment_grid (image : ndarray) (rows cols : Z) (padding : Q)
    : M engine (list grid * list pystr) :=
  image <~ _preprocess_image image ;;
  let '(height, width) := shape2 image in
  cell_height <~ lift (int_true_div height rows) ;;
  cell_width <~ lift (int_true_div width cols) ;;
  row_labels <~ lift (row_letters (range rows)) ;;
  grid_cells image height width cell_height cell_width padding row_labels
    (r ← range rows; c ← range cols; [(r, c)]) [] [].

Definition find_diffusion_zone (image : ndarray) (colony_mask : grid)
    (expansion_pixels : Z) : M engine (list (list bool)) :=
  let iterations := Z.max 1 (expansion_pixels / 3) in
  let expanded_mask := dilate (astype_uint8 colony_mask) iterations in
  let diffusion_mask := sub_uint8 expanded_mask (astype_uint8 colony_mask) in
  ret (gt0 diffusion_mask).
End SAMModel.

End Sam.


(* ====================================================================== *)
(** * The colony analysis orchestrator: [analysis/colony.py] *)
(* ====================================================================== *)

Module Colony.
Import Py.
Open Scope py_scope.

(** ** Values, mappings and the object store *)

(** The address of a [dict] in the object store. *)
Abbreviation loc := nat (only parsing).

(** What a field of a colony record can hold. A [dict] is held by reference:
    two fields, or two records of a batch, may hold the same one. *)
#[local] Unset Elimination Schemes.
Inductive value :=
| VNone
| VBool (b : bool)
| VInt (n : Z)
| VFloat (x : Q)
| VStr (s : pystr)
| VList (xs : list value)
| VArray (a : Sam.ndarray)
| VDict (l : loc).
#[local] Set Elimination Schemes.

(** A [dict] with string keys, in insertion order. *)
Abbreviation dict := (list (list Z * value)) (only parsing).

Fixpoint dict_get (k : pystr) (d : dict) : option value :=
  match d with
  | [] => None
  | (k', v) :: rest => if decide (k = k') then Some v else dict_get k rest
  end.

(** [d[k] = v]: an existing key keeps its place, a new one goes last. *)
Fixpoint dict_set (k : pystr) (v : value) (d : dict) : dict :=
  match d with
  | [] => [(k, v)]
  | (k', v') :: rest =>
      if decide (k = k') then (k', v) :: rest else (k', v') :: dict_set k v rest
  end.

(** [d.update(new)] *)
Definition dict_update (d new : dict) : dict :=
  foldl (fun acc kv => dict_set (fst kv) (snd kv) acc) d new.

Inductive level := INFO | WARNING | ERROR.

(** The messages the orchestrator logs, by their format string and the
    values put into it. *)
Inductive message :=
| NoColonies                          (* analyze, line 55 *)
| Finished (n : nat)                  (* analyze, line 68 *)
| AnalyzeFailed (i : nat) (e : exn)   (* analyze, line 65 *)
| MissingData (id : value)            (* analyze_colony, line 83 *)
| LowQuality (id : value)             (* analyze_colony, line 106 *)
| AdvancedFailed (e : exn).           (* _perform_advanced_analysis, line 139 *)

Record state := {
  heap : list dict;                   (* the object store *)
  log : list (level * message)
}.

(** The state after one more log entry. *)
Definition logged (lv : level) (m : message) (s : state) : state :=
  {| heap := heap s; log := log s ++ [(lv, m)] |}.

Definition logging (lv : level) (m : message) : M state unit :=
  modify (logged lv m).

(** The [dict] at an address. Python has no dangling reference; the model
    raises at one. *)
Definition deref (l : loc) : M state dict :=
  s <~ get ;;
  match heap s !! l with
  | Some d => ret d
  | None => raise RuntimeError
  end.

Definition assign (l : loc) (d : dict) : M state unit :=
  modify (fun s => {| heap := <[l := d]> (heap s); log := log s |}).

(** [{}]: a new, empty [dict]. *)
Definition new_dict : M state loc :=
  s <~ get ;;
  modify (fun s => {| heap := heap s ++ [[]]; log := log s |}) ;;;
  ret (length (heap s)).

(** [k in d] *)
Definition contains (l : loc) (k : pystr) : M state bool :=
  d <~ deref l ;; ret (bool_decide (is_Some (dict_get k d))).

(** [d[k]] *)
Definition getitem (l : loc) (k : pystr) : M state value :=
  d <~ deref l ;;
  match dict_get k d with
  | Some v => ret v
  | None => raise (KeyError k)
  end.

(** [d.get(k, dflt)] *)
Definition get_default (l : loc) (k : pystr) (dflt : value) : M state value :=
  d <~ deref l ;; ret (default dflt (dict_get k d)).

(** [d[k] = v] *)
Definition setitem (l : loc) (k : pystr) (v : value) : M state unit :=
  d <~ deref l ;; assign l (dict_set k v d).

(** [target[k] = v] with a string key, by the type of [target]. *)
Definition setitem_value (target : value) (k : pystr) (v : value) : M state unit :=
  match target with
  | VDict l => setitem l k v
  | VArray _ => raise IndexError
  | _ => raise TypeError
  end.

(** [target.update(new)]: only a [dict] has the method. *)
Definition update_value (target : value) (new : dict) : M state unit :=
  match target with
  | VDict l => d <~ deref l ;; assign l (dict_update d new)
  | _ => raise AttributeError
  end.

(** The number of entries of an array, and its entries in order. *)
Definition entries (a : Sam.ndarray) : list Z :=
  match a with
  | Sam.Arr2 g => concat g
  | Sam.Arr3 g => concat (concat g)
  end.

(** The truth value of an array: ambiguous beyond one entry. *)
Definition array_truth (bs : list bool) : result bool :=
  match bs with
  | [] => Ok false
  | [b] => Ok b
  | _ => Raise ValueError
  end.

(** [if v:] *)
Definition truthy (v : value) : M state bool :=
  match v with
  | VNone => ret false
  | VBool b => ret b
  | VInt n => ret (negb (n =? 0))
  | VFloat x => ret (negb (Qeq_bool x 0))
  | VStr s => ret (negb (bool_decide (s = [])))
  | VList xs => ret (negb (bool_decide (xs = [])))
  | VArray a => lift (array_truth ((fun n => negb (n =? 0)) <$> entries a))
  | VDict l => d <~ deref l ;; ret (negb (bool_decide (d = [])))
  end.

(** [if v < c:] for a [float] constant [c]. *)
Definition below (v : value) (c : Q) : M state bool :=
  match v with
  | VBool b => ret (Qltb (inject_Z (if b then 1 else 0)) c)
  | VInt n => ret (Qltb (inject_Z n) c)
  | VFloat x => ret (Qltb x c)
  | VArray a => lift (array_truth ((fun n => Qltb (inject_Z n) c) <$> entries a))
  | _ => raise TypeError
  end.

(** The items of a sequence of strings, [TypeError] at one that is not a
    string. *)
Fixpoint strings_of (xs : list value) : result (list pystr) :=
  match xs with
  | [] => Ok []
  | VStr s :: rest =>
      match strings_of rest with
      | Ok ss => Ok (s :: ss)
      | Raise e => Raise e
      end
  | _ :: _ => Raise TypeError
  end.

(** [sep.join(v)]: over the items of a list, the characters of a string or
    the keys of a [dict]. *)
Definition join_value (sep : pystr) (v : value) : M state pystr :=
  match v with
  | VList xs => ss <~ lift (strings_of xs) ;; ret (join sep ss)
  | VStr s => ret (join sep ((fun c => [c]) <$> s))
  | VDict l => d <~ deref l ;; ret (join sep (fst <$> d))
  | _ => raise TypeError
  end.

(** The literal [0.3]: the double nearest to it. *)
Definition float_0_3 : Q := 5404319552844595 # 18014398509481984.

(** ** Collaborators

    The feature extractors, the scoring system and NumPy, which are not part
    of this core. A collaborator reads the object store; it does not write
    to it. *)

Inductive extractor_type := basic | metabolite | aerial.

Class Collaborators := {
  (* FeatureExtractor(extractor_type=t).extract(img, mask) *)
  extract : extractor_type -> list dict -> value -> value -> result dict;
  (* ScoringSystem.calculate_scores(features) *)
  calculate_scores : list dict -> value -> result dict;
  (* ScoringSystem.classify_phenotype(features) *)
  classify_phenotype : list dict -> value -> result dict;
  (* np.sum(a) *)
  np_sum : value -> result Q
}.

(** ** [ColonyAnalyzer] *)

Record ColonyAnalyzer := {
  (* the find_diffusion_zone of the SAM model, when there is one *)
  sam_model : option (value -> value -> result value);
  orientation : pystr;
  feature_extractors : list extractor_type
}.

Definition _init_feature_extractors (orientation : pystr) : list extractor_type :=
  if decide (orientation = lit "back") then [basic; metabolite]
  else [basic; aerial].

Section ColonyAnalyzer.
Context `{Collaborators} `{Rounding}.
Variable self : ColonyAnalyzer.

Definition _perform_advanced_analysis (colony : loc) : M state unit :=
  try_except
    (find_diffusion_zone <~
       match sam_model self with
       | Some method => ret method
       | None => raise AttributeError
       end ;;
     img <~ getitem colony (lit "img") ;;
     mask <~ getitem colony (lit "mask") ;;
     diffusion_mask <~ lift (find_diffusion_zone img mask) ;;
     present <~ contains colony (lit "advanced_masks") ;;
     (if present then ret tt
      else fresh <~ new_dict ;; setitem colony (lit "advanced_masks") (VDict fresh)) ;;;
     advanced_masks <~ getitem colony (lit "advanced_masks") ;;
     setitem_value advanced_masks (lit "diffusion") diffusion_mask ;;;
     diffusion_area <~ lift (np_sum diffusion_mask) ;;
     mask <~ getitem colony (lit "mask") ;;
     colony_area <~ lift (np_sum mask) ;;
     let diffusion_ratio :=
       if Qltb 0 colony_area then fround (diffusion_area / colony_area) else 0%Q in
     features <~ getitem colony (lit "features") ;;
     setitem_value features (lit "metabolite_diffusion_ratio") (VFloat diffusion_ratio))
    (fun e => logging ERROR (AdvancedFailed e)).

(** The loop of [analyze_colony] over the feature extractors. *)
Fixpoint extract_features (colony : loc) (extractors : list extractor_type)
    : M state unit :=
  match extractors with
  | [] => ret tt
  | extractor :: rest =>
      img <~ getitem colony (lit "img") ;;
      mask <~ getitem colony (lit "mask") ;;
      s <~ get ;;
      features <~ lift (extract extractor (heap s) img mask) ;;
      target <~ getitem colony (lit "features") ;;
      update_value target features ;;;
      extract_features colony rest
  end.

(** [if key not in colony: colony[key] = {}] *)
Definition ensure_mapping (colony : loc) (key : pystr) : M state unit :=
  present <~ contains colony key ;;
  if present then ret tt
  else fresh <~ new_dict ;; setitem colony key (VDict fresh).

(** Lines 104 to 106: the quality check. *)
Definition check_quality (colony : loc) : M state unit :=
  quality <~ get_default colony (lit "quality_score") (VFloat (1 # 2)) ;;
  low <~ below quality float_0_3 ;;
  if low then id <~ getitem colony (lit "id") ;; logging WARNING (LowQuality id)
  else ret tt.

(** Lines 109 to 115: the cross-boundary case. *)
Definition resolve_cross_boundary (colony : loc) : M state unit :=
  flag <~ get_default colony (lit "cross_boundary") (VBool false) ;;
  crossing <~ truthy flag ;;
  if crossing then
    phenotype <~ getitem colony (lit "phenotype") ;;
    setitem_value phenotype (lit "special_case") (VStr (lit "cross_boundary")) ;;;
    affected_wells <~ get_default colony (lit "overlapping_wells") (VList []) ;;
    some <~ truthy affected_wells ;;
    text <~ (if some then join_value (lit ", ") affected_wells
             else ret (lit "none")) ;;
    phenotype <~ getitem colony (lit "phenotype") ;;
    setitem_value phenotype (lit "affected_wells") (VStr text)
  else ret tt.

(** Lines 86 to 106: from feature extraction to the quality check. *)
Definition run_pipeline (colony : loc) (advanced : bool) : M state unit :=
  extract_features colony (feature_extractors self) ;;;
  features <~ getitem colony (lit "features") ;;
  s <~ get ;;
  scores <~ lift (calculate_scores (heap s) features) ;;
  target <~ getitem colony (lit "scores") ;;
  update_value target scores ;;;
  features <~ getitem colony (lit "features") ;;
  s <~ get ;;
  phenotype <~ lift (classify_phenotype (heap s) features) ;;
  target <~ getitem colony (lit "phenotype") ;;
  update_value target phenotype ;;;
  (if advanced && bool_decide (is_Some (sam_model self))
   then _perform_advanced_analysis colony else ret tt) ;;;
  check_quality colony.

Definition analyze_colony (colony : loc) (advanced : bool) : M state loc :=
  ensure_mapping colony (lit "features") ;;;
  ensure_mapping colony (lit "scores") ;;;
  ensure_mapping colony (lit "phenotype") ;;;
  has_img <~ contains colony (lit "img") ;;
  has_mask <~ contains colony (lit "mask") ;;
  if negb has_img || negb has_mask then
    id <~ get_default colony (lit "id") (VStr (lit "unknown")) ;;
    logging WARNING (MissingData id) ;;;
    ret colony
  else
    run_pipeline colony advanced ;;;
    resolve_cross_boundary colony ;;;
    ret colony.

(** Lines 74 to 106, for a record that holds [img] and [mask]: all of
    [analyze_colony] before its last step. *)
Definition until_last_step (colony : loc) (advanced : bool) : M state unit :=
  ensure_mapping colony (lit "features") ;;;
  ensure_mapping colony (lit "scores") ;;;
  ensure_mapping colony (lit "phenotype") ;;;
  run_pipeline colony advanced.

(** The loop of [analyze] over the batch. *)
Fixpoint analyze_each (i : nat) (colonies : list loc) (advanced : bool)
    (analyzed_colonies : list loc) : M state (list loc) :=
  match colonies with
  | [] => ret analyzed_colonies
  | colony :: rest =>
      analyzed_colonies <~
        try_except
          (analyzed_colony <~ analyze_colony colony advanced ;;
           ret (analyzed_colonies ++ [analyzed_colony]))
          (fun e =>
             logging ERROR (AnalyzeFailed i e) ;;;
             ret (analyzed_colonies ++ [colony])) ;;
      analyze_each (S i) rest advanced analyzed_colonies
  end.

Definition analyze (colonies : list loc) (advanced : bool) : M state (list loc) :=
  match colonies with
  | [] => logging WARNING NoColonies ;;; ret []
  | _ =>
      analyzed_colonies <~ analyze_each 0 colonies advanced [] ;;
      logging INFO (Finished (length analyzed_colonies)) ;;;
      ret analyzed_colonies
  end.

End ColonyAnalyzer.

End Colony.

(* ====================================================================== *)
(** * Setting up the engine: [core/sam_model.py], lines 33 to 84 *)
(* ====================================================================== *)

Module Setup.
Import Py.
Open Scope py_scope.

(** ** [SAMModel._resolve_checkpoint_path] *)

(** The file system, as the method sees it: [Path(p).exists()] and
    [str(Path.home())]. *)
Class FileSystem := {
  path_exists : pystr -> bool;
  home : pystr
}.

(** What the method raises: [FileNotFoundError] with the model type and the
    default path of its message, and the [TypeError] of [Path(None)]. *)
Inductive error :=
| FileNotFoundError (model_type path : pystr)
| PathTypeError.

Inductive resolved :=
| Returns (path : pystr)
| Raises (e : error).

Definition default_paths : list (pystr * pystr) :=
  [(lit "vit_h", lit "models/sam_vit_h_4b8939.pth");
   (lit "vit_l", lit "models/sam_vit_l_0b3195.pth");
   (lit "vit_b", lit "models/sam_vit_b_01ec64.pth")].

(** [default_paths.get(model_type)] *)
Fixpoint paths_get (model_type : pystr) (paths : list (pystr * pystr))
    : option pystr :=
  match paths with
  | [] => None
  | (k, p) :: rest => if decide (model_type = k) then Some p else paths_get model_type rest
  end.

(** [Path(p).name] for a path that ends in a file name: what follows the
    last slash. *)
Fixpoint name_after (p : pystr) (current : pystr) : pystr :=
  match p with
  | [] => current
  | ch :: rest =>
      if ch =? 47 then name_after rest [] else name_after rest (current ++ [ch])
  end.

Definition path_name (p : pystr) : pystr := name_after p [].

(** [str(Path(dir) / part)] for a directory in normal form and a relative
    part. *)
Definition joinpath (dir part : pystr) : pystr :=
  match last dir with
  | Some 47 => dir ++ part
  | _ => dir ++ lit "/" ++ part
  end.

Section Resolve.
Context `{FileSystem}.

(** The loop over [possible_paths]. *)
Fixpoint first_existing (possible_paths : list pystr) : option pystr :=
  match possible_paths with
  | [] => None
  | p :: rest => if path_exists p then Some p else first_existing rest
  end.

(** The candidates for a default path [path]. *)
Definition possible_paths (path : pystr) : list pystr :=
  [path;
   lit "src/" ++ path;
   joinpath (joinpath (joinpath home (lit ".colony_analysis")) (lit "models"))
     (path_name path)].

Definition _resolve_checkpoint_path (checkpoint_path : option pystr)
    (model_type : pystr) : resolved :=
  let given :=
    match checkpoint_path with
    | Some (ch :: p) => path_exists (ch :: p)
    | _ => false
    end in
  if given then Returns (default [] checkpoint_path)
  else
    match paths_get model_type default_paths with
    | None => Raises PathTypeError
    | Some path =>
        match first_existing (possible_paths path) with
        | Some p => Returns p
        | None => Raises (FileNotFoundError model_type path)
        end
    end.
End Resolve.

(** ** [SAMModel._extract_sam_params] *)

(** What [config.get("sam")] returns: an object with attributes (one that
    has a [__dict__], such as a dataclass), a [dict], or anything else,
    [None] included. *)
Inductive sam_config :=
| SamObject (attrs : list (pystr * Colony.value))
| SamDict (d : list (pystr * Colony.value))
| SamOther.

(** The literals [0.85] and [0.8]: the doubles nearest to them. *)
Definition float_0_85 : Q := 7656119366529843 # 9007199254740992.
Definition float_0_8 : Q := 3602879701896397 # 4503599627370496.

Definition default_params : list (pystr * Colony.value) :=
  [(lit "points_per_side", Colony.VInt 64);
   (lit "pred_iou_thresh", Colony.VFloat float_0_85);
   (lit "stability_score_thresh", Colony.VFloat float_0_8);
   (lit "crop_n_layers", Colony.VInt 1);
   (lit "crop_n_points_downscale_factor", Colony.VInt 1);
   (lit "min_mask_region_area", Colony.VInt 1500)].

(** The loop over the keys of [default_params], for a configuration object:
    [if hasattr(sam_config, key): default_params[key] = getattr(sam_config, key)]. *)
Fixpoint take_attributes (attrs : list (pystr * Colony.value)) (keys : list pystr)
    (params : list (pystr * Colony.value)) : list (pystr * Colony.value) :=
  match keys with
  | [] => params
  | key :: rest =>
      match Colony.dict_get key attrs with
      | Some v => take_attributes attrs rest (Colony.dict_set key v params)
      | None => take_attributes attrs rest params
      end
  end.

(** The state is the list of the warnings logged, by the exception in each. *)
Definition _extract_sam_params (config : option (pystr -> result sam_config))
    : M (list exn) (list (pystr * Colony.value)) :=
  match config with
  | None => ret default_params
  | Some config_get =>
      try_except
        (sam_config <~ lift (config_get (lit "sam")) ;;
         match sam_config with
         | SamObject attrs =>
             ret (take_attributes attrs (fst <$> default_params) default_params)
         | SamDict d => ret (Colony.dict_update default_params d)
         | SamOther => ret default_params
         end)
        (fun e => modify (fun warnings => warnings ++ [e]) ;;; ret default_params)
  end.

End Setup.

(* ====================================================================== *)
(** * The vocabulary of the specification *)
(* ====================================================================== *)

Module Spec.
Import Py.
Open Scope py_scope.

(** ** Segmentation engine *)

(** The area of a candidate is within the bounds of [segment_everything]. *)
Definition within_area (min_area : Z) (max_area : option Z)
    (md : Sam.mask_data) : bool :=
  (min_area <=? Sam.area md) &&
  match max_area with
  | Some m => Sam.area md <=? m
  | None => true
  end.

(** A mask that holds only 0 and 1. *)
Definition binary (g : list (list Z)) : Prop :=
  Forall (Forall (fun v => v = 0 \/ v = 1)) g.

(** The images that a run hands to the backend. *)
Definition backend_images (t : list Sam.call) : list Sam.ndarray :=
  omap (fun c => match c with
                 | Sam.Generate im | Sam.SetImage im => Some im
                 | _ => None
                 end) t.

(** A run from [s] to [s'] first normalises [image], and hands the backend
    nothing but the normalised image. *)
Definition normalizes_first (image : Sam.ndarray) (s s' : Sam.engine) : Prop :=
  exists rest,
    Sam.trace s' = Sam.trace s ++ Sam.Normalize image :: rest
    /\ Forall (fun im => im = Sam.normalized image) (backend_images rest).

(** ** Hoare triples

    With one postcondition for a return and one for a raise. *)
Definition hoare {S A} (P : S -> Prop) (m : M S A)
    (Q : A -> S -> Prop) (R : exn -> S -> Prop) : Prop :=
  forall s, P s ->
    match m s with
    | (Ok a, s') => Q a s'
    | (Raise e, s') => R e s'
    end.

(** [m] keeps [I], however it ends. *)
Definition preserves {S A} (I : S -> Prop) (m : M S A) : Prop :=
  hoare I m (fun _ => I) (fun _ => I).

(** ** Colony records in the store *)

(** The log still starts with [entries]. *)
Definition holds_log (entries : list (Colony.level * Colony.message))
    (s : Colony.state) : Prop :=
  entries `prefix_of` Colony.log s.

(** A computation that leaves the state as it found it. *)
Definition readonly {A} (m : M Colony.state A) : Prop := forall s, (m s).2 = s.

(** The keys under which [analyze_colony] expects a mapping. *)
Definition mapping_keys : list (list Z) :=
  [lit "features"; lit "scores"; lit "phenotype"; lit "advanced_masks"].

(** None of the mappings that the record [d] at [c] holds under
    [mapping_keys] is the record itself, and each one is in the store. *)
Definition selfless (c : nat) (d : list (list Z * Colony.value))
    (s : Colony.state) : Prop :=
  forall k l,
    In k mapping_keys ->
    Colony.dict_get k d = Some (Colony.VDict l) ->
    l <> c /\ (l < length (Colony.heap s))%nat.

(** [v] is not a reference to the record at [c], nor a dangling one. *)
Definition safe (c : nat) (v : Colony.value) (s : Colony.state) : Prop :=
  forall l, v = Colony.VDict l -> l <> c /\ (l < length (Colony.heap s))%nat.

(** The record at [c] is [d]. *)
Definition record_is (c : nat) (d : list (list Z * Colony.value))
    (s : Colony.state) : Prop :=
  Colony.heap s !! c = Some d /\ selfless c d s.

(** The record at [c] differs from [d0] at most at the keys [ks]. *)
Definition touched_only (c : nat) (ks : list (list Z))
    (d0 : list (list Z * Colony.value)) (s : Colony.state) : Prop :=
  exists d,
    record_is c d s
    /\ forall k, ~ In k ks -> Colony.dict_get k d = Colony.dict_get k d0.

Section Tail.
Context `{Colony.Collaborators} `{Rounding}.

(** What is left of [run_pipeline] once the phenotype is merged: lines 100
    to 106. *)
Definition pipeline_tail (self : Colony.ColonyAnalyzer) (c : nat)
    (advanced : bool) : M Colony.state unit :=
  (if advanced && bool_decide (is_Some (Colony.sam_model self))
   then Colony._perform_advanced_analysis self c else ret tt) ;;;
  Colony.check_quality c.
End Tail.


(** Every row of [g] has [w] entries. *)
Definition rectangular (g : list (list Z)) (w : nat) : Prop :=
  Forall (fun row => length row = w) g.

(** The number of dilations for an expansion of [expansion_pixels]. *)
Definition reach (expansion_pixels : Z) : Z := Z.max 1 (expansion_pixels / 3).

(** ** Setting up the engine *)

(** An explicit checkpoint that [_resolve_checkpoint_path] takes: a path
    that is not empty and exists. *)
Definition usable `{Setup.FileSystem} (checkpoint_path : option (list Z)) : Prop :=
  exists p, checkpoint_path = Some p /\ p <> [] /\ Setup.path_exists p = true.

(** What a lookup in [d.update(new)] gives: the value of [new], or else the
    one of [d]. *)
Definition updated_lookup (d new : list (list Z * Colony.value)) (key : list Z)
    : option Colony.value :=
  match Colony.dict_get key new with
  | Some v => Some v
  | None => Colony.dict_get key d
  end.

(** ** What the analysis leaves in place *)

(** Every object of [s] is still in [s'], with its keys where they were (new
    keys come after them), and the log of [s'] starts with the log of [s]. *)
Definition extends (s s' : Colony.state) : Prop :=
  Colony.log s `prefix_of` Colony.log s'
  /\ forall l d, Colony.heap s !! l = Some d ->
       exists d', Colony.heap s' !! l = Some d' /\ d.*1 `prefix_of` d'.*1.

(** [m] only adds to the state, however it ends. *)
Definition grows {A} (m : M Colony.state A) : Prop :=
  forall s, extends s (m s).2.

(** [m] leaves [f] of the state as it was, however it ends. *)
Definition keeps {A B} (f : Colony.state -> B) (m : M Colony.state A) : Prop :=
  forall s, f (m s).2 = f s.

(** The number of objects in the store. *)
Definition objects (s : Colony.state) : nat := length (Colony.heap s).

End Spec.

(* ====================================================================== *)
(** * Sample collaborators and records *)
(* ====================================================================== *)

Module Samples.
Import Py.

(** Every float operation is exact. *)
Definition exact_rounding : Rounding := {| fround q := q |}.

(** A backend whose generator finds nothing and whose predictor fails. *)
Definition failing_backend : Sam.Backend := {|
  Sam.generate _ := Ok [];
  Sam.set_image _ := Ok tt;
  Sam.predict _ _ _ _ := Raise (Other 0)
|}.

(** Three candidates, of areas 10, 25 and 400. *)
Definition three_candidates : list Sam.mask_data :=
  [{| Sam.segmentation := [[1]]; Sam.stability_score := 9 # 10; Sam.area := 10 |};
   {| Sam.segmentation := [[1; 1]]; Sam.stability_score := 8 # 10; Sam.area := 25 |};
   {| Sam.segmentation := [[1; 0]]; Sam.stability_score := 7 # 10; Sam.area := 400 |}].

Definition three_candidate_backend : Sam.Backend := {|
  Sam.generate _ := Ok three_candidates;
  Sam.set_image _ := Ok tt;
  Sam.predict _ _ _ _ := Raise (Other 0)
|}.

(** An engine that has done nothing yet. *)
Definition idle : Sam.engine := {| Sam.predictor_image := None; Sam.trace := [] |}.

Definition gray_image : Sam.ndarray := Sam.Arr2 [[10; 20]; [30; 40]].

Definition sample_mask : Sam.ndarray := Sam.Arr2 [[0; 1]; [0; 0]].

(** Extractors that return one feature each, a scoring system that returns
    one score and one label. *)
Definition working_collaborators : Colony.Collaborators := {|
  Colony.extract t _ _ _ :=
    match t with
    | Colony.basic => Ok [(lit "area", Colony.VInt 5)]
    | Colony.metabolite => Ok [(lit "pigment", Colony.VInt 1)]
    | Colony.aerial => Ok [(lit "aerial_ratio", Colony.VInt 2)]
    end;
  Colony.calculate_scores _ _ := Ok [(lit "overall", Colony.VInt 3)];
  Colony.classify_phenotype _ _ :=
    Ok [(lit "development", Colony.VStr (lit "mature"))];
  Colony.np_sum _ := Raise TypeError
|}.

(** As above, but the aerial extractor raises. *)
Definition failing_aerial_extractor : Colony.Collaborators := {|
  Colony.extract t _ _ _ :=
    match t with
    | Colony.basic => Ok [(lit "area", Colony.VInt 5)]
    | Colony.metabolite => Ok [(lit "pigment", Colony.VInt 1)]
    | Colony.aerial => Raise (Other 1)
    end;
  Colony.calculate_scores _ _ := Ok [(lit "overall", Colony.VInt 3)];
  Colony.classify_phenotype _ _ :=
    Ok [(lit "development", Colony.VStr (lit "mature"))];
  Colony.np_sum _ := Raise TypeError
|}.

(** An analyzer of front images, without a SAM model. *)
Definition front_analyzer : Colony.ColonyAnalyzer := {|
  Colony.sam_model := None;
  Colony.orientation := lit "front";
  Colony.feature_extractors := Colony._init_feature_extractors (lit "front")
|}.

(** A record as the detection stage leaves it. *)
Definition detected_record : list (list Z * Colony.value) :=
  [(lit "id", Colony.VInt 7); (lit "img", Colony.VArray gray_image);
   (lit "mask", Colony.VArray sample_mask)].

(** A record of low quality that carries no [id]. *)
Definition anonymous_low_quality_record : list (list Z * Colony.value) :=
  [(lit "img", Colony.VArray gray_image); (lit "mask", Colony.VArray sample_mask);
   (lit "quality_score", Colony.VFloat (1 # 4))].

(** A record without a mask. *)
Definition maskless_record : list (list Z * Colony.value) :=
  [(lit "id", Colony.VInt 7); (lit "img", Colony.VArray gray_image)].

(** A record that crosses two wells. *)
Definition crossing_record : list (list Z * Colony.value) :=
  [(lit "id", Colony.VInt 7); (lit "img", Colony.VArray gray_image);
   (lit "mask", Colony.VArray sample_mask);
   (lit "cross_boundary", Colony.VBool true);
   (lit "overlapping_wells",
    Colony.VList [Colony.VStr (lit "A1"); Colony.VStr (lit "A2")])].

(** A store that holds one record, at address 0. *)
Definition store_of (d : list (list Z * Colony.value)) : Colony.state :=
  {| Colony.heap := [d]; Colony.log := [] |}.

(** A backend whose predictor proposes three masks, the last two with the
    same, highest score. *)
Definition scoring_backend : Sam.Backend := {|
  Sam.generate _ := Ok [];
  Sam.set_image _ := Ok tt;
  Sam.predict _ _ _ _ := Ok ([[[1; 0]]; [[0; 1]]; [[1; 1]]], [1 # 2; 9 # 10; 9 # 10])
|}.

(** A file system that holds the default checkpoint of [vit_b] below [src/],
    and a checkpoint of the user's. *)
Definition installed_below_src : Setup.FileSystem := {|
  Setup.path_exists p :=
    bool_decide (p = lit "src/models/sam_vit_b_01ec64.pth"
                 \/ p = lit "/data/custom.pth");
  Setup.home := lit "/home/user"
|}.

(** A file system without any checkpoint. *)
Definition nothing_installed : Setup.FileSystem := {|
  Setup.path_exists _ := false;
  Setup.home := lit "/home/user"
|}.

(** A configuration whose [sam] section is a [dict] that sets one known and
    one unknown parameter. *)
Definition dict_config (key : list Z) : result Setup.sam_config :=
  Ok (Setup.SamDict [(lit "points_per_side", Colony.VInt 32);
                     (lit "box_nms_thresh", Colony.VFloat (7 # 10))]).

(** A configuration whose [sam] section is an object with one known and one
    unknown attribute. *)
Definition object_config (key : list Z) : result Setup.sam_config :=
  Ok (Setup.SamObject [(lit "points_per_side", Colony.VInt 32);
                       (lit "box_nms_thresh", Colony.VFloat (7 # 10))]).

(** A diffusion zone of two pixels around a colony of one. *)
Definition sample_zone : Sam.ndarray := Sam.Arr2 [[1; 0]; [1; 0]].

(** As [working_collaborators], with a NumPy that counts the pixels set. *)
Definition counting_collaborators : Colony.Collaborators := {|
  Colony.extract := Colony.extract (Collaborators := working_collaborators);
  Colony.calculate_scores :=
    Colony.calculate_scores (Collaborators := working_collaborators);
  Colony.classify_phenotype :=
    Colony.classify_phenotype (Collaborators := working_collaborators);
  Colony.np_sum v :=
    match v with
    | Colony.VArray a => Ok (inject_Z (foldr Z.add 0 (Colony.entries a)))
    | _ => Raise TypeError
    end
|}.

(** An analyzer of front images whose SAM model finds [sample_zone]. *)
Definition zone_analyzer : Colony.ColonyAnalyzer := {|
  Colony.sam_model := Some (fun _ _ => Ok (Colony.VArray sample_zone));
  Colony.orientation := lit "front";
  Colony.feature_extractors := Colony._init_feature_extractors (lit "front")
|}.

(** An analyzer of front images whose SAM model fails. *)
Definition broken_analyzer : Colony.ColonyAnalyzer := {|
  Colony.sam_model := Some (fun _ _ => Raise (Other 2));
  Colony.orientation := lit "front";
  Colony.feature_extractors := Colony._init_feature_extractors (lit "front")
|}.

(** A store with a record that lacks its mask, and the three mappings it
    holds. *)
Definition incomplete_store : Colony.state := {|
  Colony.heap :=
    [[(lit "id", Colony.VInt 7); (lit "img", Colony.VArray gray_image);
      (lit "features", Colony.VDict 1); (lit "scores", Colony.VDict 2);
      (lit "phenotype", Colony.VDict 3)];
     []; []; []];
  Colony.log := []
|}.

(** A store with an analysed record, and its mappings. *)
Definition analysed_store : Colony.state := {|
  Colony.heap :=
    [[(lit "id", Colony.VInt 7); (lit "img", Colony.VArray gray_image);
      (lit "mask", Colony.VArray sample_mask);
      (lit "features", Colony.VDict 1); (lit "scores", Colony.VDict 2);
      (lit "phenotype", Colony.VDict 3)];
     [(lit "area", Colony.VInt 5)]; []; []];
  Colony.log := []
|}.

(** A record that crosses into wells given by number, and its phenotype. *)
Definition numbered_wells_store : Colony.state := {|
  Colony.heap :=
    [[(lit "cross_boundary", Colony.VBool true);
      (lit "overlapping_wells", Colony.VList [Colony.VStr (lit "A1"); Colony.VInt 2]);
      (lit "phenotype", Colony.VDict 1)];
     []];
  Colony.log := []
|}.

(** A record whose overlapping wells are one string, and its phenotype. *)
Definition one_string_store : Colony.state := {|
  Colony.heap :=
    [[(lit "cross_boundary", Colony.VBool true);
      (lit "overlapping_wells", Colony.VStr (lit "A1"));
      (lit "phenotype", Colony.VDict 1)];
     []];
  Colony.log := []
|}.

End Samples.

(* ====================================================================== *)
(** * Proofs *)
(* ====================================================================== *)

Import Py Spec Samples.
Open Scope py_scope.

#[local] Existing Instance exact_rounding.
#[local] Existing Instance failing_backend.

(** ** The segmentation engine *)

Import Sam.

Section SamFacts.
Context `{Backend} `{Rounding}.

Lemma filter_candidates_spec min_area max_area masks_data masks scores :
  filter_candidates min_area max_area masks_data masks scores =
  (masks ++ (segmentation <$> List.filter (within_area min_area max_area) masks_data),
   scores ++ (stability_score <$> List.filter (within_area min_area max_area) masks_data)).
Proof.
  revert masks scores.
  induction masks_data as [|md rest IH]; intros masks scores;
    cbn [filter_candidates List.filter].
  - by rewrite !app_nil_r.
  - destruct (Z.ltb_spec (area md) min_area) as [Hlt|Hge].
    { replace (within_area min_area max_area md) with false; [apply IH|].
      unfold within_area. symmetry. apply andb_false_iff. left.
      apply Z.leb_gt. lia. }
    destruct max_area as [m|].
    + destruct (Z.ltb_spec m (area md)) as [Hgt|Hle].
      { replace (within_area min_area (Some m) md) with false; [apply IH|].
        unfold within_area. symmetry. apply andb_false_iff. right.
        apply Z.leb_gt. lia. }
      replace (within_area min_area (Some m) md) with true.
      * rewrite IH. cbn [fmap list_fmap]. by rewrite <- !app_assoc.
      * unfold within_area. symmetry. apply andb_true_iff.
        split; apply Z.leb_le; lia.
    + replace (within_area min_area None md) with true.
      * rewrite IH. cbn [fmap list_fmap]. by rewrite <- !app_assoc.
      * unfold within_area. symmetry. apply andb_true_iff.
        split; [apply Z.leb_le; lia | done].
Qed.

Lemma within_area_iff min_area max_area md :
  within_area min_area max_area md = true <->
  min_area <= area md /\ (forall m, max_area = Some m -> area md <= m).
Proof.
  unfold within_area. rewrite andb_true_iff, Z.leb_le.
  destruct max_area as [m|].
  - rewrite Z.leb_le. split.
    + intros [? ?]. split; [done|]. intros m' [= <-]. done.
    + intros [? Hm]. split; [done|]. by apply Hm.
  - split; [intros [? _]; split; [done|]; intros ? [=] | intros [? _]; done].
Qed.

(** Claim C3: when the generator produces [candidates] for the normalised
    image, [segment_everything] returns the masks and the scores of exactly
    those candidates whose area [a] satisfies [min_area <= a] and, when
    [max_area] is set, [a <= max_area], in the generator's order; an empty
    candidate list gives empty outputs and no error. *)
Theorem segment_everything_area_filter image min_area max_area candidates s :
  generate (normalized image) = Ok candidates ->
  let kept := List.filter (within_area min_area max_area) candidates in
  fst (segment_everything image min_area max_area s)
    = Ok (segmentation <$> kept, stability_score <$> kept)
  /\ (forall md, In md kept <->
        In md candidates /\ min_area <= area md /\
        (forall m, max_area = Some m -> area md <= m))
  /\ sublist kept candidates
  /\ (candidates = [] -> kept = []).
Proof.
  intros Hgen kept. split; [|split; [|split]].
  - unfold segment_everything, _preprocess_image, emit, bind, modify, ret, lift.
    simpl. rewrite Hgen. simpl. by rewrite filter_candidates_spec.
  - intros md. unfold kept. rewrite filter_In, within_area_iff. tauto.
  - subst kept. clear Hgen. induction candidates as [|md rest IH]; simpl.
    + constructor.
    + destruct (within_area _ _ md); by constructor.
  - intros ->. done.
Qed.

End SamFacts.

Section Dilation.

Lemma px_nat (g : grid) (i j : nat) :
  px g (Z.of_nat i) (Z.of_nat j) = default 0 (g !! i ≫= (.!! j)).
Proof.
  unfold px.
  replace (0 <=? Z.of_nat i) with true by (symmetry; apply Z.leb_le; lia).
  replace (0 <=? Z.of_nat j) with true by (symmetry; apply Z.leb_le; lia).
  by rewrite !Nat2Z.id.
Qed.

Lemma px_outside (g : grid) (y x : Z) : y < 0 \/ x < 0 -> px g y x = 0.
Proof.
  intros Hneg. unfold px.
  destruct (Z.leb_spec 0 y), (Z.leb_spec 0 x); simpl; try done; lia.
Qed.

Lemma pxb_nat (g : list (list bool)) (i j : nat) :
  pxb g (Z.of_nat i) (Z.of_nat j) = default false (g !! i ≫= (.!! j)).
Proof.
  unfold pxb.
  replace (0 <=? Z.of_nat i) with true by (symmetry; apply Z.leb_le; lia).
  replace (0 <=? Z.of_nat j) with true by (symmetry; apply Z.leb_le; lia).
  by rewrite !Nat2Z.id.
Qed.

Lemma pxb_outside (g : list (list bool)) (y x : Z) :
  y < 0 \/ x < 0 -> pxb g y x = false.
Proof.
  intros Hneg. unfold pxb.
  destruct (Z.leb_spec 0 y), (Z.leb_spec 0 x); simpl; try done; lia.
Qed.

Lemma cell_dilate3x3 (g : grid) (i j : nat) :
  dilate3x3 g !! i ≫= (.!! j) =
  (fun _ => neighbourhood_max g (Z.of_nat i) (Z.of_nat j)) <$> (g !! i ≫= (.!! j)).
Proof.
  unfold dilate3x3. rewrite list_lookup_imap.
  destruct (g !! i) as [row|]; simpl; [|done].
  rewrite list_lookup_imap. by destruct (row !! j).
Qed.

Lemma cell_map {A B} (f : A -> B) (g : list (list A)) (i j : nat) :
  map (map f) g !! i ≫= (.!! j) = f <$> (g !! i ≫= (.!! j)).
Proof.
  change (map (map f) g) with (fmap (M := list) (fmap (M := list) f) g).
  rewrite list_lookup_fmap.
  destruct (g !! i) as [row|]; simpl; [|done].
  by rewrite list_lookup_fmap.
Qed.

Lemma cell_sub_uint8 (a b : grid) (i j : nat) :
  sub_uint8 a b !! i ≫= (.!! j) =
  u ← (a !! i ≫= (.!! j)); v ← (b !! i ≫= (.!! j)); Some ((u - v) mod 256).
Proof.
  unfold sub_uint8. rewrite lookup_zip_with.
  destruct (a !! i) as [ra|]; simpl; [|done].
  destruct (b !! i) as [rb|]; simpl.
  - rewrite lookup_zip_with. done.
  - by destruct (ra !! j).
Qed.

Lemma foldr_max_upper (l : list Z) (v : Z) : In v l -> v <= foldr Z.max 0 l.
Proof.
  induction l as [|w l IH]; simpl; [done|].
  intros [->|Hin]; [lia|]. specialize (IH Hin). lia.
Qed.

Lemma foldr_max_range (l : list Z) (hi : Z) :
  0 <= hi -> Forall (fun v => v <= hi) l -> 0 <= foldr Z.max 0 l <= hi.
Proof.
  intros Hhi. induction 1 as [|w l Hw _ IH]; simpl; lia.
Qed.

Lemma neighbourhood_contains (g : grid) (y x : Z) :
  px g y x <= neighbourhood_max g y x.
Proof.
  apply foldr_max_upper. cbn. rewrite !Z.add_0_r. tauto.
Qed.

Lemma neighbourhood_range (g : grid) (hi : Z) (y x : Z) :
  0 <= hi -> (forall y' x', px g y' x' <= hi) ->
  0 <= neighbourhood_max g y x <= hi.
Proof.
  intros Hhi Hg. apply foldr_max_range; [done|].
  cbn. repeat constructor; apply Hg.
Qed.

(** Entries stay within [0, hi] under one dilation. *)
Lemma dilate3x3_range (g : grid) (hi : Z) :
  0 <= hi -> (forall y x, 0 <= px g y x <= hi) ->
  forall y x, 0 <= px (dilate3x3 g) y x <= hi.
Proof.
  intros Hhi Hg y x.
  destruct (Z.lt_ge_cases y 0) as [?|Hy]; [rewrite px_outside by lia; lia|].
  destruct (Z.lt_ge_cases x 0) as [?|Hx]; [rewrite px_outside by lia; lia|].
  rewrite <- (Z2Nat.id y), <- (Z2Nat.id x) by done.
  rewrite px_nat, cell_dilate3x3.
  destruct (g !! _ ≫= _); simpl; [|lia].
  apply neighbourhood_range; [done|]. intros; apply Hg.
Qed.

(** A dilation only adds: no entry decreases. *)
Lemma dilate3x3_extensive (g : grid) (y x : Z) :
  px g y x <= px (dilate3x3 g) y x.
Proof.
  destruct (Z.lt_ge_cases y 0) as [?|Hy]; [rewrite !px_outside by lia; lia|].
  destruct (Z.lt_ge_cases x 0) as [?|Hx]; [rewrite !px_outside by lia; lia|].
  pose proof (neighbourhood_contains g y x) as Hn. revert Hn.
  rewrite <- (Z2Nat.id y), <- (Z2Nat.id x) by done.
  rewrite !px_nat, cell_dilate3x3.
  destruct (g !! _ ≫= _); simpl; lia.
Qed.

Lemma dilate3x3_shape (g : grid) (i j : nat) :
  is_Some (dilate3x3 g !! i ≫= (.!! j)) <-> is_Some (g !! i ≫= (.!! j)).
Proof. rewrite cell_dilate3x3. apply fmap_is_Some. Qed.

Lemma iter_range (g : grid) (hi : Z) (n : nat) :
  0 <= hi -> (forall y x, 0 <= px g y x <= hi) ->
  forall y x, 0 <= px (Nat.iter n dilate3x3 g) y x <= hi.
Proof.
  intros Hhi Hg. induction n as [|n IH]; simpl; [done|].
  by apply dilate3x3_range.
Qed.

Lemma iter_extensive (g : grid) (n : nat) (y x : Z) :
  px g y x <= px (Nat.iter n dilate3x3 g) y x.
Proof.
  induction n as [|n IH]; simpl; [lia|].
  etrans; [apply IH|apply dilate3x3_extensive].
Qed.

Lemma iter_shape (g : grid) (n : nat) (i j : nat) :
  is_Some (Nat.iter n dilate3x3 g !! i ≫= (.!! j)) <-> is_Some (g !! i ≫= (.!! j)).
Proof.
  induction n as [|n IH]; simpl; [done|]. by rewrite dilate3x3_shape.
Qed.

Lemma binary_px (g : grid) : binary g -> forall y x, 0 <= px g y x <= 1.
Proof.
  intros Hb y x.
  destruct (Z.lt_ge_cases y 0) as [?|Hy]; [rewrite px_outside by lia; lia|].
  destruct (Z.lt_ge_cases x 0) as [?|Hx]; [rewrite px_outside by lia; lia|].
  rewrite <- (Z2Nat.id y), <- (Z2Nat.id x) by done. rewrite px_nat.
  destruct (g !! Z.to_nat y) as [row|] eqn:Hrow; simpl; [|lia].
  destruct (row !! Z.to_nat x) as [v|] eqn:Hv; simpl; [|lia].
  unfold binary in Hb. rewrite Forall_lookup in Hb.
  specialize (Hb _ _ Hrow). rewrite Forall_lookup in Hb.
  specialize (Hb _ _ Hv). simpl in Hb. lia.
Qed.

Lemma px_astype_uint8 (g : grid) (y x : Z) :
  px (astype_uint8 g) y x = px g y x mod 256.
Proof.
  destruct (Z.lt_ge_cases y 0) as [?|Hy]; [rewrite !px_outside by lia; reflexivity|].
  destruct (Z.lt_ge_cases x 0) as [?|Hx]; [rewrite !px_outside by lia; reflexivity|].
  rewrite <- (Z2Nat.id y), <- (Z2Nat.id x) by done.
  unfold astype_uint8. rewrite !px_nat, cell_map.
  by destruct (g !! _ ≫= _).
Qed.

(** The diffusion mask, pixel by pixel: the dilated mask exceeds the mask. *)
Lemma diffusion_pixel (m : grid) (n : nat) (y x : Z) :
  (forall y x, 0 <= px m y x <= 255) ->
  pxb (gt0 (sub_uint8 (Nat.iter n dilate3x3 m) m)) y x
  = (px m y x <? px (Nat.iter n dilate3x3 m) y x).
Proof.
  intros Hm.
  destruct (Z.lt_ge_cases y 0) as [?|Hy]; [rewrite pxb_outside, !px_outside by lia; reflexivity|].
  destruct (Z.lt_ge_cases x 0) as [?|Hx]; [rewrite pxb_outside, !px_outside by lia; reflexivity|].
  pose proof (iter_range m 255 n ltac:(lia) Hm y x) as Hr.
  pose proof (iter_extensive m n y x) as He.
  pose proof (Hm y x) as Hmyx.
  pose proof (iter_shape m n (Z.to_nat y) (Z.to_nat x)) as Hs.
  revert Hr He Hmyx.
  rewrite <- (Z2Nat.id y), <- (Z2Nat.id x) by done.
  rewrite pxb_nat, !px_nat. unfold gt0. rewrite cell_map, cell_sub_uint8.
  destruct (Nat.iter n dilate3x3 m !! _ ≫= _) as [u|] eqn:Hu;
    destruct (m !! _ ≫= _) as [v|] eqn:Hv; simpl.
  - intros Hr He Hmyx. rewrite Z.mod_small by lia.
    apply eq_true_iff_eq. rewrite !Z.ltb_lt. lia.
  - destruct Hs as [Hs _]. destruct Hs; [eauto|done].
  - destruct Hs as [_ Hs]. destruct Hs; [eauto|done].
  - done.
Qed.

End Dilation.

Section Diffusion.
Context `{Backend} `{Rounding}.



End Diffusion.

Section MonadFacts.
Context {S : Type}.

Lemma bind_ok {A B} (m : M S A) (k : A -> M S B) s b s' :
  bind m k s = (Ok b, s') <->
  exists a s1, m s = (Ok a, s1) /\ k a s1 = (Ok b, s').
Proof.
  unfold bind. destruct (m s) as [[a|e] s1]; split.
  - eauto.
  - by intros (? & ? & [= <- <-] & ?).
  - done.
  - by intros (? & ? & [=] & _).
Qed.

Lemma bind_raise {A B} (m : M S A) (k : A -> M S B) s e s' :
  bind m k s = (Raise e, s') <->
  m s = (Raise e, s') \/ exists a s1, m s = (Ok a, s1) /\ k a s1 = (Raise e, s').
Proof.
  unfold bind. destruct (m s) as [[a|e0] s1]; split.
  - eauto.
  - intros [[=]|(? & ? & [= <- <-] & ?)]. done.
  - intros [= <- <-]. by left.
  - intros [[= -> ->]|(? & ? & [=] & _)]. reflexivity.
Qed.
End MonadFacts.

Lemma range_spec (n i : Z) : In i (range n) <-> 0 <= i < n.
Proof.
  unfold range. rewrite <- list_elem_of_In, list_elem_of_fmap. split.
  - intros (k & -> & Hk). apply elem_of_seq in Hk. lia.
  - intros Hi. exists (Z.to_nat i). split; [lia|]. apply elem_of_seq. lia.
Qed.


Lemma range_lookup (n i : Z) :
  0 <= i < n -> range n !! Z.to_nat i = Some i.
Proof.
  intros Hi. unfold range. rewrite list_lookup_fmap, lookup_seq_lt by lia.
  simpl. f_equal. lia.
Qed.

Lemma row_letters_ok (idxs : list Z) :
  Forall (fun i => 0 <= 65 + i < 1114112) idxs ->
  row_letters idxs = Ok ((fun i => [65 + i]) <$> idxs).
Proof.
  induction 1 as [|i idxs Hi _ IH]; simpl; [done|].
  unfold chr.
  replace (0 <=? 65 + i) with true by (symmetry; apply Z.leb_le; lia).
  replace (65 + i <? 1114112) with true by (symmetry; apply Z.ltb_lt; lia).
  simpl. by rewrite IH.
Qed.


Section GridFacts.
Context `{Backend} `{Rounding}.

Lemma segment_with_prompts_raises image points point_labels boxes s :
  (forall im pc pl b, exists e, predict im pc pl b = Raise e) ->
  exists e s', segment_with_prompts image points point_labels boxes s = (Raise e, s').
Proof.
  intros Hfail.
  unfold segment_with_prompts, _preprocess_image, emit, bind, modify, ret, lift,
    get, raise. simpl.
  destruct (set_image (normalized image)) as [[]|e]; simpl; [|eauto].
  match goal with |- context [predict ?im ?pc ?pl ?b] =>
    destruct (Hfail im pc pl b) as [e ->] end.
  eauto.
Qed.

Lemma grid_cells_spec image h w cell_height cell_width padding row_labels
    (label_of : Z -> Z -> pystr) cells :
  (forall r c, In (r, c) cells -> cell_label row_labels r c = Ok (label_of r c)) ->
  forall masks labels s,
  exists new s',
    grid_cells image h w cell_height cell_width padding row_labels cells
      masks labels s
    = (Ok (masks ++ new, labels ++ ((fun rc => label_of rc.1 rc.2) <$> cells)), s')
    /\ length new = length cells
    /\ ((forall im pc pl b, exists e, predict im pc pl b = Raise e) ->
        new = replicate (length cells) (zeros h w)).
Proof.
  induction cells as [|[r c] rest IH]; intros Hlabel masks labels s.
  - exists [], s. simpl. rewrite !app_nil_r. done.
  - assert (cell_label row_labels r c = Ok (label_of r c)) as Hrc
      by (apply Hlabel; by left).
    assert (forall r' c', In (r', c') rest ->
              cell_label row_labels r' c' = Ok (label_of r' c')) as Hrest
      by (intros; apply Hlabel; by right).
    cbn [grid_cells]. unfold bind at 1. unfold try_except.
    set (b := cell_box cell_height cell_width padding r c).
    unfold bind at 1.
    destruct (segment_with_prompts image None None (Some b) s)
      as [[ms|e] s1] eqn:Hswp.
    + unfold bind, lift, ret. rewrite Hrc. simpl.
      destruct (IH Hrest (masks ++ [ms.1]) (labels ++ [label_of r c]) s1)
        as (new & s' & -> & Hlen & Hall).
      exists (ms.1 :: new), s'. rewrite <- !app_assoc. simpl.
      split; [done|]. split; [by rewrite Hlen|].
      intros Hfail.
      destruct (segment_with_prompts_raises image None None (Some b) s Hfail)
        as (e & s2 & Hr). congruence.
    + unfold bind, lift, ret, emit, modify. rewrite Hrc. simpl.
      match goal with |- context [grid_cells _ _ _ _ _ _ _ _ _ _ ?st] =>
        destruct (IH Hrest (masks ++ [zeros h w]) (labels ++ [label_of r c]) st)
          as (new & s' & -> & Hlen & Hall) end.
      exists (zeros h w :: new), s'. rewrite <- !app_assoc. simpl.
      split; [done|]. split; [by rewrite Hlen|].
      intros Hfail. by rewrite (Hall Hfail).
Qed.



End GridFacts.

Section GridTheorems.
Context `{Backend} `{Rounding}.

Lemma cells_spec (rows cols r c : Z) :
  In (r, c) (r ← range rows; c ← range cols; [(r, c)]) <->
  0 <= r < rows /\ 0 <= c < cols.
Proof.
  rewrite <- !range_spec, <- !list_elem_of_In, list_elem_of_bind. split.
  - intros (r' & Hin & Hr'). apply list_elem_of_bind in Hin as (c' & Hin & Hc').
    apply list_elem_of_singleton in Hin as [= -> ->]. done.
  - intros [Hr Hc]. exists r. split; [|done].
    apply list_elem_of_bind. exists c. split; [|done]. by apply list_elem_of_singleton.
Qed.




End GridTheorems.



Section Normalisation.
Context `{Backend} `{Rounding}.

Lemma channels_take3 (g : list (list (list Z))) :
  channels (map (map (take 3)) g) = Z.min 3 (channels g).
Proof.
  destruct g as [|[|p row] g]; simpl; try done.
  rewrite length_take. lia.
Qed.

Lemma normalized_idempotent image : normalized (normalized image) = normalized image.
Proof.
  destruct image as [g|g]; simpl.
  - destruct g as [|[|v row] g]; simpl; done.
  - destruct (Z.eqb_spec (channels g) 4) as [H4|H4].
    + unfold cvtColor_RGBA2RGB. simpl. rewrite channels_take3, H4. done.
    + destruct (Z.ltb_spec 3 (channels g)) as [H3|H3]; simpl.
      * rewrite channels_take3. replace (Z.min 3 (channels g)) with 3 by lia. done.
      * replace (channels g =? 4) with false by (symmetry; apply Z.eqb_neq; lia).
        replace (3 <? channels g) with false by (symmetry; apply Z.ltb_ge; lia).
        done.
Qed.

Lemma backend_images_app (t u : list call) :
  backend_images (t ++ u) = backend_images t ++ backend_images u.
Proof. apply omap_app. Qed.

Lemma segment_with_prompts_trace image points point_labels boxes s :
  exists rest,
    trace (segment_with_prompts image points point_labels boxes s).2
      = trace s ++ Normalize image :: rest
    /\ Forall (fun im => im = normalized image) (backend_images rest).
Proof.
  unfold segment_with_prompts, _preprocess_image, emit, bind, modify, ret, lift,
    get, raise. simpl.
  destruct (set_image (normalized image)) as [[]|e]; simpl.
  - match goal with |- context [predict ?im ?pc ?pl ?b] =>
      destruct (predict im pc pl b) as [[ms scores]|e] end; simpl.
    + exists [SetImage (normalized image);
              Predict (match points with Some (_ :: _) => points | _ => None end)
                (match point_labels with Some (_ :: _) => point_labels | _ => None end)
                boxes].
      split; [|repeat constructor].
      destruct (argmax scores) as [i|e]; simpl;
        [destruct (index ms i); simpl; [destruct (index scores i)|]|];
        simpl; rewrite <- !app_assoc; done.
    + eexists [SetImage (normalized image); Predict _ _ _].
      split; [by rewrite <- !app_assoc|repeat constructor].
  - exists [SetImage (normalized image)].
    split; [by rewrite <- !app_assoc|repeat constructor].
Qed.

Lemma grid_cells_trace image h w cell_height cell_width padding row_labels cells :
  normalized image = image ->
  forall masks labels s,
  exists rest,
    trace (grid_cells image h w cell_height cell_width padding row_labels cells
             masks labels s).2 = trace s ++ rest
    /\ Forall (fun im => im = image) (backend_images rest).
Proof.
  intros Hnorm. induction cells as [|[r c] cells IH]; intros masks labels s.
  - exists []. simpl. by rewrite app_nil_r.
  - cbn [grid_cells]. unfold bind at 1. unfold try_except.
    set (b := cell_box cell_height cell_width padding r c).
    unfold bind at 1.
    destruct (segment_with_prompts_trace image None None (Some b) s)
      as (rest1 & Ht1 & Himg1).
    rewrite Hnorm in Himg1.
    assert (Forall (fun im => im = image) (backend_images (Normalize image :: rest1)))
      as Himg1' by done.
    destruct (segment_with_prompts image None None (Some b) s)
      as [[ms|e] s1]; simpl in Ht1.
    + unfold bind, lift, ret.
      destruct (cell_label row_labels r c) as [label|e']; simpl.
      * destruct (IH (masks ++ [ms.1]) (labels ++ [label]) s1) as (rest & -> & Hrest).
        exists ((Normalize image :: rest1) ++ rest).
        rewrite Ht1, <- app_assoc. split; [done|].
        rewrite backend_images_app. by apply Forall_app.
      * simpl. exists (Normalize image :: rest1). done.
    + unfold bind, lift, ret, emit, modify.
      destruct (cell_label row_labels r c) as [label|e']; simpl.
      * match goal with |- context [grid_cells _ _ _ _ _ _ _ _ ?mm ?ll ?st] =>
          destruct (IH mm ll st) as (rest & -> & Hrest) end.
        simpl. exists ((Normalize image :: rest1) ++ Warning label e :: rest).
        rewrite Ht1, <- !app_assoc. split; [done|].
        rewrite backend_images_app. by apply Forall_app.
      * exists (Normalize image :: rest1). done.
Qed.

Lemma segment_grid_trace image rows cols padding s :
  normalizes_first image s (segment_grid image rows cols padding s).2.
Proof.
  unfold normalizes_first, segment_grid, _preprocess_image, emit.
  unfold bind at 1. unfold bind at 1. unfold modify, ret.
  destruct (shape2 (normalized image)) as [h w].
  unfold bind at 1. unfold lift at 1.
  destruct (int_true_div h rows) as [ch|e]; [|exists []; simpl; done].
  unfold bind at 1. unfold lift at 1.
  destruct (int_true_div w cols) as [cw|e]; [|exists []; simpl; done].
  unfold bind at 1. unfold lift at 1.
  destruct (row_letters (range rows)) as [letters|e]; [|exists []; simpl; done].
  match goal with |- context [grid_cells ?im ?hh ?ww ?a ?b ?pd ?rl ?cl [] [] ?st] =>
    destruct (grid_cells_trace im hh ww a b pd rl cl
                (normalized_idempotent image) [] [] st) as (rest & -> & Hrest) end.
  simpl. exists rest. by rewrite <- app_assoc.
Qed.

(** Claim C9, amended: [segment_everything], [segment_grid] and
    [segment_with_prompts] normalise the input image first and hand the
    backend nothing but the normalised image: a 2-dimensional image gets
    three channels, a 4-channel image loses its alpha channel, an image of
    more than 3 channels keeps its first 3. [find_diffusion_zone] does not
    read its image and does not normalise it. *)
Theorem operations_normalize_image image s :
  (forall min_area max_area,
     normalizes_first image s (segment_everything image min_area max_area s).2)
  /\ (forall rows cols padding,
        normalizes_first image s (segment_grid image rows cols padding s).2)
  /\ (forall points point_labels boxes,
        normalizes_first image s
          (segment_with_prompts image points point_labels boxes s).2)
  /\ (forall g, image = Arr2 g ->
        normalized image = Arr3 (map (map (fun v => [v; v; v])) g))
  /\ (forall g, image = Arr3 g -> channels g = 4 ->
        normalized image = Arr3 (map (map (take 3)) g))
  /\ (forall g, image = Arr3 g -> 3 < channels g ->
        normalized image = Arr3 (map (map (take 3)) g)
        /\ channels (map (map (take 3)) g) = 3)
  /\ (forall colony_mask expansion_pixels image',
        (find_diffusion_zone image colony_mask expansion_pixels s).2 = s
        /\ find_diffusion_zone image' colony_mask expansion_pixels
           = find_diffusion_zone image colony_mask expansion_pixels).
Proof.
  split; [|split; [|split; [|split; [|split; [|split]]]]].
  - intros min_area max_area.
    unfold normalizes_first, segment_everything, _preprocess_image, emit, bind,
      modify, ret, lift. simpl.
    exists [Generate (normalized image)]. split; [|repeat constructor].
    destruct (generate (normalized image)); simpl; by rewrite <- app_assoc.
  - intros. apply segment_grid_trace.
  - intros. apply segment_with_prompts_trace.
  - intros g ->. done.
  - intros g -> H4. simpl. by rewrite H4.
  - intros g -> H3. split; [|rewrite channels_take3; lia]. simpl.
    destruct (channels g =? 4); [done|].
    by replace (3 <? channels g) with true by (symmetry; apply Z.ltb_lt; lia).
  - done.
Qed.

End Normalisation.

(** Claim C9 as stated fails: [find_diffusion_zone] on a grayscale image
    does not normalise it. *)
Lemma find_diffusion_zone_skips_normalization :
  let s' := (find_diffusion_zone gray_image [[0; 1]; [0; 0]] 15 idle).2 in
  ~ In (Normalize gray_image) (trace s') /\ ~ normalizes_first gray_image idle s'.
Proof.
  simpl. split; [tauto|]. intros (rest & Ht & _). simpl in Ht. done.
Qed.

Lemma segment_everything_area_filter_witness :
  (segment_everything (H := three_candidate_backend) gray_image 25 (Some 100) idle).1
  = Ok ([[[1; 1]]], [8 # 10]).
Proof.
  exact (proj1 (segment_everything_area_filter (H := three_candidate_backend)
                  gray_image 25 (Some 100) three_candidates idle eq_refl)).
Defined.



(** ** The colony analysis orchestrator *)

Import Colony.

Section HoareRules.
Context {S : Type}.
Implicit Types (P I : S -> Prop) (R : exn -> S -> Prop).

Lemma hoare_ret {A} (a : A) (Q : A -> S -> Prop) R : hoare (Q a) (ret a) Q R.
Proof. intros s Hs. exact Hs. Qed.

Lemma hoare_raise {A} e (Q : A -> S -> Prop) R : hoare (R e) (raise e) Q R.
Proof. intros s Hs. exact Hs. Qed.

Lemma hoare_bind {A B} P (m : M S A) (k : A -> M S B) Q1 Q R :
  hoare P m Q1 R -> (forall a, hoare (Q1 a) (k a) Q R) -> hoare P (bind m k) Q R.
Proof.
  intros Hm Hk s Hs. specialize (Hm s Hs). unfold bind.
  destruct (m s) as [[a|e] s1]; [by apply Hk|done].
Qed.

Lemma hoare_try {A} P (m : M S A) (h : exn -> M S A) Q R1 R :
  hoare P m Q R1 -> (forall e, hoare (R1 e) (h e) Q R) ->
  hoare P (try_except m h) Q R.
Proof.
  intros Hm Hh s Hs. specialize (Hm s Hs). unfold try_except.
  destruct (m s) as [[a|e] s1]; [done|by apply Hh].
Qed.

Lemma hoare_weaken {A} P P' (m : M S A) (Q Q' : A -> S -> Prop) R R' :
  hoare P' m Q' R' ->
  (forall s, P s -> P' s) -> (forall a s, Q' a s -> Q a s) ->
  (forall e s, R' e s -> R e s) ->
  hoare P m Q R.
Proof.
  intros Hm HP HQ HR s Hs. specialize (Hm s (HP s Hs)).
  destruct (m s) as [[a|e] s1]; auto.
Qed.

Lemma hoare_get P R : hoare P get (fun s0 s => s0 = s /\ P s) R.
Proof. intros s Hs. simpl. done. Qed.

Lemma hoare_lift {A} P (r : result A) R :
  hoare P (lift r) (fun a s => r = Ok a /\ P s) (fun e s => P s).
Proof. intros s Hs. unfold lift. destruct r; simpl; done. Qed.

Lemma hoare_modify P (f : S -> S) (Q : unit -> S -> Prop) R :
  (forall s, P s -> Q tt (f s)) -> hoare P (modify f) Q R.
Proof. intros Hf s Hs. simpl. by apply Hf. Qed.

Lemma preserves_ret {A} I (a : A) : preserves I (ret a).
Proof. intros s Hs. exact Hs. Qed.

Lemma preserves_raise {A} I e : preserves I (raise (A := A) e).
Proof. intros s Hs. exact Hs. Qed.

Lemma preserves_lift {A} I (r : result A) : preserves I (lift r).
Proof. intros s Hs. unfold lift. by destruct r. Qed.

Lemma preserves_get I : preserves I get.
Proof. intros s Hs. exact Hs. Qed.

Lemma preserves_bind {A B} I (m : M S A) (k : A -> M S B) :
  preserves I m -> (forall a, preserves I (k a)) -> preserves I (bind m k).
Proof. intros Hm Hk. by eapply hoare_bind. Qed.

Lemma preserves_try {A} I (m : M S A) (h : exn -> M S A) :
  preserves I m -> (forall e, preserves I (h e)) -> preserves I (try_except m h).
Proof. intros Hm Hh. by eapply hoare_try. Qed.

Lemma preserves_modify I (f : S -> S) :
  (forall s, I s -> I (f s)) -> preserves I (modify f).
Proof. intros Hf. by apply hoare_modify. Qed.
End HoareRules.

(** ** The log only grows *)

Create HintDb log_grows.

Ltac preserve_step :=
  lazymatch goal with
  | |- preserves _ (ret _) => exact (preserves_ret _ _)
  | |- preserves _ (raise _) => exact (preserves_raise _ _)
  | |- preserves _ (lift _) => exact (preserves_lift _ _)
  | |- preserves _ get => exact (preserves_get _)
  | |- preserves _ (bind _ _) => apply preserves_bind; [|intros ?]
  | |- preserves _ (try_except _ _) => apply preserves_try; [|intros ?]
  | |- preserves _ (match ?x with _ => _ end) => destruct x
  end.

Section LogGrows.
Context `{Collaborators} `{Rounding}.
Variable self : ColonyAnalyzer.
Variable entries : list (level * message).

#[local] Abbreviation holds_log := (Spec.holds_log entries).

Lemma log_logging lv m : preserves holds_log (logging lv m).
Proof.
  apply preserves_modify. intros s Hs. unfold Spec.holds_log, logged. simpl.
  by apply prefix_app_r.
Qed.

Lemma log_assign l d : preserves holds_log (assign l d).
Proof. apply preserves_modify. intros s Hs. exact Hs. Qed.

Lemma log_deref l : preserves holds_log (deref l).
Proof. unfold deref. repeat preserve_step. Qed.

Lemma log_new_dict : preserves holds_log new_dict.
Proof.
  unfold new_dict. repeat preserve_step.
  apply preserves_modify. intros s Hs. exact Hs.
Qed.

#[local] Hint Resolve log_logging log_assign log_deref log_new_dict : log_grows.

Ltac log_grows := repeat (preserve_step || solve [eauto with log_grows]).

Lemma log_contains l k : preserves holds_log (contains l k).
Proof. unfold contains. log_grows. Qed.

Lemma log_getitem l k : preserves holds_log (getitem l k).
Proof. unfold getitem. log_grows. Qed.

Lemma log_get_default l k v : preserves holds_log (get_default l k v).
Proof. unfold get_default. log_grows. Qed.

Lemma log_setitem l k v : preserves holds_log (setitem l k v).
Proof. unfold setitem. log_grows. Qed.

#[local] Hint Resolve log_contains log_getitem log_get_default log_setitem : log_grows.

Lemma log_setitem_value t k v : preserves holds_log (setitem_value t k v).
Proof. unfold setitem_value. log_grows. Qed.

Lemma log_update_value t new : preserves holds_log (update_value t new).
Proof. unfold update_value. log_grows. Qed.

Lemma log_truthy v : preserves holds_log (truthy v).
Proof. unfold truthy. log_grows. Qed.

Lemma log_below v c : preserves holds_log (below v c).
Proof. unfold below. log_grows. Qed.

Lemma log_join_value sep v : preserves holds_log (join_value sep v).
Proof. unfold join_value. log_grows. Qed.

#[local] Hint Resolve log_setitem_value log_update_value log_truthy log_below
  log_join_value : log_grows.

Lemma log_ensure_mapping c k : preserves holds_log (ensure_mapping c k).
Proof. unfold ensure_mapping. log_grows. Qed.

Lemma log_advanced c : preserves holds_log (_perform_advanced_analysis self c).
Proof. unfold _perform_advanced_analysis. log_grows. Qed.

Lemma log_extract_features c exts : preserves holds_log (extract_features c exts).
Proof. induction exts; simpl; log_grows. Qed.

Lemma log_check_quality c : preserves holds_log (check_quality c).
Proof. unfold check_quality. log_grows. Qed.

Lemma log_resolve c : preserves holds_log (resolve_cross_boundary c).
Proof. unfold resolve_cross_boundary. log_grows. Qed.

#[local] Hint Resolve log_ensure_mapping log_advanced log_extract_features
  log_check_quality log_resolve : log_grows.

Lemma log_run_pipeline c adv : preserves holds_log (run_pipeline self c adv).
Proof. unfold run_pipeline. log_grows. Qed.

#[local] Hint Resolve log_run_pipeline : log_grows.

Lemma log_analyze_colony c adv : preserves holds_log (analyze_colony self c adv).
Proof. unfold analyze_colony. log_grows. Qed.

#[local] Hint Resolve log_analyze_colony : log_grows.

Lemma log_analyze_each i colonies adv acc :
  preserves holds_log (analyze_each self i colonies adv acc).
Proof.
  revert i acc. induction colonies as [|c rest IH]; intros i acc; simpl; log_grows.
Qed.

End LogGrows.

Section Batch.
Context `{Collaborators} `{Rounding}.
Variable self : ColonyAnalyzer.

Ltac bind_inv Hrun :=
  repeat lazymatch type of Hrun with
         | bind _ _ _ = (Ok _, _) => apply bind_ok in Hrun as (? & ? & _ & Hrun)
         end.

Lemma analyze_colony_returns_self colony advanced s r s' :
  analyze_colony self colony advanced s = (Ok r, s') -> r = colony.
Proof.
  intros Hrun. unfold analyze_colony in Hrun. bind_inv Hrun.
  destruct (negb _ || negb _); bind_inv Hrun; by injection Hrun as <- _.
Qed.

(** One turn of the loop of [analyze]: the record goes to the output, whether
    its analysis returned or raised. *)
Lemma analyze_each_cons i colony rest advanced acc s :
  analyze_each self i (colony :: rest) advanced acc s
  = analyze_each self (S i) rest advanced (acc ++ [colony])
      match analyze_colony self colony advanced s with
      | (Ok _, s1) => s1
      | (Raise e, s1) => logged ERROR (AnalyzeFailed i e) s1
      end.
Proof.
  cbn [analyze_each]. unfold bind at 1. unfold try_except. unfold bind at 1.
  destruct (analyze_colony self colony advanced s) as [[r|e] s1] eqn:Hrun.
  - apply analyze_colony_returns_self in Hrun as ->. done.
  - done.
Qed.

Lemma analyze_each_returns colonies : forall i advanced acc s,
  (analyze_each self i colonies advanced acc s).1 = Ok (acc ++ colonies).
Proof.
  induction colonies as [|colony rest IH]; intros i advanced acc s.
  - simpl. by rewrite app_nil_r.
  - rewrite analyze_each_cons, IH, <- app_assoc. done.
Qed.

Lemma analyze_each_app pre : forall post i advanced acc s,
  analyze_each self i (pre ++ post) advanced acc s
  = analyze_each self (i + length pre) post advanced (acc ++ pre)
      (analyze_each self i pre advanced acc s).2.
Proof.
  induction pre as [|colony pre IH]; intros post i advanced acc s.
  - simpl. by rewrite Nat.add_0_r, app_nil_r.
  - rewrite <- app_comm_cons, !analyze_each_cons, IH.
    cbn [length]. rewrite <- app_assoc, Nat.add_succ_r. done.
Qed.

Lemma analyze_nonempty colonies advanced s :
  colonies <> [] ->
  analyze self colonies advanced s
  = (Ok colonies,
     logged INFO (Finished (length colonies))
       (analyze_each self 0 colonies advanced [] s).2).
Proof.
  intros Hne. destruct colonies as [|colony rest]; [done|].
  unfold analyze. unfold bind at 1.
  pose proof (analyze_each_returns (colony :: rest) 0%nat advanced [] s) as Hret.
  destruct (analyze_each self 0 (colony :: rest) advanced [] s) as [r s1].
  simpl in Hret. by subst r.
Qed.

(** Claim C2: for every sequence of colony records, [analyze] returns a
    sequence of the same length that holds, at each position, the record of
    that position of the input; on the empty sequence it returns the empty
    sequence, logs one warning and raises nothing. *)
Theorem analyze_keeps_length_and_order colonies advanced s :
  exists out s',
    analyze self colonies advanced s = (Ok out, s')
    /\ length out = length colonies
    /\ (forall i, out !! i = colonies !! i)
    /\ (colonies = [] -> out = [] /\ s' = logged WARNING NoColonies s).
Proof.
  destruct colonies as [|colony rest].
  - exists [], (logged WARNING NoColonies s). done.
  - rewrite analyze_nonempty by done. eexists _, _. done.
Qed.

(** Claim C1, amended: when [analyze_colony] raises at a record of a batch,
    [analyze] puts that same record object at the record's position, in the
    state in which [analyze_colony] left it (what was written to it before
    the raise stays), logs the error with the index of the record, and goes
    on with the remaining records; the whole batch comes back, and the final
    log holds the error entry. *)
Theorem analyze_isolates_failure pre colony post advanced s e s_e :
  analyze_colony self colony advanced
    (analyze_each self 0 pre advanced [] s).2 = (Raise e, s_e) ->
  let resumed := logged ERROR (AnalyzeFailed (length pre) e) s_e in
  let final :=
    (analyze_each self (S (length pre)) post advanced (pre ++ [colony]) resumed).2 in
  analyze self (pre ++ colony :: post) advanced s
  = (Ok (pre ++ colony :: post),
     logged INFO (Finished (length (pre ++ colony :: post))) final)
  /\ heap resumed = heap s_e
  /\ In (ERROR, AnalyzeFailed (length pre) e) (log final).
Proof.
  intros Hraise resumed final. split; [|split; [done|]].
  - rewrite analyze_nonempty by (by destruct pre).
    rewrite analyze_each_app, analyze_each_cons, Hraise. done.
  - pose proof (log_analyze_each self (log resumed) (S (length pre)) post advanced
                  (pre ++ [colony]) resumed) as Hlog.
    unfold preserves, hoare, holds_log in Hlog. specialize (Hlog (reflexivity _)).
    subst final.
    destruct (analyze_each self (S (length pre)) post advanced (pre ++ [colony])
                resumed) as [[r|e'] s1]; simpl;
      (destruct Hlog as [more ->]; apply in_or_app; left;
       apply in_or_app; right; by left).
Qed.

End Batch.

Section DictFacts.

Lemma dict_get_set_eq k v (d : list (list Z * value)) :
  dict_get k (dict_set k v d) = Some v.
Proof.
  induction d as [|[k' v'] d IH]; simpl.
  - by rewrite decide_True.
  - destruct (decide (k = k')) as [->|Hne]; simpl.
    + by rewrite decide_True.
    + by rewrite decide_False.
Qed.

Lemma dict_get_set_ne k k' v (d : list (list Z * value)) :
  k <> k' -> dict_get k' (dict_set k v d) = dict_get k' d.
Proof.
  intros Hne. induction d as [|[k0 v0] d IH]; simpl.
  - rewrite decide_False; [done|]. congruence.
  - destruct (decide (k = k0)) as [->|Hne0]; simpl.
    + rewrite !decide_False; [done|congruence|congruence].
    + destruct (decide (k' = k0)); done.
Qed.

Lemma dict_set_fresh k v (d : list (list Z * value)) :
  dict_get k d = None -> dict_set k v d = d ++ [(k, v)].
Proof.
  induction d as [|[k' v'] d IH]; simpl; [done|].
  destruct (decide (k = k')); [done|]. intros Hd. by rewrite IH.
Qed.

Lemma dict_get_app_ne k k' v (d : list (list Z * value)) :
  k <> k' -> dict_get k (d ++ [(k', v)]) = dict_get k d.
Proof.
  intros Hne. induction d as [|[k0 v0] d IH]; simpl.
  - by rewrite decide_False.
  - by destruct (decide (k = k0)).
Qed.

Lemma dict_get_app_new k v (d : list (list Z * value)) :
  dict_get k d = None -> dict_get k (d ++ [(k, v)]) = Some v.
Proof.
  induction d as [|[k0 v0] d IH]; simpl.
  - by rewrite decide_True.
  - destruct (decide (k = k0)); [done|]. apply IH.
Qed.

End DictFacts.

Section Primitives.

Lemma deref_at l d s : heap s !! l = Some d -> deref l s = (Ok d, s).
Proof. intros Hl. unfold deref, bind, get. by rewrite Hl. Qed.

Lemma contains_at l k d s :
  heap s !! l = Some d ->
  contains l k s = (Ok (bool_decide (is_Some (dict_get k d))), s).
Proof. intros Hl. unfold contains, bind. by rewrite (deref_at l d). Qed.

Lemma get_default_at l k dflt d s :
  heap s !! l = Some d ->
  get_default l k dflt s = (Ok (default dflt (dict_get k d)), s).
Proof. intros Hl. unfold get_default, bind. by rewrite (deref_at l d). Qed.

Lemma getitem_at l k d v s :
  heap s !! l = Some d -> dict_get k d = Some v -> getitem l k s = (Ok v, s).
Proof. intros Hl Hk. unfold getitem, bind. by rewrite (deref_at l d), Hk. Qed.

Lemma setitem_at l k v d s :
  heap s !! l = Some d ->
  setitem l k v s
  = (Ok tt, {| heap := <[l := dict_set k v d]> (heap s); log := log s |}).
Proof. intros Hl. unfold setitem, bind. by rewrite (deref_at l d). Qed.

(** A key that the record lacks gets a new, empty mapping, after all the
    record holds. *)
Lemma ensure_mapping_absent colony key d s :
  heap s !! colony = Some d -> dict_get key d = None ->
  ensure_mapping colony key s
  = (Ok tt,
     {| heap := <[colony := d ++ [(key, VDict (length (heap s)))]]> (heap s) ++ [[]];
        log := log s |}).
Proof.
  intros Hc Hk. unfold ensure_mapping. unfold bind at 1.
  rewrite (contains_at colony key d) by done. rewrite Hk.
  rewrite bool_decide_eq_false_2 by (by intros [? ?]).
  pose proof (lookup_lt_Some _ _ _ Hc) as Hlt.
  assert (heap {| heap := heap s ++ [[]]; log := log s |} !! colony = Some d)
    as Hc' by (simpl; by rewrite lookup_app_l).
  unfold new_dict. unfold bind, get, modify, ret. simpl.
  rewrite (setitem_at _ _ _ d) by exact Hc'. simpl.
  rewrite insert_app_l by done. by rewrite dict_set_fresh.
Qed.

End Primitives.

Section MissingData.
Context `{Collaborators} `{Rounding}.
Variable self : ColonyAnalyzer.

(** Claim C6: for every record that lacks [img] or [mask], and has no
    [features], [scores] or [phenotype] yet, [analyze_colony] returns the
    record, to which it has added three new, empty mappings under these
    keys; every other field is as it was, the other objects of the store are
    untouched, one warning is logged and nothing is raised. *)
Theorem analyze_colony_missing_data colony advanced s d :
  heap s !! colony = Some d ->
  dict_get (lit "img") d = None \/ dict_get (lit "mask") d = None ->
  dict_get (lit "features") d = None ->
  dict_get (lit "scores") d = None ->
  dict_get (lit "phenotype") d = None ->
  let n := length (heap s) in
  let d' := d ++ [(lit "features", VDict n); (lit "scores", VDict (S n));
                  (lit "phenotype", VDict (S (S n)))] in
  let s' := {| heap := <[colony := d']> (heap s) ++ [[]; []; []];
               log := log s ++
                 [(WARNING,
                   MissingData (default (VStr (lit "unknown"))
                                  (dict_get (lit "id") d)))] |} in
  analyze_colony self colony advanced s = (Ok colony, s')
  /\ heap s' !! colony = Some d'
  /\ heap s' !! n = Some [] /\ heap s' !! S n = Some []
  /\ heap s' !! S (S n) = Some []
  /\ (forall k v, dict_get k d = Some v -> dict_get k d' = Some v)
  /\ (forall l, l <> colony -> (l < n)%nat -> heap s' !! l = heap s !! l).
Proof.
  intros Hc Hmiss Hf Hs Hp n d' s'.
  pose proof (lookup_lt_Some _ _ _ Hc) as Hlt.
  assert (length (<[colony := d']> (heap s)) = n) as Hlen by apply length_insert.
  split; [|split; [|split; [|split; [|split; [|split]]]]].
  - unfold analyze_colony.
    unfold bind at 1. rewrite (ensure_mapping_absent _ _ d) by done.
    set (d1 := d ++ [(lit "features", VDict (length (heap s)))]).
    set (s1 := {| heap := <[colony := d1]> (heap s) ++ [[]]; log := log s |}).
    assert (heap s1 !! colony = Some d1) as Hc1.
    { simpl. rewrite lookup_app_l by (by rewrite length_insert).
      by apply list_lookup_insert_eq. }
    unfold bind at 1. rewrite (ensure_mapping_absent _ _ d1) by
      (try done; unfold d1; by rewrite dict_get_app_ne).
    set (d2 := d1 ++ [(lit "scores", VDict (length (heap s1)))]).
    set (s2 := {| heap := <[colony := d2]> (heap s1) ++ [[]]; log := log s1 |}).
    assert (heap s2 !! colony = Some d2) as Hc2.
    { simpl. rewrite lookup_app_l
        by (rewrite length_insert, length_app, length_insert; lia).
      apply list_lookup_insert_eq. rewrite length_app, length_insert. lia. }
    unfold bind at 1. rewrite (ensure_mapping_absent _ _ d2) by
      (try done; unfold d2, d1; by rewrite !dict_get_app_ne).
    set (d3 := d2 ++ [(lit "phenotype", VDict (length (heap s2)))]).
    set (s3 := {| heap := <[colony := d3]> (heap s2) ++ [[]]; log := log s2 |}).
    assert (heap s3 !! colony = Some d3) as Hc3.
    { simpl. rewrite lookup_app_l
        by (rewrite length_insert, !length_app, !length_insert, length_app,
              length_insert; lia).
      apply list_lookup_insert_eq.
      rewrite !length_app, !length_insert, length_app, length_insert. lia. }
    assert (d3 = d') as Hd3.
    { unfold d3, d2, d1, d'. simpl.
      rewrite !length_app, !length_insert, length_app, length_insert. simpl.
      fold n. rewrite <- !app_assoc. simpl.
      by replace (n + 1 + 1)%nat with (S (S n)) by lia;
         replace (n + 1)%nat with (S n) by lia. }
    assert (heap s3 = <[colony := d']> (heap s) ++ [[]; []; []]) as Hheap.
    { rewrite <- Hd3. simpl.
      rewrite !insert_app_l
        by (rewrite ?length_app, ?length_insert, ?length_app, ?length_insert; lia).
      rewrite !list_insert_insert_eq. by rewrite <- !app_assoc. }
    assert (forall k, k <> lit "features" -> k <> lit "scores" ->
              k <> lit "phenotype" -> dict_get k d3 = dict_get k d) as Hsame.
    { intros k ? ? ?. unfold d3, d2, d1. by rewrite !dict_get_app_ne. }
    unfold bind at 1. rewrite (contains_at _ _ d3) by done.
    unfold bind at 1. rewrite (contains_at _ _ d3) by done.
    rewrite !Hsame by done.
    assert (negb (bool_decide (is_Some (dict_get (lit "img") d)))
            || negb (bool_decide (is_Some (dict_get (lit "mask") d))) = true) as ->.
    { destruct Hmiss as [-> | ->].
      - rewrite bool_decide_eq_false_2 by (by intros [? ?]). done.
      - rewrite (bool_decide_eq_false_2 (is_Some None)) by (by intros [? ?]).
        apply orb_true_r. }
    unfold bind at 1. rewrite (get_default_at _ _ _ d3) by done.
    rewrite Hsame by done.
    unfold bind, logging, modify, ret, logged. rewrite Hheap. done.
  - simpl. rewrite lookup_app_l by lia. by apply list_lookup_insert_eq.
  - simpl. rewrite lookup_app_r by lia. by rewrite Hlen, Nat.sub_diag.
  - simpl. rewrite lookup_app_r by lia. rewrite Hlen.
    by replace (S n - n)%nat with 1%nat by lia.
  - simpl. rewrite lookup_app_r by lia. rewrite Hlen.
    by replace (S (S n) - n)%nat with 2%nat by lia.
  - intros k v Hk. unfold d'.
    assert (k <> lit "features") by (intros ->; congruence).
    assert (k <> lit "scores") by (intros ->; congruence).
    assert (k <> lit "phenotype") by (intros ->; congruence).
    change (d ++ _) with
      (d ++ [(lit "features", VDict n)] ++ [(lit "scores", VDict (S n))]
         ++ [(lit "phenotype", VDict (S (S n)))]).
    rewrite !app_assoc. by rewrite !dict_get_app_ne.
  - intros l Hl Hln. simpl. rewrite lookup_app_l by lia.
    by rewrite list_lookup_insert_ne.
Qed.

End MissingData.

Lemma analyze_colony_missing_data_witness :
  let s := store_of maskless_record in
  (analyze_colony (H := working_collaborators) front_analyzer 0 false s).1 = Ok 0%nat
  /\ heap (analyze_colony (H := working_collaborators) front_analyzer 0 false s).2
     = [maskless_record ++ [(lit "features", VDict 1); (lit "scores", VDict 2);
                            (lit "phenotype", VDict 3)]; []; []; []].
Proof.
  pose proof (analyze_colony_missing_data (H := working_collaborators)
                front_analyzer 0 false (store_of maskless_record) maskless_record
                eq_refl (or_intror eq_refl) eq_refl eq_refl eq_refl) as [Hrun _].
  intros s. subst s. rewrite Hrun. split; reflexivity.
Defined.

(** Claim C1 as stated fails: the record that [analyze] returns for a
    failed analysis is not as it was before the analysis started. *)
Lemma analyze_returns_record_as_left :
  let s := store_of detected_record in
  let run := analyze (H := failing_aerial_extractor) front_analyzer [0%nat] false s in
  (analyze_colony (H := failing_aerial_extractor) front_analyzer 0 false s).1
    = Raise (Other 1)
  /\ run.1 = Ok [0%nat]
  /\ heap s !! 0%nat = Some detected_record
  /\ heap run.2 !! 0%nat
     = Some (detected_record ++
               [(lit "features", VDict 1); (lit "scores", VDict 2);
                (lit "phenotype", VDict 3)])
  /\ heap run.2 !! 1%nat = Some [(lit "area", VInt 5)]
  /\ heap run.2 !! 0%nat <> heap s !! 0%nat.
Proof. vm_compute. repeat split. discriminate. Qed.

Lemma analyze_isolates_failure_witness :
  let s := {| heap := [detected_record; maskless_record]; log := [] |} in
  let run := analyze (H := failing_aerial_extractor) front_analyzer [0%nat; 1%nat] false s in
  run.1 = Ok [0%nat; 1%nat]
  /\ In (ERROR, AnalyzeFailed 0 (Other 1)) (log run.2)
  /\ In (WARNING, MissingData (VInt 7)) (log run.2).
Proof.
  intros s run.
  assert (exists s_e,
            analyze_colony (H := failing_aerial_extractor) front_analyzer 0 false
              (analyze_each (H := failing_aerial_extractor) front_analyzer 0 []
                 false [] s).2 = (Raise (Other 1), s_e)) as [s_e Hraise]
    by (eexists; vm_compute; reflexivity).
  destruct (analyze_isolates_failure (H := failing_aerial_extractor)
              front_analyzer [] 0%nat [1%nat] false s (Other 1) s_e Hraise)
    as (Hrun & _ & Hlog).
  subst run. simpl app in Hrun. rewrite Hrun. split; [done|]. split.
  - simpl. apply in_or_app. by left.
  - vm_compute in Hraise. injection Hraise as <-. vm_compute. tauto.
Defined.

(** Claim C7, the code at the failing input: on a record of quality 0.25
    that carries no [id], the quality check raises [KeyError], although the
    missing-data warning reads the same field with a default. *)
Theorem quality_check_raises_without_id :
  let s := store_of anonymous_low_quality_record in
  (analyze_colony (H := working_collaborators) front_analyzer 0 false s).1
    = Raise (KeyError (lit "id"))
  /\ (check_quality 0 s).1 = Raise (KeyError (lit "id"))
  /\ (get_default 0 (lit "id") (VStr (lit "unknown")) s).1 = Ok (VStr (lit "unknown")).
Proof. vm_compute. done. Qed.

Lemma hoare_ok {S A} (P : S -> Prop) (m : M S A) Q R s a s' :
  hoare P m Q R -> P s -> m s = (Ok a, s') -> Q a s'.
Proof. intros Hm Hs Hrun. specialize (Hm s Hs). by rewrite Hrun in Hm. Qed.

(** Unfolds the primitives of the store at the head of a run. *)
Ltac run :=
  cbv beta iota delta
    [bind ret raise get modify lift deref assign new_dict contains getitem
     get_default setitem logging].

Lemma preserves_ok {S A} (I : S -> Prop) (m : M S A) s a s' :
  preserves I m -> I s -> m s = (Ok a, s') -> I s'.
Proof. intros Hm Hs Hrun. specialize (Hm s Hs). by rewrite Hrun in Hm. Qed.

Section ReadOnly.
Context {A : Type}.

Lemma readonly_preserves (I : state -> Prop) (m : M state A) :
  readonly m -> preserves I m.
Proof.
  intros Hro s Hs. specialize (Hro s). destruct (m s) as [[a|e] s']; simpl in Hro;
    by subst.
Qed.
End ReadOnly.

Lemma readonly_deref l : readonly (deref l).
Proof. intros s. run. by destruct (heap s !! l). Qed.

Lemma readonly_bind_deref {A} l (k : list (list Z * value) -> M state A) :
  (forall d, readonly (k d)) -> readonly (bind (deref l) k).
Proof.
  intros Hk s. unfold bind. pose proof (readonly_deref l s) as Hd.
  destruct (deref l s) as [[d|e] s1]; simpl in Hd; subst; [apply Hk|done].
Qed.

Lemma readonly_contains l k : readonly (contains l k).
Proof. apply readonly_bind_deref. by intros d st. Qed.

Lemma readonly_getitem l k : readonly (getitem l k).
Proof. apply readonly_bind_deref. intros d st. by destruct (dict_get k d). Qed.

Lemma readonly_get_default l k v : readonly (get_default l k v).
Proof. apply readonly_bind_deref. by intros d st. Qed.

Lemma readonly_truthy v : readonly (truthy v).
Proof.
  destruct v; try (by intros st); simpl.
  apply readonly_bind_deref. by intros d st.
Qed.

Lemma readonly_below v c : readonly (below v c).
Proof. destruct v; by intros st. Qed.

Section Frame.
Context `{Collaborators} `{Rounding}.
Variable self : ColonyAnalyzer.
Variable c : nat.

Lemma getitem_inv k s v s' :
  getitem c k s = (Ok v, s') ->
  s' = s /\ exists d, heap s !! c = Some d /\ dict_get k d = Some v.
Proof.
  cbv beta iota delta [getitem bind deref get raise ret].
  destruct (heap s !! c) as [d|]; [|intros [=]].
  destruct (dict_get k d) as [v'|] eqn:Hk; [|intros [=]].
  intros [= <- <-]. eauto.
Qed.

(** ** Writes that leave the record as it is *)

Lemma record_new_dict d :
  hoare (record_is c d) new_dict
    (fun l s => record_is c d s /\ l <> c /\ (l < length (heap s))%nat)
    (fun _ => record_is c d).
Proof.
  intros s [Hc Hself]. run. cbn [heap log].
  pose proof (lookup_lt_Some _ _ _ Hc) as Hlt.
  split; [split|split].
  - simpl. by rewrite lookup_app_l.
  - intros k l Hin Hk. destruct (Hself k l Hin Hk). simpl. rewrite length_app.
    simpl. split; [done|lia].
  - lia.
  - rewrite length_app. simpl. lia.
Qed.

Lemma record_assign_other d l dl s :
  record_is c d s -> l <> c ->
  record_is c d {| heap := <[l := dl]> (heap s); log := log s |}.
Proof.
  intros [Hc Hself] Hl. split; simpl.
  - by rewrite list_lookup_insert_ne.
  - intros k l' Hin Hk. simpl. rewrite length_insert. by apply (Hself k).
Qed.

Lemma record_setitem_value d target k v :
  hoare (fun s => record_is c d s /\ safe c target s) (setitem_value target k v)
    (fun _ => record_is c d) (fun _ => record_is c d).
Proof.
  intros s [Hrec Hsafe]. destruct target; simpl; try exact Hrec.
  destruct (Hsafe l eq_refl) as [Hl Hlt]. run.
  destruct (heap s !! l) as [dl|]; [|exact Hrec].
  by apply record_assign_other.
Qed.

Lemma record_update_value d target new :
  hoare (fun s => record_is c d s /\ safe c target s) (update_value target new)
    (fun _ s => record_is c d s /\ exists l, target = VDict l)
    (fun _ => record_is c d).
Proof.
  intros s [Hrec Hsafe]. destruct target; simpl; try exact Hrec.
  destruct (Hsafe l eq_refl) as [Hl Hlt]. run.
  destruct (heap s !! l) as [dl|]; [|exact Hrec].
  split; [by apply record_assign_other|eauto].
Qed.

(** ** A write to the record *)

Lemma record_setitem d k v :
  hoare (fun s => record_is c d s /\ safe c v s) (setitem c k v)
    (fun _ => record_is c (dict_set k v d)) (fun _ _ => False).
Proof.
  intros s [[Hc Hself] Hsafe]. rewrite (setitem_at _ _ _ d) by done.
  pose proof (lookup_lt_Some _ _ _ Hc) as Hlt.
  split; simpl.
  - by apply list_lookup_insert_eq.
  - intros k' l Hin. simpl. rewrite length_insert.
    destruct (decide (k = k')) as [<-|Hne].
    + rewrite dict_get_set_eq. intros [= ->]. by apply Hsafe.
    + rewrite dict_get_set_ne by done. by apply Hself.
Qed.

(** ** The steps of the pipeline keep to their keys *)

Section Keys.
Variable ks : list (list Z).
Variable d0 : list (list Z * value).

#[local] Abbreviation I := (touched_only c ks d0).

Lemma touched_getitem k :
  In k mapping_keys ->
  hoare I (getitem c k) (fun v s => I s /\ safe c v s) (fun _ => I).
Proof.
  intros Hin s Hs. pose proof (readonly_getitem c k s) as Hro.
  destruct (getitem c k s) as [[v|e] s'] eqn:Hrun; simpl in Hro; subst s';
    [|done].
  split; [done|].
  apply getitem_inv in Hrun as (_ & d & Hc & Hk).
  destruct Hs as (d' & [Hc' Hself] & _). rewrite Hc in Hc'. injection Hc' as <-.
  intros l ->. by apply (Hself k).
Qed.

Lemma touched_setitem_value target k v :
  hoare (fun s => I s /\ safe c target s) (setitem_value target k v)
    (fun _ => I) (fun _ => I).
Proof.
  intros s [(d & Hrec & Hsame) Hsafe].
  pose proof (record_setitem_value d target k v s (conj Hrec Hsafe)) as Hw.
  destruct (setitem_value target k v s) as [[[]|e] s']; by exists d.
Qed.

Lemma touched_update_value target new :
  hoare (fun s => I s /\ safe c target s) (update_value target new)
    (fun _ => I) (fun _ => I).
Proof.
  intros s [(d & Hrec & Hsame) Hsafe].
  pose proof (record_update_value d target new s (conj Hrec Hsafe)) as Hw.
  destruct (update_value target new s) as [[[]|e] s']; exists d; [|done].
  by destruct Hw.
Qed.

Lemma touched_logging lv m : preserves I (logging lv m).
Proof.
  apply preserves_modify. intros s (d & [Hc Hself] & Hsame). by exists d.
Qed.

Lemma touched_fresh_mapping k :
  In k ks ->
  preserves I (fresh <~ new_dict ;; setitem c k (VDict fresh)).
Proof.
  intros Hin s (d & Hrec & Hsame). unfold bind.
  pose proof (record_new_dict d s Hrec) as Hn.
  destruct (new_dict s) as [[l|e] s1]; [|by exists d].
  destruct Hn as (Hrec1 & Hl & Hlt).
  assert (safe c (VDict l) s1) as Hsafe by (by intros ? [= <-]).
  pose proof (record_setitem d k (VDict l) s1 (conj Hrec1 Hsafe)) as Hw.
  destruct (setitem c k (VDict l) s1) as [[[]|e] s2]; [|done].
  exists (dict_set k (VDict l) d). split; [done|].
  intros k' Hk'. rewrite dict_get_set_ne; [by apply Hsame|].
  intros ->. done.
Qed.

Lemma touched_ensure_mapping k : In k ks -> preserves I (ensure_mapping c k).
Proof.
  intros Hin. unfold ensure_mapping. apply preserves_bind.
  - apply readonly_preserves, readonly_contains.
  - intros [|]; [apply preserves_ret|by apply touched_fresh_mapping].
Qed.

Lemma touched_extract_features exts : preserves I (extract_features c exts).
Proof.
  induction exts as [|t exts IH]; simpl; [apply preserves_ret|].
  apply preserves_bind; [apply readonly_preserves, readonly_getitem|intros img].
  apply preserves_bind; [apply readonly_preserves, readonly_getitem|intros mask].
  apply preserves_bind; [apply preserves_get|intros s0].
  apply preserves_bind; [apply preserves_lift|intros features].
  eapply hoare_bind; [apply touched_getitem; simpl; tauto|intros target].
  eapply hoare_bind; [apply touched_update_value|intros ?]. exact IH.
Qed.

Lemma touched_advanced :
  In (lit "advanced_masks") ks -> preserves I (_perform_advanced_analysis self c).
Proof.
  intros Hin. unfold _perform_advanced_analysis.
  apply preserves_try; [|intros e; apply touched_logging].
  apply preserves_bind.
  { destruct (sam_model self); [apply preserves_ret|apply preserves_raise]. }
  intros method.
  apply preserves_bind; [apply readonly_preserves, readonly_getitem|intros img].
  apply preserves_bind; [apply readonly_preserves, readonly_getitem|intros mask].
  apply preserves_bind; [apply preserves_lift|intros diffusion_mask].
  apply preserves_bind; [apply readonly_preserves, readonly_contains|intros present].
  apply preserves_bind.
  { destruct present; [apply preserves_ret|by apply touched_fresh_mapping]. }
  intros ?.
  eapply hoare_bind; [apply touched_getitem; simpl; tauto|intros target].
  eapply hoare_bind; [apply touched_setitem_value|intros ?].
  apply preserves_bind; [apply preserves_lift|intros diffusion_area].
  apply preserves_bind; [apply readonly_preserves, readonly_getitem|intros mask'].
  apply preserves_bind; [apply preserves_lift|intros colony_area].
  eapply hoare_bind; [apply touched_getitem; simpl; tauto|intros features].
  apply touched_setitem_value.
Qed.

Lemma touched_check_quality : preserves I (check_quality c).
Proof.
  unfold check_quality.
  apply preserves_bind; [apply readonly_preserves, readonly_get_default|intros q].
  apply preserves_bind; [apply readonly_preserves, readonly_below|intros low].
  destruct low; [|apply preserves_ret].
  apply preserves_bind; [apply readonly_preserves, readonly_getitem|intros id].
  apply touched_logging.
Qed.

End Keys.
End Frame.

Section CrossBoundary.
Context `{Collaborators} `{Rounding}.
Variable self : ColonyAnalyzer.
Variable c : nat.

Lemma touched_pipeline_tail ks d0 advanced :
  In (lit "advanced_masks") ks ->
  preserves (touched_only c ks d0) (pipeline_tail self c advanced).
Proof.
  intros Hin. unfold pipeline_tail. apply preserves_bind.
  - destruct (advanced && _); [by apply touched_advanced|apply preserves_ret].
  - intros ?. apply touched_check_quality.
Qed.

Lemma run_pipeline_inv advanced s3 s7 :
  run_pipeline self c advanced s3 = (Ok tt, s7) ->
  exists s4 scores_target scores s5 target phenotype s6,
    extract_features c (feature_extractors self) s3 = (Ok tt, s4)
    /\ getitem c (lit "scores") s4 = (Ok scores_target, s4)
    /\ update_value scores_target scores s4 = (Ok tt, s5)
    /\ getitem c (lit "phenotype") s5 = (Ok target, s5)
    /\ update_value target phenotype s5 = (Ok tt, s6)
    /\ pipeline_tail self c advanced s6 = (Ok tt, s7).
Proof.
  unfold run_pipeline. intros Hrun.
  apply bind_ok in Hrun as ([] & s4 & Hextract & Hrun).
  apply bind_ok in Hrun as (features & s4a & Hf & Hrun).
  apply getitem_inv in Hf as [-> _].
  apply bind_ok in Hrun as (s4b & s4c & [= <- <-] & Hrun).
  apply bind_ok in Hrun as (scores & s4d & Hs & Hrun).
  unfold lift in Hs. injection Hs as _ <-.
  apply bind_ok in Hrun as (scores_target & s4e & Hst & Hrun).
  pose proof Hst as [-> _]%getitem_inv.
  apply bind_ok in Hrun as ([] & s5 & Hupd & Hrun).
  apply bind_ok in Hrun as (features' & s5a & Hf' & Hrun).
  apply getitem_inv in Hf' as [-> _].
  apply bind_ok in Hrun as (s5b & s5c & [= <- <-] & Hrun).
  apply bind_ok in Hrun as (phenotype & s5d & Hp & Hrun).
  unfold lift in Hp. injection Hp as _ <-.
  apply bind_ok in Hrun as (target & s5e & Hpt & Hrun).
  pose proof Hpt as [-> _]%getitem_inv.
  apply bind_ok in Hrun as ([] & s6 & Hupd' & Hrun).
  exists s4, scores_target, scores, s5, target, phenotype, s6. done.
Qed.

Lemma strings_of_strs (ws : list (list Z)) : strings_of (VStr <$> ws) = Ok ws.
Proof.
  induction ws as [|w ws IH]; [done|].
  change (strings_of (VStr <$> w :: ws))
    with (match strings_of (VStr <$> ws) with
          | Ok ss => Ok (w :: ss)
          | Raise e => Raise e
          end).
  by rewrite IH.
Qed.

(** The last step, run on a record that crosses a boundary. *)
Lemma resolve_cross_boundary_at s d lp p (wells : option (list (list Z))) :
  heap s !! c = Some d ->
  dict_get (lit "cross_boundary") d = Some (VBool true) ->
  dict_get (lit "overlapping_wells") d = (fun ws => VList (VStr <$> ws)) <$> wells ->
  dict_get (lit "phenotype") d = Some (VDict lp) ->
  lp <> c -> heap s !! lp = Some p ->
  let text := match wells with
              | Some (w :: ws) => join (lit ", ") (w :: ws)
              | _ => lit "none"
              end in
  resolve_cross_boundary c s
  = (Ok tt,
     {| heap := <[lp := dict_set (lit "affected_wells") (VStr text)
                          (dict_set (lit "special_case")
                             (VStr (lit "cross_boundary")) p)]> (heap s);
        log := log s |}).
Proof.
  intros Hc Hcb Hwells Hph Hlp Hp text.
  pose proof (lookup_lt_Some _ _ _ Hp) as Hlt.
  unfold resolve_cross_boundary.
  unfold bind at 1. rewrite (get_default_at _ _ _ d) by done. rewrite Hcb.
  unfold bind at 1. cbn [default from_option id truthy ret].
  unfold bind at 1. rewrite (getitem_at _ _ d (VDict lp)) by done.
  unfold bind at 1. cbn [setitem_value]. rewrite (setitem_at _ _ _ p) by done.
  set (p1 := dict_set (lit "special_case") (VStr (lit "cross_boundary")) p).
  set (s1 := {| heap := <[lp := p1]> (heap s); log := log s |}).
  assert (heap s1 !! c = Some d) as Hc1 by (simpl; by rewrite list_lookup_insert_ne).
  assert (heap s1 !! lp = Some p1) as Hp1 by (simpl; by apply list_lookup_insert_eq).
  unfold bind at 1. rewrite (get_default_at _ _ _ d) by done. rewrite Hwells.
  assert (forall txt : list Z,
            (phenotype <~ getitem c (lit "phenotype") ;;
             setitem_value phenotype (lit "affected_wells") (VStr txt)) s1
            = (Ok tt, {| heap := <[lp := dict_set (lit "affected_wells") (VStr txt) p1]>
                                   (heap s);
                         log := log s |})) as Hlast.
  { intros txt. unfold bind at 1. rewrite (getitem_at _ _ d (VDict lp)) by done.
    cbn [setitem_value]. rewrite (setitem_at _ _ _ p1) by done. simpl.
    by rewrite list_insert_insert_eq. }
  destruct wells as [[|w ws]|]; cbn [fmap option_fmap option_map default from_option id].
  - unfold bind at 1. cbn [truthy ret fmap list_fmap].
    rewrite bool_decide_eq_true_2 by done. cbn [negb].
    unfold bind at 1. cbn [ret]. by apply Hlast.
  - unfold bind at 1. cbn [truthy ret fmap list_fmap].
    rewrite bool_decide_eq_false_2 by done. cbn [negb].
    unfold bind at 1. unfold join_value. unfold bind at 1. unfold lift.
    change (VStr w :: list_fmap _ _ VStr ws) with (VStr <$> (w :: ws)).
    rewrite strings_of_strs. cbn [ret]. by apply Hlast.
  - unfold bind at 1. cbn [truthy ret].
    rewrite bool_decide_eq_true_2 by done. cbn [negb].
    unfold bind at 1. cbn [ret]. by apply Hlast.
Qed.

(** Claim C5: for every record that holds [img] and [mask], whose
    [cross_boundary] is true, whose [overlapping_wells] is absent or a
    sequence of strings, and none of whose mappings ([features], [scores],
    [phenotype], [advanced_masks]) is the record itself: when the pipeline
    reaches the last step, [analyze_colony] returns the record with
    [phenotype["special_case"]] equal to ["cross_boundary"] and
    [phenotype["affected_wells"]] equal to the wells joined by [", "], or to
    ["none"] when there are none. *)
Theorem cross_boundary_resolution advanced s d s7 (wells : option (list (list Z))) :
  heap s !! c = Some d ->
  selfless c d s ->
  is_Some (dict_get (lit "img") d) ->
  is_Some (dict_get (lit "mask") d) ->
  dict_get (lit "cross_boundary") d = Some (VBool true) ->
  dict_get (lit "overlapping_wells") d = (fun ws => VList (VStr <$> ws)) <$> wells ->
  until_last_step self c advanced s = (Ok tt, s7) ->
  exists s' d' lp p,
    analyze_colony self c advanced s = (Ok c, s')
    /\ heap s' !! c = Some d'
    /\ dict_get (lit "phenotype") d' = Some (VDict lp)
    /\ heap s' !! lp = Some p
    /\ dict_get (lit "special_case") p = Some (VStr (lit "cross_boundary"))
    /\ dict_get (lit "affected_wells") p
       = Some (VStr match wells with
                    | Some (w :: ws) => join (lit ", ") (w :: ws)
                    | _ => lit "none"
                    end).
Proof.
  intros Hc Hself Himg Hmask Hcb Hwells Hrun.
  set (ks := [lit "features"; lit "scores"; lit "phenotype"; lit "advanced_masks"]).
  assert (touched_only c ks d s) as K0 by (exists d; done).
  unfold until_last_step in Hrun.
  apply bind_ok in Hrun as ([] & s1 & He1 & Hrun).
  apply bind_ok in Hrun as ([] & s2 & He2 & Hrun).
  apply bind_ok in Hrun as ([] & s3 & He3 & Hrun).
  assert (touched_only c ks d s1) as K1.
  { refine (preserves_ok _ _ _ _ _ (touched_ensure_mapping c ks d _ _) K0 He1).
    simpl. tauto. }
  assert (touched_only c ks d s2) as K2.
  { refine (preserves_ok _ _ _ _ _ (touched_ensure_mapping c ks d _ _) K1 He2).
    simpl. tauto. }
  assert (touched_only c ks d s3) as K3.
  { refine (preserves_ok _ _ _ _ _ (touched_ensure_mapping c ks d _ _) K2 He3).
    simpl. tauto. }
  pose proof Hrun as
    (s4 & st & scores & s5 & target & ph & s6 & Hx & Hst & Hus & Hpt & Hup & Htail)
      %run_pipeline_inv.
  assert (touched_only c ks d s4) as K4
    by exact (preserves_ok _ _ _ _ _ (touched_extract_features c ks d _) K3 Hx).
  assert (touched_only c ks d s5) as K5.
  { pose proof (hoare_ok _ _ _ _ _ _ _ (touched_getitem c ks d (lit "scores")
                                    ltac:(unfold mapping_keys; simpl; tauto)) K4 Hst) as [_ Hsafe].
    exact (hoare_ok _ _ _ _ _ _ _ (touched_update_value c ks d st scores)
             (conj K4 Hsafe) Hus). }
  (* the phenotype mapping, once merged, stays where it is *)
  pose proof (hoare_ok _ _ _ _ _ _ _ (touched_getitem c ks d (lit "phenotype")
                                  ltac:(unfold mapping_keys; simpl; tauto)) K5 Hpt) as [_ Hsafe].
  apply getitem_inv in Hpt as (_ & d5 & Hc5 & Hph5).
  destruct K5 as (d5' & [Hc5' Hself5] & Hsame5).
  rewrite Hc5 in Hc5'. injection Hc5' as <-.
  pose proof (hoare_ok _ _ _ _ _ _ _ (record_update_value c d5 target ph)
                (conj (conj Hc5 Hself5) Hsafe) Hup) as [Hrec6 [lp ->]].
  assert (touched_only c [lit "advanced_masks"] d5 s7) as (d7 & [Hc7 Hself7] & Hsame7).
  { refine (preserves_ok _ _ _ _ _
              (touched_pipeline_tail [lit "advanced_masks"] d5 advanced _) _ Htail).
    - simpl. tauto.
    - by exists d5. }
  assert (forall k, ~ In k ks -> dict_get k d7 = dict_get k d) as Hkeep.
  { intros k Hk. rewrite Hsame7, Hsame5; [done|done|].
    intros [<-|[]]. apply Hk. simpl. tauto. }
  assert (dict_get (lit "phenotype") d7 = Some (VDict lp)) as Hph7.
  { rewrite Hsame7; [done|]. by intros [[=]|[]]. }
  destruct (Hself7 (lit "phenotype") lp ltac:(unfold mapping_keys; simpl; tauto) Hph7)
    as [Hlp Hlt].
  destruct (lookup_lt_is_Some_2 _ _ Hlt) as [p Hp].
  assert (dict_get (lit "cross_boundary") d7 = Some (VBool true)) as Hcb7.
  { rewrite Hkeep; [done|]. simpl. by intros [[=]|[[=]|[[=]|[[=]|[]]]]]. }
  assert (dict_get (lit "overlapping_wells") d7
          = (fun ws => VList (VStr <$> ws)) <$> wells) as Hw7.
  { rewrite Hkeep; [done|]. simpl. by intros [[=]|[[=]|[[=]|[[=]|[]]]]]. }
  pose proof (resolve_cross_boundary_at s7 d7 lp p wells Hc7 Hcb7 Hw7 Hph7 Hlp Hp)
    as Hres. simpl in Hres.
  (* the run of [analyze_colony] *)
  destruct K3 as (d3 & [Hc3 _] & Hsame3).
  assert (contains c (lit "img") s3 = (Ok true, s3)) as Hci.
  { rewrite (contains_at _ _ d3) by done. rewrite Hsame3.
    - by rewrite bool_decide_eq_true_2.
    - simpl. by intros [[=]|[[=]|[[=]|[[=]|[]]]]]. }
  assert (contains c (lit "mask") s3 = (Ok true, s3)) as Hcm.
  { rewrite (contains_at _ _ d3) by done. rewrite Hsame3.
    - by rewrite bool_decide_eq_true_2.
    - simpl. by intros [[=]|[[=]|[[=]|[[=]|[]]]]]. }
  eexists _, _, lp, _. split; [|split; [|split; [|split]]].
  - unfold analyze_colony.
    unfold bind at 1. rewrite He1. unfold bind at 1. rewrite He2.
    unfold bind at 1. rewrite He3. unfold bind at 1. rewrite Hci.
    unfold bind at 1. rewrite Hcm. cbn [negb orb].
    unfold bind at 1. rewrite Hrun. unfold bind at 1. rewrite Hres.
    reflexivity.
  - simpl. rewrite list_lookup_insert_ne by done. exact Hc7.
  - exact Hph7.
  - simpl. by apply list_lookup_insert_eq.
  - split.
    + rewrite dict_get_set_ne by done. apply dict_get_set_eq.
    + apply dict_get_set_eq.
Qed.

End CrossBoundary.

(** A record that holds no mapping yet. *)
Lemma selfless_without_mappings c (d : list (list Z * value)) s :
  Forall (fun kv => forall l, kv.2 <> VDict l) d -> selfless c d s.
Proof.
  intros Hd k l _. induction Hd as [|[k' v] d Hv _ IH]; simpl; [done|].
  destruct (decide (k = k')); [|exact IH].
  intros [= ->]. by destruct (Hv l).
Qed.

Lemma cross_boundary_resolution_witness :
  exists s' d' lp p,
    analyze_colony (H := working_collaborators) front_analyzer 0 false
      (store_of crossing_record) = (Ok 0%nat, s')
    /\ heap s' !! 0%nat = Some d'
    /\ dict_get (lit "phenotype") d' = Some (VDict lp)
    /\ heap s' !! lp = Some p
    /\ dict_get (lit "special_case") p = Some (VStr (lit "cross_boundary"))
    /\ dict_get (lit "affected_wells") p = Some (VStr (lit "A1, A2")).
Proof.
  assert (exists s7,
            until_last_step (H := working_collaborators) front_analyzer 0 false
              (store_of crossing_record) = (Ok tt, s7)) as [s7 Hrun]
    by (eexists; vm_compute; reflexivity).
  apply (cross_boundary_resolution (H := working_collaborators) front_analyzer 0
           false (store_of crossing_record) crossing_record s7
           (Some [lit "A1"; lit "A2"])).
  - reflexivity.
  - apply selfless_without_mappings. repeat constructor; intros l; discriminate.
  - by eexists.
  - by eexists.
  - reflexivity.
  - reflexivity.
  - exact Hrun.
Defined.

(* ====================================================================== *)
(** * More of the code *)
(* ====================================================================== *)

(** ** More on the diffusion zone *)

Section Reach.





Lemma astype_uint8_binary (g : list (list Z)) : binary g -> astype_uint8 g = g.
Proof.
  unfold binary, astype_uint8. induction 1 as [|row g Hrow _ IH]; simpl; [done|].
  rewrite IH. f_equal. clear IH.
  induction Hrow as [|v row Hv _ IH]; simpl; [done|].
  rewrite IH. f_equal. destruct Hv as [-> | ->]; done.
Qed.

Lemma iter_monotone (g : list (list Z)) (m n : nat) (y x : Z) :
  (m <= n)%nat ->
  px (Nat.iter m dilate3x3 g) y x <= px (Nat.iter n dilate3x3 g) y x.
Proof.
  intros Hmn. replace n with ((n - m) + m)%nat by lia.
  rewrite Nat.iter_add. apply iter_extensive.
Qed.

Lemma reach_monotone (e1 e2 : Z) : e1 <= e2 -> reach e1 <= reach e2.
Proof.
  intros He. unfold reach.
  assert (e1 / 3 <= e2 / 3) by (apply Z.div_le_mono; lia). lia.
Qed.

Lemma foldr_max_one (l : list Z) :
  Forall (fun v => 0 <= v <= 1) l ->
  foldr Z.max 0 l = 1 <-> Exists (fun v => v = 1) l.
Proof.
  induction 1 as [|v l Hv Hl IH]; simpl.
  - split; [done|]. by intros ?%Exists_nil.
  - rewrite Exists_cons.
    pose proof (foldr_max_range l 1 ltac:(lia)
                  (Forall_impl _ _ _ Hl (fun v Hv => proj2 Hv))) as Hr.
    split.
    + intros Hmax. destruct (decide (v = 1)); [by left|right].
      apply IH. lia.
    + intros [-> | Hex%IH]; lia.
Qed.

Lemma neighbourhood_one (g : list (list Z)) (y x : Z) :
  (forall y' x', 0 <= px g y' x' <= 1) ->
  neighbourhood_max g y x = 1 <->
  exists dy dx, -1 <= dy <= 1 /\ -1 <= dx <= 1 /\ px g (y + dy) (x + dx) = 1.
Proof.
  intros Hg. unfold neighbourhood_max. rewrite foldr_max_one.
  - cbn. rewrite !Exists_cons, Exists_nil. split.
    + intros H.
      repeat (destruct H as [H|H];
              [eexists _, _; split; [|split; [|exact H]]; lia|]).
      done.
    + intros (dy & dx & Hdy & Hdx & Hpx).
      assert (dy = -1 \/ dy = 0 \/ dy = 1) as [-> | [-> | ->]] by lia;
        assert (dx = -1 \/ dx = 0 \/ dx = 1) as [-> | [-> | ->]] by lia;
        tauto.
  - cbn. repeat constructor; apply Hg.
Qed.

Lemma inside_rectangular (g : list (list Z)) (w : nat) (i j : nat) :
  rectangular g w ->
  is_Some (g !! i ≫= (.!! j)) <-> (i < length g)%nat /\ (j < w)%nat.
Proof.
  intros Hrect. unfold rectangular in Hrect. rewrite Forall_lookup in Hrect.
  split.
  - intros [v Hv]. destruct (g !! i) as [row|] eqn:Hrow; simpl in Hv; [|done].
    split; [by eapply lookup_lt_Some|].
    rewrite <- (Hrect _ _ Hrow). by eapply lookup_lt_Some.
  - intros [Hi Hj]. destruct (lookup_lt_is_Some_2 g i Hi) as [row Hrow].
    rewrite Hrow. simpl. apply lookup_lt_is_Some_2.
    by rewrite (Hrect _ _ Hrow).
Qed.

Lemma px_dilate3x3 (g : list (list Z)) (y x : Z) :
  px (dilate3x3 g) y x
  = if bool_decide (0 <= y /\ 0 <= x
                    /\ is_Some (g !! Z.to_nat y ≫= (.!! Z.to_nat x)))
    then neighbourhood_max g y x else 0.
Proof.
  destruct (Z.lt_ge_cases y 0) as [?|Hy];
    [rewrite px_outside, bool_decide_eq_false_2 by lia; done|].
  destruct (Z.lt_ge_cases x 0) as [?|Hx];
    [rewrite px_outside, bool_decide_eq_false_2 by lia; done|].
  rewrite <- (Z2Nat.id y) at 1 by done. rewrite <- (Z2Nat.id x) at 1 by done.
  rewrite px_nat, cell_dilate3x3, !Z2Nat.id by done.
  destruct (g !! _ ≫= _) as [v|] eqn:Hv; simpl.
  - rewrite bool_decide_eq_true_2; [done|]. by eauto.
  - rewrite bool_decide_eq_false_2; [done|]. intros (_ & _ & [? ?]). done.
Qed.

Lemma px_one_inside (g : list (list Z)) (y x : Z) :
  px g y x = 1 ->
  0 <= y /\ 0 <= x /\ is_Some (g !! Z.to_nat y ≫= (.!! Z.to_nat x)).
Proof.
  intros Hpx.
  destruct (Z.lt_ge_cases y 0) as [?|Hy]; [rewrite px_outside in Hpx; lia|].
  destruct (Z.lt_ge_cases x 0) as [?|Hx]; [rewrite px_outside in Hpx; lia|].
  split; [done|]. split; [done|].
  rewrite <- (Z2Nat.id y), <- (Z2Nat.id x), px_nat in Hpx by done.
  destruct (g !! _ ≫= _); [by eauto|]. simpl in Hpx. lia.
Qed.

(** After [n] dilations a pixel is set exactly when a set pixel lies within
    [n] of it, in each direction. *)
Lemma iter_reach (g : list (list Z)) (w : nat) (n : nat) :
  (forall y x, 0 <= px g y x <= 1) -> rectangular g w ->
  forall y x,
    px (Nat.iter n dilate3x3 g) y x = 1 <->
    (0 <= y < Z.of_nat (length g) /\ 0 <= x < Z.of_nat w)
    /\ exists y' x',
         Z.abs (y - y') <= Z.of_nat n /\ Z.abs (x - x') <= Z.of_nat n
         /\ px g y' x' = 1.
Proof.
  intros Hg Hrect.
  assert (forall y x,
            (0 <= y /\ 0 <= x /\ is_Some (g !! Z.to_nat y ≫= (.!! Z.to_nat x)))
            <-> (0 <= y < Z.of_nat (length g) /\ 0 <= x < Z.of_nat w)) as Hin.
  { intros y x. rewrite (inside_rectangular g w) by done. lia. }
  induction n as [|n IH]; intros y x.
  - simpl. split.
    + intros Hpx. split; [by apply Hin, px_one_inside|].
      exists y, x. split; [lia|]. split; [lia|done].
    + intros (_ & y' & x' & Hy & Hx & Hpx).
      by replace y with y' by lia; replace x with x' by lia.
  - change (Nat.iter (S n) dilate3x3 g) with (dilate3x3 (Nat.iter n dilate3x3 g)).
    set (h := Nat.iter n dilate3x3 g) in *.
    assert (forall y x, 0 <= px h y x <= 1) as Hh by (by apply iter_range).
    rewrite px_dilate3x3.
    assert ((0 <= y /\ 0 <= x /\ is_Some (h !! Z.to_nat y ≫= (.!! Z.to_nat x)))
            <-> (0 <= y < Z.of_nat (length g) /\ 0 <= x < Z.of_nat w)) as Hinh.
    { rewrite <- Hin. unfold h. by rewrite iter_shape. }
    case_bool_decide as Hins.
    + rewrite neighbourhood_one by done. apply Hinh in Hins. split.
      * intros (dy & dx & Hdy & Hdx & Hpx). split; [done|].
        apply IH in Hpx as (_ & y' & x' & Hy & Hx & Hpx).
        exists y', x'. split; [lia|]. split; [lia|done].
      * intros (_ & y' & x' & Hy & Hx & Hpx).
        pose proof (proj1 (Hin y' x') (px_one_inside _ _ _ Hpx)) as Hin'.
        assert (exists dy, -1 <= dy <= 1 /\ Z.abs (y + dy - y') <= Z.of_nat n
                           /\ 0 <= y + dy < Z.of_nat (length g)) as (dy & ? & ? & ?).
        { destruct (Z.lt_trichotomy y y') as [?|[?|?]];
            [exists 1|exists 0|exists (-1)]; lia. }
        assert (exists dx, -1 <= dx <= 1 /\ Z.abs (x + dx - x') <= Z.of_nat n
                           /\ 0 <= x + dx < Z.of_nat w) as (dx & ? & ? & ?).
        { destruct (Z.lt_trichotomy x x') as [?|[?|?]];
            [exists 1|exists 0|exists (-1)]; lia. }
        exists dy, dx. split; [done|]. split; [done|].
        apply IH. split; [lia|]. exists y', x'. done.
    + split; [lia|]. intros [Hyx _]. destruct Hins. by apply Hinh.
Qed.

End Reach.

Section DiffusionZone.
Context `{Rounding}.



(** Property X3: for a binary colony mask, a larger [expansion_pixels]
    never loses a pixel: every pixel of the zone for [e1] is in the zone for
    [e2] when [e1 <= e2]. *)
Theorem find_diffusion_zone_monotone image colony_mask e1 e2 s zone1 zone2 s1 s2 :
  binary colony_mask -> e1 <= e2 ->
  find_diffusion_zone image colony_mask e1 s = (Ok zone1, s1) ->
  find_diffusion_zone image colony_mask e2 s = (Ok zone2, s2) ->
  forall y x, pxb zone1 y x = true -> pxb zone2 y x = true.
Proof.
  intros Hb He [= <- _] [= <- _] y x. unfold dilate.
  rewrite (astype_uint8_binary _ Hb).
  pose proof (binary_px _ Hb) as Hpx.
  rewrite !diffusion_pixel by (intros y' x'; specialize (Hpx y' x'); lia).
  rewrite !Z.ltb_lt.
  pose proof (iter_monotone colony_mask (Z.to_nat (reach e1)) (Z.to_nat (reach e2))
                y x) as Hmono.
  pose proof (reach_monotone e1 e2 He). unfold reach in *. lia.
Qed.

(** Property X4: a colony mask that is zero everywhere has an empty
    diffusion zone, for every [expansion_pixels] and every shape. *)
Theorem find_diffusion_zone_of_background image colony_mask expansion_pixels s zone s' :
  (forall y x, px colony_mask y x = 0) ->
  find_diffusion_zone image colony_mask expansion_pixels s = (Ok zone, s') ->
  forall y x, pxb zone y x = false.
Proof.
  intros Hzero [= <- _] y x. unfold dilate.
  assert (forall y x, 0 <= px (astype_uint8 colony_mask) y x <= 0) as Hm.
  { intros y' x'. rewrite px_astype_uint8, Hzero. done. }
  rewrite diffusion_pixel by (intros y' x'; specialize (Hm y' x'); lia).
  apply Z.ltb_ge.
  pose proof (iter_range _ 0 (Z.to_nat (Z.max 1 (expansion_pixels / 3)))
                ltac:(lia) Hm y x).
  specialize (Hm y x). lia.
Qed.

(** Property X5: for a rectangular binary colony mask, the zone is exactly
    the set of pixels inside the array that are not in the colony and lie
    within [max(1, expansion_pixels // 3)] rows and columns of a colony
    pixel. *)
Theorem find_diffusion_zone_reach image colony_mask w expansion_pixels s zone s' :
  binary colony_mask -> rectangular colony_mask w ->
  find_diffusion_zone image colony_mask expansion_pixels s = (Ok zone, s') ->
  forall y x,
    pxb zone y x = true <->
    (0 <= y < Z.of_nat (length colony_mask) /\ 0 <= x < Z.of_nat w)
    /\ px colony_mask y x = 0
    /\ exists y' x',
         Z.abs (y - y') <= reach expansion_pixels
         /\ Z.abs (x - x') <= reach expansion_pixels
         /\ px colony_mask y' x' = 1.
Proof.
  intros Hb Hrect [= <- _] y x. unfold dilate.
  rewrite (astype_uint8_binary _ Hb).
  pose proof (binary_px _ Hb) as Hpx.
  rewrite diffusion_pixel by (intros y' x'; specialize (Hpx y' x'); lia).
  rewrite Z.ltb_lt.
  pose proof (iter_range _ 1 (Z.to_nat (Z.max 1 (expansion_pixels / 3)))
                ltac:(lia) Hpx y x) as Hr.
  pose proof (iter_reach colony_mask w (Z.to_nat (Z.max 1 (expansion_pixels / 3)))
                Hpx Hrect y x) as Hreach.
  rewrite Z2Nat.id in Hreach by lia. fold (reach expansion_pixels) in Hreach.
  specialize (Hpx y x). split.
  - intros Hlt. assert (px (Nat.iter (Z.to_nat (Z.max 1 (expansion_pixels / 3)))
                              dilate3x3 colony_mask) y x = 1) as Hone by lia.
    apply Hreach in Hone as [Hin Hex]. split; [done|]. split; [lia|done].
  - intros (Hin & Hzero & Hex).
    assert (px (Nat.iter (Z.to_nat (Z.max 1 (expansion_pixels / 3)))
                  dilate3x3 colony_mask) y x = 1) as Hone by (apply Hreach; done).
    lia.
Qed.

End DiffusionZone.

Lemma find_diffusion_zone_monotone_witness :
  pxb (gt0 (sub_uint8 (dilate [[0; 0; 0; 1]] 2) [[0; 0; 0; 1]])) 0 2 = true.
Proof.
  apply (find_diffusion_zone_monotone gray_image [[0; 0; 0; 1]] 3 6 idle
           (gt0 (sub_uint8 (dilate [[0; 0; 0; 1]] 1) [[0; 0; 0; 1]])) _ idle idle).
  - repeat constructor; tauto.
  - lia.
  - reflexivity.
  - reflexivity.
  - reflexivity.
Defined.

Lemma find_diffusion_zone_of_background_witness :
  pxb (gt0 (sub_uint8 (dilate [[0; 0]; [0; 0]] 5) [[0; 0]; [0; 0]])) 0 1 = false.
Proof.
  apply (find_diffusion_zone_of_background gray_image [[0; 0]; [0; 0]] 15 idle _ idle).
  - intros y x. unfold px.
    destruct ((0 <=? y) && (0 <=? x)); [|done].
    destruct (Z.to_nat y) as [|[|?]], (Z.to_nat x) as [|[|?]]; done.
  - reflexivity.
Defined.

Lemma find_diffusion_zone_reach_witness :
  pxb (gt0 (sub_uint8 (dilate [[0; 0; 0; 1]] 1) [[0; 0; 0; 1]])) 0 2 = true.
Proof.
  apply (find_diffusion_zone_reach gray_image [[0; 0; 0; 1]] 4 3 idle _ idle).
  - repeat constructor; tauto.
  - repeat constructor.
  - reflexivity.
  - split; [simpl; lia|]. split; [reflexivity|].
    exists 0, 3. vm_compute. repeat split; discriminate.
Defined.

(** ** More on the segmentation engine *)

Section Digits.

Lemma uint_digits_head (u : Decimal.uint) (d : Z) (rest : list Z) :
  uint_digits u = d :: rest -> 48 <= d <= 57.
Proof. destruct u; simpl; intros [= <- _]; lia. Qed.

Lemma uint_digits_inj (u v : Decimal.uint) : uint_digits u = uint_digits v -> u = v.
Proof.
  revert v. induction u; intros []; simpl; intros [=]; f_equal; auto.
Qed.

Lemma str_of_int_inj (m n : Z) : str_of_int m = str_of_int n -> m = n.
Proof.
  unfold str_of_int. intros Heq.
  rewrite <- (DecimalZ.of_to m), <- (DecimalZ.of_to n).
  destruct (Z.to_int m) as [u|u], (Z.to_int n) as [v|v].
  - by rewrite (uint_digits_inj _ _ Heq).
  - apply uint_digits_head in Heq. lia.
  - symmetry in Heq. apply uint_digits_head in Heq. lia.
  - injection Heq as Heq. by rewrite (uint_digits_inj _ _ Heq).
Qed.

End Digits.

Section Argmax.

Lemma Qltb_lt (x y : Q) : Qltb x y = true <-> (x < y)%Q.
Proof.
  unfold Qltb. rewrite negb_true_iff, <- not_true_iff_false, Qle_bool_iff.
  split; [apply Qnot_le_lt | apply Qlt_not_le].
Qed.

Lemma Qltb_ge (x y : Q) : Qltb x y = false <-> (y <= x)%Q.
Proof. unfold Qltb. by rewrite negb_false_iff, Qle_bool_iff. Qed.

(** The index that [argmax_from] returns holds a value that no value of the
    list exceeds and that no earlier value reaches. *)
Lemma argmax_from_spec (xs : list Q) : forall (pre : list Q) best_i best,
  pre !! best_i = Some best ->
  (forall j q, pre !! j = Some q -> (q <= best)%Q) ->
  (forall j q, (j < best_i)%nat -> pre !! j = Some q -> (q < best)%Q) ->
  exists b,
    (pre ++ xs) !! argmax_from best_i best (length pre) xs = Some b
    /\ (forall j q, (pre ++ xs) !! j = Some q -> (q <= b)%Q)
    /\ (forall j q, (j < argmax_from best_i best (length pre) xs)%nat ->
          (pre ++ xs) !! j = Some q -> (q < b)%Q).
Proof.
  induction xs as [|x rest IH]; intros pre best_i best Hbest Hmax Hfirst.
  - simpl. rewrite app_nil_r. eauto.
  - cbn [argmax_from].
    replace (pre ++ x :: rest) with ((pre ++ [x]) ++ rest)
      by (by rewrite <- app_assoc).
    replace (S (length pre)) with (length (pre ++ [x]))
      by (rewrite length_app; simpl; lia).
    destruct (Qltb best x) eqn:Hcmp.
    + apply Qltb_lt in Hcmp. apply IH.
      * by rewrite lookup_app_r, Nat.sub_diag.
      * intros j q Hj. apply lookup_app_Some in Hj as [Hj | [_ Hj]].
        -- apply Qlt_le_weak. eapply Qle_lt_trans; [exact (Hmax j q Hj) | done].
        -- apply list_lookup_singleton_Some in Hj as [_ <-]. apply Qle_refl.
      * intros j q Hlt Hj. rewrite lookup_app_l in Hj by done.
        eapply Qle_lt_trans; [exact (Hmax j q Hj) | done].
    + apply Qltb_ge in Hcmp. apply IH.
      * by apply lookup_app_l_Some.
      * intros j q Hj. apply lookup_app_Some in Hj as [Hj | [_ Hj]].
        -- by apply (Hmax j).
        -- by apply list_lookup_singleton_Some in Hj as [_ <-].
      * intros j q Hlt Hj. apply lookup_lt_Some in Hbest as Hin.
        rewrite lookup_app_l in Hj by lia. by apply (Hfirst j).
Qed.

Lemma argmax_spec (xs : list Q) (i : nat) :
  argmax xs = Ok i ->
  exists b,
    xs !! i = Some b
    /\ (forall j q, xs !! j = Some q -> (q <= b)%Q)
    /\ (forall j q, (j < i)%nat -> xs !! j = Some q -> (q < b)%Q).
Proof.
  destruct xs as [|x rest]; [done|]. intros [= <-].
  apply (argmax_from_spec rest [x] 0%nat x).
  - done.
  - intros [|j] q; [intros [= <-]; apply Qle_refl | done].
  - intros j q Hlt. lia.
Qed.

End Argmax.

Section MoreSamFacts.
Context `{Backend} `{Rounding}.

(** Property X6: [_preprocess_image] returns the image it was given
    exactly when that image is 3-dimensional with at most 3 channels; and
    normalising a normalised image changes nothing. *)
Theorem preprocess_image_fixpoints image s :
  ((_preprocess_image image s).1 = Ok image <->
   exists g, image = Arr3 g /\ channels g <= 3)
  /\ forall image' s', _preprocess_image image s = (Ok image', s') ->
       (_preprocess_image image' s').1 = Ok image'.
Proof.
  split.
  - unfold _preprocess_image, emit, bind, modify, ret. simpl. split.
    + intros [= Heq]. destruct image as [g|g]; [done|]. exists g. split; [done|].
      unfold normalized in Heq.
      destruct (channels g =? 4) eqn:H4.
      * apply Z.eqb_eq in H4. injection Heq as Heq.
        pose proof (channels_take3 g) as Ht. unfold cvtColor_RGBA2RGB in Heq.
        rewrite Heq in Ht. lia.
      * destruct (3 <? channels g) eqn:H3; [|apply Z.ltb_ge in H3; lia].
        injection Heq as Heq. pose proof (channels_take3 g) as Ht.
        rewrite Heq in Ht. lia.
    + intros (g & -> & Hc). unfold normalized.
      replace (channels g =? 4) with false by (symmetry; apply Z.eqb_neq; lia).
      replace (3 <? channels g) with false by (symmetry; apply Z.ltb_ge; lia).
      done.
  - unfold _preprocess_image, emit, bind, modify, ret. simpl.
    intros image' s' [= <- _]. by rewrite normalized_idempotent.
Qed.


(** Property X8: when the predictor returns [masks] and [scores], what
    [segment_with_prompts] returns is the mask and the score at one index of
    the two; no score is higher than the returned one, and every score before
    that index is strictly lower: the first of the best. *)
Theorem segment_with_prompts_best_score image points point_labels boxes
    masks scores mask score s s' :
  (forall point_coords labels,
     predict (normalized image) point_coords labels boxes = Ok (masks, scores)) ->
  segment_with_prompts image points point_labels boxes s = (Ok (mask, score), s') ->
  exists i,
    masks !! i = Some mask /\ scores !! i = Some score
    /\ (forall j q, scores !! j = Some q -> (q <= score)%Q)
    /\ (forall j q, (j < i)%nat -> scores !! j = Some q -> (q < score)%Q).
Proof.
  intros Hpredict.
  unfold segment_with_prompts, _preprocess_image, emit, bind, modify, ret, lift,
    get, raise. simpl.
  destruct (set_image (normalized image)) as [[]|e]; simpl; [|done].
  rewrite Hpredict. simpl.
  destruct (argmax scores) as [i|e] eqn:Hargmax; [|done].
  unfold index.
  destruct (masks !! i) as [m|] eqn:Hm; [|done].
  destruct (scores !! i) as [q|] eqn:Hq; [|done].
  intros [= <- <- _].
  destruct (argmax_spec scores i Hargmax) as (b & Hb & Hmax & Hfirst).
  exists i. rewrite Hq in Hb. injection Hb as <-. done.
Qed.

(** Property X9: an exception of [set_image] leaves [segment_with_prompts]
    with that exception before the predictor is asked for a prediction; an
    exception of [predict] leaves it with that exception; and a prediction
    without scores raises [ValueError]. *)
Theorem segment_with_prompts_failures image points point_labels boxes s :
  (forall e, set_image (normalized image) = Raise e ->
     (segment_with_prompts image points point_labels boxes s).1 = Raise e
     /\ trace (segment_with_prompts image points point_labels boxes s).2
        = trace s ++ [Normalize image; SetImage (normalized image)])
  /\ (forall e,
        set_image (normalized image) = Ok tt ->
        (forall point_coords labels,
           predict (normalized image) point_coords labels boxes = Raise e) ->
        (segment_with_prompts image points point_labels boxes s).1 = Raise e)
  /\ (forall masks,
        set_image (normalized image) = Ok tt ->
        (forall point_coords labels,
           predict (normalized image) point_coords labels boxes = Ok (masks, [])) ->
        (segment_with_prompts image points point_labels boxes s).1
        = Raise ValueError).
Proof.
  unfold segment_with_prompts, _preprocess_image, emit, bind, modify, ret, lift,
    get, raise. simpl.
  split; [|split].
  - intros e ->. simpl. by rewrite <- app_assoc.
  - intros e -> Hpredict. simpl. by rewrite Hpredict.
  - intros masks -> Hpredict. simpl. by rewrite Hpredict.
Qed.

Lemma filter_weaker {A} (p q : A -> bool) (l : list A) :
  (forall a, p a = true -> q a = true) ->
  sublist (List.filter p l) (List.filter q l).
Proof.
  intros Himp. induction l as [|a l IH]; simpl; [constructor|].
  destruct (p a) eqn:Hp.
  - rewrite (Himp a Hp). by constructor.
  - destruct (q a); [by constructor|done].
Qed.

Lemma segment_everything_run image min_area max_area s :
  segment_everything image min_area max_area s
  = let s' := {| predictor_image := predictor_image s;
                 trace := trace s ++ [Normalize image; Generate (normalized image)] |} in
    match generate (normalized image) with
    | Ok candidates =>
        let kept := List.filter (within_area min_area max_area) candidates in
        (Ok (segmentation <$> kept, stability_score <$> kept), s')
    | Raise e => (Raise e, s')
    end.
Proof.
  unfold segment_everything, _preprocess_image, emit, bind, modify, ret, lift.
  simpl. rewrite <- app_assoc. simpl.
  destruct (generate (normalized image)); simpl; [|done].
  by rewrite filter_candidates_spec.
Qed.

(** Property X10: lowering [min_area], or raising or dropping
    [max_area], never loses a result of [segment_everything]: from the same
    engine state, the masks and the scores returned under the narrower bounds
    are sublists, in order, of those returned under the wider bounds. *)
Theorem segment_everything_wider_bounds image min_area max_area min_area' max_area'
    masks scores s s1 :
  min_area' <= min_area ->
  (forall m', max_area' = Some m' -> exists m, max_area = Some m /\ m <= m') ->
  segment_everything image min_area max_area s = (Ok (masks, scores), s1) ->
  exists masks' scores',
    segment_everything image min_area' max_area' s = (Ok (masks', scores'), s1)
    /\ sublist masks masks' /\ sublist scores scores'.
Proof.
  intros Hmin Hmax. rewrite !segment_everything_run. cbv zeta.
  destruct (generate (normalized image)) as [candidates|e]; [|done].
  intros [= <- <- <-].
  eexists _, _. split; [reflexivity|].
  assert (sublist (List.filter (within_area min_area max_area) candidates)
            (List.filter (within_area min_area' max_area') candidates)) as Hsub.
  { apply filter_weaker. intros md [Hlo Hhi]%within_area_iff.
    apply within_area_iff. split; [lia|].
    intros m' Hm'. destruct (Hmax m' Hm') as (m & Hm & Hle).
    specialize (Hhi m Hm). lia. }
  split; by apply fmap_sublist.
Qed.

(** Property X11: [segment_everything] returns as many scores as
    masks, returns nothing when [max_area < min_area], and leaves the image of
    the predictor as it was. *)
Theorem segment_everything_outputs image min_area max_area masks scores s s' :
  segment_everything image min_area max_area s = (Ok (masks, scores), s') ->
  length masks = length scores
  /\ (forall m, max_area = Some m -> m < min_area -> masks = [] /\ scores = [])
  /\ predictor_image s' = predictor_image s.
Proof.
  rewrite segment_everything_run. cbv zeta.
  destruct (generate (normalized image)) as [candidates|e]; [|done].
  intros [= <- <- <-]. split; [by rewrite !length_fmap|]. split; [|done].
  intros m -> Hlt.
  assert (List.filter (within_area min_area (Some m)) candidates = []) as ->; [|done].
  induction candidates as [|md rest IH]; [done|]. simpl.
  destruct (within_area min_area (Some m) md) eqn:Hin; [|done].
  apply within_area_iff in Hin as [Hlo Hhi]. specialize (Hhi m eq_refl). lia.
Qed.

Lemma segment_grid_run image rows cols padding s :
  segment_grid image rows cols padding s
  = let s1 := {| predictor_image := predictor_image s;
                 trace := trace s ++ [Normalize image] |} in
    let image := normalized image in
    if rows =? 0 then (Raise ZeroDivisionError, s1)
    else if cols =? 0 then (Raise ZeroDivisionError, s1)
    else match row_letters (range rows) with
         | Raise e => (Raise e, s1)
         | Ok row_labels =>
             grid_cells image (shape2 image).1 (shape2 image).2
               (fround (inject_Z (shape2 image).1 / inject_Z rows))
               (fround (inject_Z (shape2 image).2 / inject_Z cols))
               padding row_labels
               (r ← range rows; c ← range cols; [(r, c)]) [] [] s1
         end.
Proof.
  unfold segment_grid, _preprocess_image, emit.
  unfold bind at 1. unfold bind at 1. unfold modify, ret. cbv zeta.
  destruct (shape2 (normalized image)) as [h w] eqn:Hshape.
  unfold int_true_div, lift, bind. simpl.
  destruct (rows =? 0); [done|]. destruct (cols =? 0); [done|].
  by destruct (row_letters (range rows)).
Qed.


Lemma row_letters_inv (idxs : list Z) (letters : list pystr) :
  row_letters idxs = Ok letters ->
  Forall (fun i => 0 <= 65 + i < 1114112) idxs.
Proof.
  revert letters. induction idxs as [|i rest IH]; intros letters; [constructor|].
  simpl. unfold chr at 1.
  destruct ((0 <=? 65 + i) && (65 + i <? 1114112)) eqn:Hin.
  - destruct (row_letters rest) as [ls|e]; [|done]. intros _.
    constructor; [lia | by eapply IH].
  - by destruct ((-2147483648 <=? 65 + i) && (65 + i <=? 2147483647)).
Qed.


Lemma range_NoDup (n : Z) : NoDup (range n).
Proof.
  unfold range. apply NoDup_fmap_2; [intros ? ?; apply Nat2Z.inj | apply NoDup_seq].
Qed.


(** Property X14: whenever [segment_grid] returns, its labels are
    pairwise distinct, and there are as many masks as labels. *)
Theorem segment_grid_distinct_labels image rows cols padding masks labels s s' :
  segment_grid image rows cols padding s = (Ok (masks, labels), s') ->
  NoDup labels /\ length masks = length labels.
Proof.
  rewrite segment_grid_run. cbv zeta.
  destruct (rows =? 0); [done|]. destruct (cols =? 0); [done|].
  destruct (row_letters (range rows)) as [row_labels|e] eqn:Hletters; [|done].
  pose proof (row_letters_inv _ _ Hletters) as Hrange.
  rewrite (row_letters_ok _ Hrange) in Hletters. injection Hletters as <-.
  set (label_of := fun r c : Z => [65 + r] ++ str_of_int (c + 1)).
  assert (forall r c, In (r, c) (r ← range rows; c ← range cols; [(r, c)]) ->
            cell_label ((fun i => [65 + i]) <$> range rows) r c
            = Ok (label_of r c)) as Hlabel.
  { intros r c [Hr Hc]%cells_spec. unfold cell_label, index.
    by rewrite list_lookup_fmap, range_lookup. }
  match goal with |- context [grid_cells ?im ?hh ?ww ?ch ?cw ?pd ?rl ?cl [] [] ?st] =>
    destruct (grid_cells_spec im hh ww ch cw pd rl label_of cl Hlabel [] [] st)
      as (new & s2 & -> & Hlen & _) end.
  simpl. intros [= <- <- _]. split; [|by rewrite Hlen, length_fmap].
  apply NoDup_fmap_2_strong.
  - intros [r c] [r' c'] _ _. unfold label_of.
    change (65 + r :: str_of_int (c + 1) = 65 + r' :: str_of_int (c' + 1)
            -> (r, c) = (r', c')).
    intros Heq.
    assert (65 + r = 65 + r' /\ str_of_int (c + 1) = str_of_int (c' + 1))
      as [Hr Hc] by (split; congruence). apply str_of_int_inj in Hc. f_equal; lia.
  - apply NoDup_bind.
    + intros r r' rc _ _ Hin Hin'.
      apply list_elem_of_bind in Hin as (c & Hin%list_elem_of_singleton & _).
      apply list_elem_of_bind in Hin' as (c' & Hin'%list_elem_of_singleton & _).
      congruence.
    + intros r _. apply NoDup_bind.
      * intros c c' rc _ _ Hin%list_elem_of_singleton Hin'%list_elem_of_singleton.
        congruence.
      * intros c _. apply NoDup_singleton.
      * apply range_NoDup.
    + apply range_NoDup.
Qed.

End MoreSamFacts.

Lemma segment_with_prompts_best_score_witness :
  exists i,
    [[[1; 0]]; [[0; 1]]; [[1; 1]]] !! i = Some [[0; 1]]
    /\ [1 # 2; 9 # 10; 9 # 10] !! i = Some (9 # 10)
    /\ (forall j q, [1 # 2; 9 # 10; 9 # 10] !! j = Some q -> (q <= 9 # 10)%Q)
    /\ (forall j q, (j < i)%nat ->
          [1 # 2; 9 # 10; 9 # 10] !! j = Some q -> (q < 9 # 10)%Q).
Proof.
  apply (segment_with_prompts_best_score (H := scoring_backend) gray_image None None
           None _ _ _ _ idle
           {| predictor_image := Some (normalized gray_image);
              trace := [Normalize gray_image; SetImage (normalized gray_image);
                        Predict None None None] |}).
  - reflexivity.
  - reflexivity.
Defined.

Lemma segment_everything_wider_bounds_witness :
  exists masks' scores',
    segment_everything (H := three_candidate_backend) gray_image 10 None idle
    = (Ok (masks', scores'),
       {| predictor_image := None;
          trace := [Normalize gray_image; Generate (normalized gray_image)] |})
    /\ sublist [[[1; 1]]] masks' /\ sublist [8 # 10] scores'.
Proof.
  apply (segment_everything_wider_bounds (H := three_candidate_backend)
           gray_image 25 (Some 100) 10 None).
  - lia.
  - discriminate.
  - reflexivity.
Defined.

Lemma segment_everything_outputs_witness :
  length [[[1; 1]]] = length [8 # 10]
  /\ (forall m, Some 100 = Some m -> m < 25 -> [[[1; 1]]] = [] /\ [8 # 10] = [])
  /\ predictor_image
       {| predictor_image := None;
          trace := [Normalize gray_image; Generate (normalized gray_image)] |}
     = predictor_image idle.
Proof.
  apply (segment_everything_outputs (H := three_candidate_backend)
           gray_image 25 (Some 100)).
  reflexivity.
Defined.



Lemma segment_grid_distinct_labels_witness :
  NoDup [lit "A1"; lit "A2"; lit "B1"; lit "B2"]
  /\ length (replicate 4 [[0; 0]; [0; 0]]) = length [lit "A1"; lit "A2"; lit "B1"; lit "B2"].
Proof.
  apply (segment_grid_distinct_labels gray_image 2 2 (1 # 20) _ _ idle
           (segment_grid gray_image 2 2 (1 # 20) idle).2).
  reflexivity.
Defined.

(** ** Setting up the engine *)

Import Setup.

Section ResolveFacts.
Context `{FileSystem}.

Lemma first_existing_spec (candidates : list (list Z)) :
  match first_existing candidates with
  | Some p =>
      exists i,
        candidates !! i = Some p /\ path_exists p = true
        /\ forall j q, (j < i)%nat -> candidates !! j = Some q -> path_exists q = false
  | None => Forall (fun q => path_exists q = false) candidates
  end.
Proof.
  induction candidates as [|q rest IH]; [constructor|]. simpl.
  destruct (path_exists q) eqn:Hq.
  - exists 0%nat. repeat split; [done|]. intros j ? Hj. lia.
  - destruct (first_existing rest) as [p|].
    + destruct IH as (i & Hi & Hp & Hbefore). exists (S i). repeat split; [done..|].
      intros [|j] q' Hj; simpl; [by intros [= <-]|].
      apply Hbefore. lia.
    + by constructor.
Qed.

Lemma usable_given (checkpoint_path : option (list Z)) :
  match checkpoint_path with
  | Some (ch :: p) => path_exists (ch :: p)
  | _ => false
  end = true <-> usable checkpoint_path.
Proof.
  unfold usable. split.
  - destruct checkpoint_path as [[|ch p]|]; [done| |done]. intros Hp.
    by exists (ch :: p).
  - intros (p & -> & Hne & Hp). by destruct p.
Qed.

(** Property X15: an explicit checkpoint path that is not empty and
    exists is returned as it is, whatever the model type: an unknown model
    type is no error here. *)
Theorem resolve_checkpoint_path_explicit p model_type :
  p <> [] -> path_exists p = true ->
  _resolve_checkpoint_path (Some p) model_type = Returns p.
Proof.
  intros Hne Hp. unfold _resolve_checkpoint_path.
  destruct p as [|ch p]; [done|]. by rewrite Hp.
Qed.

(** Property X16: a checkpoint path that is missing, empty or does not
    exist is passed over in silence: the result is what
    [_resolve_checkpoint_path] gives without a checkpoint path. *)
Theorem resolve_checkpoint_path_fallback checkpoint_path model_type :
  ~ usable checkpoint_path ->
  _resolve_checkpoint_path checkpoint_path model_type
  = _resolve_checkpoint_path None model_type.
Proof.
  intros Hno. unfold _resolve_checkpoint_path.
  destruct (match checkpoint_path with
            | Some (ch :: p) => path_exists (ch :: p)
            | _ => false
            end) eqn:Hgiven; [|done].
  by apply usable_given in Hgiven.
Qed.

(** Property X17: a path that [_resolve_checkpoint_path] returns
    exists: it is the explicit checkpoint, or else the first existing one of
    the three default locations of the model type, in the order in which the
    code tries them. *)
Theorem resolve_checkpoint_path_returns checkpoint_path model_type p :
  _resolve_checkpoint_path checkpoint_path model_type = Returns p ->
  path_exists p = true
  /\ (usable checkpoint_path /\ checkpoint_path = Some p
      \/ ~ usable checkpoint_path
         /\ exists path i,
              paths_get model_type default_paths = Some path
              /\ possible_paths path !! i = Some p
              /\ forall j q, (j < i)%nat -> possible_paths path !! j = Some q ->
                   path_exists q = false).
Proof.
  unfold _resolve_checkpoint_path.
  destruct (match checkpoint_path with
            | Some (ch :: p) => path_exists (ch :: p)
            | _ => false
            end) eqn:Hgiven.
  - apply usable_given in Hgiven as Husable.
    destruct Husable as (q & -> & Hne & Hq). simpl. intros [= <-].
    split; [done|]. left. split; [|done]. by exists q.
  - assert (~ usable checkpoint_path) as Hno
      by (intros Hu%usable_given; congruence).
    destruct (paths_get model_type default_paths) as [path|]; [|done].
    pose proof (first_existing_spec (possible_paths path)) as Hfirst.
    destruct (first_existing (possible_paths path)) as [q|]; [|done].
    intros [= <-]. destruct Hfirst as (i & Hi & Hq & Hbefore).
    split; [done|]. right. split; [done|]. by exists path, i.
Qed.

(** Property X18: [_resolve_checkpoint_path] raises exactly when the explicit
    checkpoint is not usable and, either the model type has no default path,
    where it is the [TypeError] of [Path(None)], or none of the three default
    locations exists, where it is [FileNotFoundError] with the model type and
    its default path. *)
Theorem resolve_checkpoint_path_raises checkpoint_path model_type e :
  _resolve_checkpoint_path checkpoint_path model_type = Raises e <->
  ~ usable checkpoint_path
  /\ match e with
     | PathTypeError => paths_get model_type default_paths = None
     | FileNotFoundError reported_type reported_path =>
         reported_type = model_type
         /\ paths_get model_type default_paths = Some reported_path
         /\ Forall (fun q => path_exists q = false) (possible_paths reported_path)
     end.
Proof.
  unfold _resolve_checkpoint_path.
  destruct (match checkpoint_path with
            | Some (ch :: p) => path_exists (ch :: p)
            | _ => false
            end) eqn:Hgiven.
  - apply usable_given in Hgiven. split; [done|]. by intros [Hno _].
  - assert (~ usable checkpoint_path) as Hno
      by (intros Hu%usable_given; congruence).
    destruct (paths_get model_type default_paths) as [path|].
    + pose proof (first_existing_spec (possible_paths path)) as Hfirst.
      destruct (first_existing (possible_paths path)) as [q|] eqn:Hq.
      * split; [done|]. intros [_ He]. destruct e as [t p|]; [|done].
        destruct He as (_ & [= <-] & Hall).
        destruct Hfirst as (i & Hi & Hex & _).
        apply list_elem_of_lookup_2 in Hi.
        rewrite Forall_forall in Hall. specialize (Hall q Hi). congruence.
      * split.
        -- intros [= <-]. done.
        -- intros [_ He]. destruct e as [t p|]; [|done].
           by destruct He as (-> & [= <-] & _).
    + split.
      * by intros [= <-].
      * intros [_ He]. destruct e as [t p|]; [|done]. by destruct He as (_ & ? & _).
Qed.

End ResolveFacts.

Section ParamFacts.

Lemma keys_dict_set key v (d : list (list Z * Colony.value)) :
  (Colony.dict_set key v d).*1
  = if bool_decide (is_Some (Colony.dict_get key d)) then d.*1 else d.*1 ++ [key].
Proof.
  induction d as [|[k w] rest IH]; [done|].
  cbn [Colony.dict_set Colony.dict_get].
  destruct (decide (key = k)) as [->|Hne].
  - by rewrite bool_decide_eq_true_2 by eauto.
  - rewrite fmap_cons, IH.
    by destruct (bool_decide (is_Some (Colony.dict_get key rest))).
Qed.

Lemma dict_get_is_Some key (d : list (list Z * Colony.value)) :
  is_Some (Colony.dict_get key d) <-> key ∈ d.*1.
Proof.
  induction d as [|[k w] rest IH]; simpl.
  - split; [by intros [? ?] | by intros ?%elem_of_nil].
  - destruct (decide (key = k)) as [->|Hne].
    + split; [intros _; apply list_elem_of_here | eauto].
    + rewrite IH. split; [apply list_elem_of_further|].
      intros [?|?]%elem_of_cons; done.
Qed.

Lemma dict_get_set key key' v (d : list (list Z * Colony.value)) :
  Colony.dict_get key' (Colony.dict_set key v d)
  = if decide (key' = key) then Some v else Colony.dict_get key' d.
Proof.
  induction d as [|[k w] rest IH]; simpl.
  - by destruct (decide (key' = key)).
  - destruct (decide (key = k)) as [->|Hne]; simpl.
    + by destruct (decide (key' = k)).
    + rewrite IH. destruct (decide (key' = k)) as [->|]; [|done].
      by rewrite decide_False by done.
Qed.

(** [d.update(new)] keeps the keys of [d] in their places, and looks up as
    [new] where [new] has the key. *)
Lemma dict_update_spec (new : list (list Z * Colony.value)) :
  forall d : list (list Z * Colony.value),
    NoDup new.*1 ->
    (exists extra, (Colony.dict_update d new).*1 = d.*1 ++ extra)
    /\ forall key, Colony.dict_get key (Colony.dict_update d new)
                   = updated_lookup d new key.
Proof.
  unfold Colony.dict_update, updated_lookup.
  induction new as [|[k v] rest IH]; intros d Hnodup.
  - split; [exists []; by rewrite app_nil_r | done].
  - apply NoDup_cons in Hnodup as [Hk Hrest]. simpl.
    destruct (IH (Colony.dict_set k v d) Hrest) as [[extra Hkeys] Hget].
    split.
    + rewrite Hkeys, keys_dict_set.
      destruct (bool_decide (is_Some (Colony.dict_get k d))); [by exists extra|].
      exists (k :: extra). by rewrite <- app_assoc.
    + intros key. rewrite Hget, dict_get_set.
      destruct (decide (key = k)) as [->|Hne].
      * destruct (Colony.dict_get k rest) eqn:Hin; [|done].
        exfalso. apply Hk, dict_get_is_Some. eauto.
      * done.
Qed.

Lemma take_attributes_spec attrs (keys : list (list Z)) :
  forall params : list (list Z * Colony.value),
    keys ⊆ params.*1 ->
    (take_attributes attrs keys params).*1 = params.*1
    /\ forall key,
         Colony.dict_get key (take_attributes attrs keys params)
         = if bool_decide (key ∈ keys) then updated_lookup params attrs key
           else Colony.dict_get key params.
Proof.
  unfold updated_lookup.
  induction keys as [|k rest IH]; intros params Hsub.
  - split; [done|]. intros key. by rewrite bool_decide_eq_false_2 by apply not_elem_of_nil.
  - assert (k ∈ params.*1) as Hk by (apply Hsub; left).
    assert (rest ⊆ params.*1) as Hrest by (intros x Hx; apply Hsub; by right).
    simpl. destruct (Colony.dict_get k attrs) as [v|] eqn:Hattr.
    + assert ((Colony.dict_set k v params).*1 = params.*1) as Hsame.
      { rewrite keys_dict_set.
        by rewrite bool_decide_eq_true_2 by by apply dict_get_is_Some. }
      destruct (IH (Colony.dict_set k v params)) as [Hkeys Hget];
        [by rewrite Hsame|].
      split; [by rewrite Hkeys|]. intros key. rewrite Hget, dict_get_set.
      destruct (decide (key = k)) as [->|Hne].
      * rewrite Hattr. rewrite (bool_decide_eq_true_2 (k ∈ k :: rest)) by left.
        by destruct (bool_decide (k ∈ rest)).
      * destruct (bool_decide (key ∈ rest)) eqn:Hin.
        -- apply bool_decide_eq_true in Hin.
           by rewrite bool_decide_eq_true_2 by by right.
        -- apply bool_decide_eq_false in Hin.
           rewrite bool_decide_eq_false_2; [done|].
           by intros [?|?]%elem_of_cons.
    + destruct (IH params Hrest) as [Hkeys Hget].
      split; [done|]. intros key. rewrite Hget.
      destruct (decide (key = k)) as [->|Hne].
      * rewrite Hattr. rewrite (bool_decide_eq_true_2 (k ∈ k :: rest)) by left.
        by destruct (bool_decide (k ∈ rest)).
      * destruct (bool_decide (key ∈ rest)) eqn:Hin.
        -- apply bool_decide_eq_true in Hin.
           by rewrite bool_decide_eq_true_2 by by right.
        -- apply bool_decide_eq_false in Hin.
           rewrite bool_decide_eq_false_2; [done|].
           by intros [?|?]%elem_of_cons.
Qed.

(** Property X19: [_extract_sam_params] never raises. Without a
    configuration, or when [config.get] raises, it returns the six defaults,
    in the second case after one warning; otherwise it logs nothing, and the
    six default keys keep their places at the front of the result. *)
Theorem extract_sam_params_returns config warnings :
  exists params warnings',
    _extract_sam_params config warnings = (Ok params, warnings')
    /\ match config with
       | None => params = default_params /\ warnings' = warnings
       | Some config_get =>
           match config_get (lit "sam") with
           | Raise e => params = default_params /\ warnings' = warnings ++ [e]
           | Ok (SamDict d) =>
               warnings' = warnings
               /\ (NoDup d.*1 -> exists extra, params.*1 = default_params.*1 ++ extra)
           | Ok _ => warnings' = warnings /\ params.*1 = default_params.*1
           end
       end.
Proof.
  unfold _extract_sam_params.
  destruct config as [config_get|]; [|by eexists _, _].
  unfold try_except, bind, lift, ret, modify.
  destruct (config_get (lit "sam")) as [[attrs|d|]|e]; cbv beta iota zeta.
  - eexists _, _. split; [reflexivity|]. split; [done|].
    by apply take_attributes_spec.
  - eexists _, _. split; [reflexivity|]. split; [done|].
    intros Hnodup. by apply dict_update_spec.
  - by eexists _, _.
  - by eexists _, _.
Qed.

(** Property X20: for a configuration object, the result has
    exactly the six default keys, each with the value of the attribute of that
    name where the object has one, and with the default otherwise; the other
    attributes of the object are ignored. *)
Theorem extract_sam_params_object config_get attrs warnings :
  config_get (lit "sam") = Ok (SamObject attrs) ->
  exists params,
    _extract_sam_params (Some config_get) warnings = (Ok params, warnings)
    /\ params.*1 = default_params.*1
    /\ forall key,
         Colony.dict_get key params
         = if bool_decide (key ∈ default_params.*1)
           then updated_lookup default_params attrs key
           else None.
Proof.
  intros Hget. unfold _extract_sam_params, try_except, bind, lift, ret.
  rewrite Hget. eexists. split; [reflexivity|].
  destruct (take_attributes_spec attrs default_params.*1 default_params)
    as [Hkeys Hlookup]; [done|].
  split; [done|]. intros key. rewrite Hlookup.
  destruct (bool_decide (key ∈ default_params.*1)) eqn:Hin; [done|].
  apply bool_decide_eq_false in Hin.
  destruct (Colony.dict_get key default_params) eqn:Hd; [|done].
  exfalso. apply Hin, dict_get_is_Some. eauto.
Qed.

(** Property X21: for a configuration [dict], every key of it,
    known or not, is in the result with the value the configuration gives
    it, and the other defaults keep their values. *)
Theorem extract_sam_params_dict config_get d warnings :
  config_get (lit "sam") = Ok (SamDict d) ->
  NoDup d.*1 ->
  exists params,
    _extract_sam_params (Some config_get) warnings = (Ok params, warnings)
    /\ (forall key, Colony.dict_get key params = updated_lookup default_params d key)
    /\ (forall key, key ∈ params.*1 <-> key ∈ default_params.*1 \/ key ∈ d.*1).
Proof.
  intros Hget Hnodup. unfold _extract_sam_params, try_except, bind, lift, ret.
  rewrite Hget. eexists. split; [reflexivity|].
  destruct (dict_update_spec d default_params Hnodup) as [_ Hlookup].
  split; [done|]. intros key.
  rewrite <- !dict_get_is_Some, Hlookup. unfold updated_lookup.
  destruct (Colony.dict_get key d) as [v|].
  - split; [right|]; eauto.
  - split; [by left|]. by intros [?|[? ?]].
Qed.

End ParamFacts.

Lemma resolve_checkpoint_path_explicit_witness :
  _resolve_checkpoint_path (H := installed_below_src) (Some (lit "/data/custom.pth"))
    (lit "no_such_model")
  = Returns (lit "/data/custom.pth").
Proof.
  apply (resolve_checkpoint_path_explicit (H := installed_below_src)); [done|].
  reflexivity.
Defined.

Lemma resolve_checkpoint_path_fallback_witness :
  _resolve_checkpoint_path (H := installed_below_src) (Some (lit "/data/missing.pth"))
    (lit "vit_b")
  = _resolve_checkpoint_path (H := installed_below_src) None (lit "vit_b").
Proof.
  apply (resolve_checkpoint_path_fallback (H := installed_below_src)).
  intros (p & [= <-] & _ & Hp). vm_compute in Hp. discriminate.
Defined.

Lemma resolve_checkpoint_path_returns_witness :
  Setup.path_exists (FileSystem := installed_below_src)
    (lit "src/models/sam_vit_b_01ec64.pth") = true
  /\ (usable (H := installed_below_src) None
      /\ None = Some (lit "src/models/sam_vit_b_01ec64.pth")
      \/ ~ usable (H := installed_below_src) None
         /\ exists path i,
              paths_get (lit "vit_b") default_paths = Some path
              /\ possible_paths (H := installed_below_src) path !! i
                 = Some (lit "src/models/sam_vit_b_01ec64.pth")
              /\ forall j q, (j < i)%nat ->
                   possible_paths (H := installed_below_src) path !! j = Some q ->
                   Setup.path_exists (FileSystem := installed_below_src) q = false).
Proof.
  apply (resolve_checkpoint_path_returns (H := installed_below_src) None (lit "vit_b")).
  reflexivity.
Defined.

Lemma resolve_checkpoint_path_raises_witness :
  _resolve_checkpoint_path (H := nothing_installed) None (lit "vit_b")
  = Raises (FileNotFoundError (lit "vit_b") (lit "models/sam_vit_b_01ec64.pth"))
  /\ _resolve_checkpoint_path (H := nothing_installed) None (lit "vit_x")
     = Raises PathTypeError.
Proof.
  split.
  - apply (resolve_checkpoint_path_raises (H := nothing_installed)). split.
    + intros (p & [=] & _).
    + split; [done|]. split; [done|]. repeat constructor.
  - apply (resolve_checkpoint_path_raises (H := nothing_installed)). split.
    + intros (p & [=] & _).
    + reflexivity.
Defined.

Lemma extract_sam_params_object_witness :
  exists params,
    _extract_sam_params (Some object_config) [] = (Ok params, [])
    /\ params.*1 = default_params.*1
    /\ forall key,
         Colony.dict_get key params
         = if bool_decide (key ∈ default_params.*1)
           then updated_lookup default_params
                  [(lit "points_per_side", Colony.VInt 32);
                   (lit "box_nms_thresh", Colony.VFloat (7 # 10))] key
           else None.
Proof. apply (extract_sam_params_object object_config). reflexivity. Defined.

Lemma extract_sam_params_dict_witness :
  exists params,
    _extract_sam_params (Some dict_config) [] = (Ok params, [])
    /\ (forall key,
          Colony.dict_get key params
          = updated_lookup default_params
              [(lit "points_per_side", Colony.VInt 32);
               (lit "box_nms_thresh", Colony.VFloat (7 # 10))] key)
    /\ (forall key,
          key ∈ params.*1 <->
          key ∈ default_params.*1
          \/ key ∈ [(lit "points_per_side", Colony.VInt 32);
                    (lit "box_nms_thresh", Colony.VFloat (7 # 10))].*1).
Proof.
  apply (extract_sam_params_dict dict_config); [reflexivity|].
  simpl. constructor; [by intros [=]%list_elem_of_singleton|].
  constructor; [apply not_elem_of_nil | constructor].
Defined.

(** ** More on the colony analysis orchestrator *)


Section Extends.

Lemma extends_refl s : extends s s.
Proof. split; [done|]. intros l d Hl. by exists d. Qed.

Lemma extends_trans s1 s2 s3 : extends s1 s2 -> extends s2 s3 -> extends s1 s3.
Proof.
  intros [Hlog1 Hheap1] [Hlog2 Hheap2]. split; [by etrans|].
  intros l d Hl. destruct (Hheap1 l d Hl) as (d' & Hl' & Hpre).
  destruct (Hheap2 l d' Hl') as (d'' & Hl'' & Hpre'). exists d''.
  split; [done|]. by etrans.
Qed.

Lemma grows_ret {A} (a : A) : grows (ret a).
Proof. intros s. apply extends_refl. Qed.

Lemma grows_raise {A} e : grows (raise (A := A) e).
Proof. intros s. apply extends_refl. Qed.

Lemma grows_lift {A} (r : result A) : grows (lift r).
Proof. intros s. apply extends_refl. Qed.

Lemma grows_get : grows (get (S := state)).
Proof. intros s. apply extends_refl. Qed.

Lemma grows_bind {A B} (m : M state A) (k : A -> M state B) :
  grows m -> (forall a, grows (k a)) -> grows (bind m k).
Proof.
  intros Hm Hk s. unfold bind. specialize (Hm s).
  destruct (m s) as [[a|e] s1]; [|done].
  eapply extends_trans; [exact Hm | apply Hk].
Qed.

Lemma grows_try {A} (m : M state A) (h : exn -> M state A) :
  grows m -> (forall e, grows (h e)) -> grows (try_except m h).
Proof.
  intros Hm Hh s. unfold try_except. specialize (Hm s).
  destruct (m s) as [[a|e] s1]; [done|].
  eapply extends_trans; [exact Hm | apply Hh].
Qed.

Lemma grows_readonly {A} (m : M state A) : readonly m -> grows m.
Proof. intros Hro s. rewrite Hro. apply extends_refl. Qed.

Lemma grows_logging lv m : grows (logging lv m).
Proof.
  intros s. split; [by apply prefix_app_r|]. intros l d Hl. by exists d.
Qed.

Lemma grows_new_dict : grows new_dict.
Proof.
  intros s. split; [done|]. intros l d Hl. exists d. split; [|done].
  simpl. by apply lookup_app_l_Some.
Qed.

Lemma keys_set_prefix key v (d : list (list Z * value)) :
  d.*1 `prefix_of` (dict_set key v d).*1.
Proof.
  induction d as [|[k w] rest IH]; [apply prefix_nil|].
  cbn [dict_set]. destruct (decide (key = k)) as [->|Hne]; [done|].
  rewrite !fmap_cons. by apply prefix_cons.
Qed.

Lemma keys_update_prefix (new : list (list Z * value)) :
  forall d : list (list Z * value), d.*1 `prefix_of` (dict_update d new).*1.
Proof.
  unfold dict_update. induction new as [|[k v] rest IH]; intros d; [done|].
  simpl. etrans; [apply (keys_set_prefix k v)|apply IH].
Qed.

(** Replacing an object by one that keeps its keys in place. *)
Lemma extends_assign l d d' s :
  heap s !! l = Some d -> d.*1 `prefix_of` d'.*1 ->
  extends s {| heap := <[l := d']> (heap s); log := log s |}.
Proof.
  intros Hl Hpre. split; [done|]. intros l0 d0 Hl0. simpl.
  destruct (decide (l0 = l)) as [->|Hne].
  - exists d'. rewrite Hl in Hl0. injection Hl0 as <-.
    split; [|done]. apply list_lookup_insert_eq. by eapply lookup_lt_Some.
  - exists d0. by rewrite list_lookup_insert_ne.
Qed.

Lemma grows_setitem l k v : grows (setitem l k v).
Proof.
  intros s. run.
  destruct (heap s !! l) as [d|] eqn:Hl; [|apply extends_refl].
  apply (extends_assign l d); [done | apply keys_set_prefix].
Qed.

Lemma grows_setitem_value target k v : grows (setitem_value target k v).
Proof.
  destruct target; try apply grows_raise. apply grows_setitem.
Qed.

Lemma grows_update_value target new : grows (update_value target new).
Proof.
  destruct target; try apply grows_raise.
  intros s. unfold update_value. run.
  destruct (heap s !! l) as [d|] eqn:Hl; [|apply extends_refl].
  apply (extends_assign l d); [done | apply keys_update_prefix].
Qed.

End Extends.

(** One step of a proof that a computation only adds to the state. *)
Ltac grow_step :=
  lazymatch goal with
  | |- grows (ret _) => exact (grows_ret _)
  | |- grows (raise _) => exact (grows_raise _)
  | |- grows (lift _) => exact (grows_lift _)
  | |- grows get => exact grows_get
  | |- grows (logging _ _) => exact (grows_logging _ _)
  | |- grows new_dict => exact grows_new_dict
  | |- grows (setitem _ _ _) => exact (grows_setitem _ _ _)
  | |- grows (setitem_value _ _ _) => exact (grows_setitem_value _ _ _)
  | |- grows (update_value _ _) => exact (grows_update_value _ _)
  | |- grows (contains _ _) => exact (grows_readonly _ (readonly_contains _ _))
  | |- grows (getitem _ _) => exact (grows_readonly _ (readonly_getitem _ _))
  | |- grows (get_default _ _ _) =>
      exact (grows_readonly _ (readonly_get_default _ _ _))
  | |- grows (truthy _) => exact (grows_readonly _ (readonly_truthy _))
  | |- grows (below _ _) => exact (grows_readonly _ (readonly_below _ _))
  | |- grows (bind _ _) => apply grows_bind; [|intros ?]
  | |- grows (try_except _ _) => apply grows_try; [|intros ?]
  | |- grows (match ?x with _ => _ end) => destruct x
  | |- grows (if ?x then _ else _) => destruct x
  end.

Section OnlyAdds.
Context `{Collaborators} `{Rounding}.
Variable self : ColonyAnalyzer.

Lemma readonly_join_value sep v : readonly (join_value sep v).
Proof.
  destruct v; try (by intros st); simpl.
  - intros st. unfold bind, lift. by destruct (strings_of xs).
  - apply readonly_bind_deref. by intros d st.
Qed.

Lemma grows_ensure_mapping c k : grows (ensure_mapping c k).
Proof. unfold ensure_mapping. repeat grow_step. Qed.

Lemma grows_advanced c : grows (_perform_advanced_analysis self c).
Proof. unfold _perform_advanced_analysis. repeat grow_step. Qed.

Lemma grows_extract_features c exts : grows (extract_features c exts).
Proof.
  induction exts as [|t exts IH]; simpl; [apply grows_ret|].
  repeat grow_step. exact IH.
Qed.

Lemma grows_check_quality c : grows (check_quality c).
Proof. unfold check_quality. repeat grow_step. Qed.

Lemma grows_resolve c : grows (resolve_cross_boundary c).
Proof.
  unfold resolve_cross_boundary. repeat grow_step.
  apply grows_readonly, readonly_join_value.
Qed.

Lemma grows_run_pipeline c advanced : grows (run_pipeline self c advanced).
Proof.
  unfold run_pipeline.
  repeat first [exact (grows_extract_features _ _) | exact (grows_advanced _)
               | exact (grows_check_quality _) | grow_step].
Qed.

Lemma grows_analyze_colony c advanced : grows (analyze_colony self c advanced).
Proof.
  unfold analyze_colony.
  repeat first [exact (grows_ensure_mapping _ _) | exact (grows_run_pipeline _ _)
               | exact (grows_resolve _) | grow_step].
Qed.

Lemma grows_analyze_each colonies advanced :
  forall i acc, grows (analyze_each self i colonies advanced acc).
Proof.
  induction colonies as [|c rest IH]; intros i acc; simpl; [apply grows_ret|].
  repeat first [exact (grows_analyze_colony _ _) | exact (IH _ _) | grow_step].
Qed.

(** Property X22: [analyze_colony] and [analyze] only add to the store and
    to the log, collaborators that do not write to the store assumed: every
    object is still there afterwards, with its keys in their places, and the
    log entries stay; so no key of any record is ever removed. *)
Theorem analyze_only_adds colonies advanced s :
  (forall c, extends s (analyze_colony self c advanced s).2)
  /\ extends s (analyze self colonies advanced s).2
  /\ forall l d key,
       heap s !! l = Some d -> is_Some (dict_get key d) ->
       exists d', heap (analyze self colonies advanced s).2 !! l = Some d'
                  /\ is_Some (dict_get key d').
Proof.
  assert (grows (analyze self colonies advanced)) as Hgrows.
  { unfold analyze. destruct colonies as [|c rest]; [repeat grow_step|].
    repeat first [exact (grows_analyze_each _ _ _ _) | grow_step]. }
  split; [intros c; apply grows_analyze_colony|]. split; [apply Hgrows|].
  intros l d key Hl Hkey. destruct (Hgrows s) as [_ Hheap].
  destruct (Hheap l d Hl) as (d' & Hl' & Hpre). exists d'. split; [done|].
  apply dict_get_is_Some. apply dict_get_is_Some in Hkey.
  destruct Hpre as [extra ->]. apply elem_of_app. by left.
Qed.

End OnlyAdds.

Section Keeps.
Context {B : Type} (f : state -> B).

Lemma keeps_ret {A} (a : A) : keeps f (ret a).
Proof. by intros s. Qed.

Lemma keeps_raise {A} e : keeps f (raise (A := A) e).
Proof. by intros s. Qed.

Lemma keeps_lift {A} (r : result A) : keeps f (lift r).
Proof. by intros s. Qed.

Lemma keeps_get : keeps f (get (S := state)).
Proof. by intros s. Qed.

Lemma keeps_bind {A C} (m : M state A) (k : A -> M state C) :
  keeps f m -> (forall a, keeps f (k a)) -> keeps f (bind m k).
Proof.
  intros Hm Hk s. unfold bind. specialize (Hm s).
  destruct (m s) as [[a|e] s1]; simpl in Hm; [|done].
  by rewrite Hk.
Qed.

Lemma keeps_try {A} (m : M state A) (h : exn -> M state A) :
  keeps f m -> (forall e, keeps f (h e)) -> keeps f (try_except m h).
Proof.
  intros Hm Hh s. unfold try_except. specialize (Hm s).
  destruct (m s) as [[a|e] s1]; simpl in Hm; [done|].
  by rewrite Hh.
Qed.

Lemma keeps_readonly {A} (m : M state A) : readonly m -> keeps f m.
Proof. intros Hro s. by rewrite Hro. Qed.

End Keeps.

Lemma keeps_log_new_dict : keeps log new_dict.
Proof. by intros s. Qed.

Lemma keeps_log_setitem l k v : keeps log (setitem l k v).
Proof. intros s. run. by destruct (heap s !! l). Qed.

Lemma keeps_log_setitem_value target k v : keeps log (setitem_value target k v).
Proof. destruct target; try apply keeps_raise. apply keeps_log_setitem. Qed.

Lemma keeps_log_update_value target new : keeps log (update_value target new).
Proof.
  destruct target; try apply keeps_raise.
  intros s. unfold update_value. run. by destruct (heap s !! l).
Qed.

Lemma keeps_objects_logging lv m : keeps objects (logging lv m).
Proof. by intros s. Qed.

Lemma keeps_objects_setitem l k v : keeps objects (setitem l k v).
Proof.
  intros s. run. destruct (heap s !! l); [|done].
  unfold objects. simpl. apply length_insert.
Qed.

Lemma keeps_objects_setitem_value target k v :
  keeps objects (setitem_value target k v).
Proof. destruct target; try apply keeps_raise. apply keeps_objects_setitem. Qed.

Lemma keeps_objects_update_value target new :
  keeps objects (update_value target new).
Proof.
  destruct target; try apply keeps_raise.
  intros s. unfold update_value. run. destruct (heap s !! l); [|done].
  unfold objects. simpl. apply length_insert.
Qed.

(** One step of a proof that a computation keeps a part of the state. *)
Ltac keep_step :=
  lazymatch goal with
  | |- keeps _ (ret _) => exact (keeps_ret _ _)
  | |- keeps _ (raise _) => exact (keeps_raise _ _)
  | |- keeps _ (lift _) => exact (keeps_lift _ _)
  | |- keeps _ get => exact (keeps_get _)
  | |- keeps log new_dict => exact keeps_log_new_dict
  | |- keeps log (setitem _ _ _) => exact (keeps_log_setitem _ _ _)
  | |- keeps log (setitem_value _ _ _) => exact (keeps_log_setitem_value _ _ _)
  | |- keeps log (update_value _ _) => exact (keeps_log_update_value _ _)
  | |- keeps objects (logging _ _) => exact (keeps_objects_logging _ _)
  | |- keeps objects (setitem _ _ _) => exact (keeps_objects_setitem _ _ _)
  | |- keeps objects (setitem_value _ _ _) =>
      exact (keeps_objects_setitem_value _ _ _)
  | |- keeps objects (update_value _ _) =>
      exact (keeps_objects_update_value _ _)
  | |- keeps _ (contains _ _) => exact (keeps_readonly _ _ (readonly_contains _ _))
  | |- keeps _ (getitem _ _) => exact (keeps_readonly _ _ (readonly_getitem _ _))
  | |- keeps _ (get_default _ _ _) =>
      exact (keeps_readonly _ _ (readonly_get_default _ _ _))
  | |- keeps _ (truthy _) => exact (keeps_readonly _ _ (readonly_truthy _))
  | |- keeps _ (below _ _) => exact (keeps_readonly _ _ (readonly_below _ _))
  | |- keeps _ (bind _ _) => apply keeps_bind; [|intros ?]
  | |- keeps _ (try_except _ _) => apply keeps_try; [|intros ?]
  | |- keeps _ (match ?x with _ => _ end) => destruct x
  | |- keeps _ (if ?x then _ else _) => destruct x
  end.

Section Advanced.
Context `{Collaborators} `{Rounding}.
Variable self : ColonyAnalyzer.
Variable c : nat.

Lemma fresh_mapping_at key d s :
  heap s !! c = Some d -> dict_get key d = None ->
  (fresh <~ new_dict ;; setitem c key (VDict fresh)) s
  = (Ok tt,
     {| heap := <[c := d ++ [(key, VDict (length (heap s)))]]> (heap s) ++ [[]];
        log := log s |}).
Proof.
  intros Hc Hk. pose proof (ensure_mapping_absent c key d s Hc Hk) as Hrun.
  unfold ensure_mapping in Hrun. unfold bind at 1 in Hrun.
  rewrite (contains_at c key d) in Hrun by done. rewrite Hk in Hrun.
  by rewrite bool_decide_eq_false_2 in Hrun by (by intros [? ?]).
Qed.

(** Property X23: [_perform_advanced_analysis] never raises,
    in any state and with any collaborators; it logs nothing, or exactly one
    error. *)
Theorem advanced_analysis_never_raises s :
  exists s',
    _perform_advanced_analysis self c s = (Ok tt, s')
    /\ (log s' = log s \/ exists e, log s' = log s ++ [(ERROR, AdvancedFailed e)]).
Proof.
  unfold _perform_advanced_analysis, try_except.
  match goal with |- context [match ?body s with _ => _ end] =>
    assert (keeps log body) as Hsilent by repeat keep_step;
    specialize (Hsilent s); destruct (body s) as [[[]|e] s1] end;
    simpl in Hsilent.
  - exists s1. split; [done|]. by left.
  - eexists. split; [reflexivity|]. right. exists e. simpl. by rewrite Hsilent.
Qed.

(** Property X24: when there is a SAM model but the diffusion zone
    cannot be had, because the record lacks [img] or [mask] or because
    [find_diffusion_zone] raises, [_perform_advanced_analysis] leaves the
    store as it was and logs one error, with that exception. *)
Theorem advanced_analysis_failure s d find_diffusion_zone e :
  sam_model self = Some find_diffusion_zone ->
  heap s !! c = Some d ->
  match dict_get (lit "img") d, dict_get (lit "mask") d with
  | Some img, Some mask => find_diffusion_zone img mask = Raise e
  | Some _, None => e = KeyError (lit "mask")
  | None, _ => e = KeyError (lit "img")
  end ->
  _perform_advanced_analysis self c s = (Ok tt, logged ERROR (AdvancedFailed e) s).
Proof.
  intros Hsam Hc Hfail.
  unfold _perform_advanced_analysis, try_except. rewrite Hsam.
  unfold bind at 1. cbn [ret]. unfold bind at 1. unfold getitem at 1.
  unfold bind at 1. rewrite (deref_at c d) by done.
  destruct (dict_get (lit "img") d) as [img|]; [|by subst e].
  cbn [ret]. unfold bind at 1. unfold getitem at 1.
  unfold bind at 1. rewrite (deref_at c d) by done.
  destruct (dict_get (lit "mask") d) as [mask|]; [|by subst e].
  cbn [ret]. unfold bind at 1. unfold lift. by rewrite Hfail.
Qed.

(** Property X25: when nothing fails, on a record without
    [advanced_masks]: the record gets a new mapping under [advanced_masks]
    that holds the zone under [diffusion]; the features get
    [metabolite_diffusion_ratio], the quotient of the two sums rounded to a
    float, or 0 when the sum over the colony mask is not positive; nothing
    else changes and nothing is logged. *)
Theorem advanced_analysis_success s d find_diffusion_zone img mask diffusion_mask
    lf features diffusion_area colony_area :
  sam_model self = Some find_diffusion_zone ->
  heap s !! c = Some d ->
  dict_get (lit "img") d = Some img ->
  dict_get (lit "mask") d = Some mask ->
  find_diffusion_zone img mask = Ok diffusion_mask ->
  dict_get (lit "advanced_masks") d = None ->
  dict_get (lit "features") d = Some (VDict lf) ->
  lf <> c -> heap s !! lf = Some features ->
  np_sum diffusion_mask = Ok diffusion_area ->
  np_sum mask = Ok colony_area ->
  let ratio := if Qltb 0 colony_area then fround (diffusion_area / colony_area)
               else 0%Q in
  _perform_advanced_analysis self c s
  = (Ok tt,
     {| heap :=
          <[lf := dict_set (lit "metabolite_diffusion_ratio") (VFloat ratio) features]>
            (<[c := d ++ [(lit "advanced_masks", VDict (length (heap s)))]]> (heap s))
          ++ [[(lit "diffusion", diffusion_mask)]];
        log := log s |}).
Proof.
  intros Hsam Hc Himg Hmask Hzone Hadv Hfeat Hlf Hf Hda Hca ratio.
  pose proof (lookup_lt_Some _ _ _ Hc) as Hclt.
  pose proof (lookup_lt_Some _ _ _ Hf) as Hflt.
  unfold _perform_advanced_analysis, try_except. rewrite Hsam.
  unfold bind at 1. cbn [ret].
  unfold bind at 1. rewrite (getitem_at c _ d img) by done.
  unfold bind at 1. rewrite (getitem_at c _ d mask) by done.
  unfold bind at 1. unfold lift at 1. rewrite Hzone.
  unfold bind at 1. rewrite (contains_at c _ d) by done. rewrite Hadv.
  rewrite bool_decide_eq_false_2 by (by intros [? ?]).
  unfold bind at 1. rewrite (fresh_mapping_at _ d) by done.
  set (n := length (heap s)).
  set (d1 := d ++ [(lit "advanced_masks", VDict n)]).
  set (s1 := {| heap := <[c := d1]> (heap s) ++ [[]]; log := log s |}).
  assert (length (<[c := d1]> (heap s)) = n) as Hlen by apply length_insert.
  assert (heap s1 !! c = Some d1) as Hc1.
  { simpl. rewrite lookup_app_l by lia. by apply list_lookup_insert_eq. }
  assert (heap s1 !! n = Some []) as Hn1.
  { simpl. rewrite lookup_app_r by lia. by rewrite Hlen, Nat.sub_diag. }
  unfold bind at 1. rewrite (getitem_at c _ d1 (VDict n))
    by (try done; by apply dict_get_app_new).
  unfold bind at 1. cbn [setitem_value]. rewrite (setitem_at n _ _ []) by done.
  set (s2 := {| heap := <[n := dict_set (lit "diffusion") diffusion_mask []]> (heap s1);
                log := log s1 |}).
  assert (heap s2 !! c = Some d1) as Hc2.
  { simpl. rewrite list_lookup_insert_ne by lia. exact Hc1. }
  assert (heap s2 !! lf = Some features) as Hf2.
  { simpl. rewrite list_lookup_insert_ne by lia.
    rewrite lookup_app_l by lia. by rewrite list_lookup_insert_ne. }
  unfold bind at 1. unfold lift at 1. rewrite Hda.
  unfold bind at 1. rewrite (getitem_at c _ d1 mask)
    by (try done; unfold d1; by rewrite dict_get_app_ne).
  unfold bind at 1. unfold lift at 1. rewrite Hca.
  unfold bind at 1. rewrite (getitem_at c _ d1 (VDict lf))
    by (try done; unfold d1; by rewrite dict_get_app_ne).
  cbn [setitem_value]. rewrite (setitem_at lf _ _ features) by done.
  f_equal. unfold s2, s1. simpl. f_equal.
  rewrite insert_app_r_alt by lia. rewrite Hlen, Nat.sub_diag. simpl.
  by rewrite insert_app_l by lia.
Qed.

End Advanced.

Section Record.
Context `{Collaborators} `{Rounding}.
Variable self : ColonyAnalyzer.
Variable c : nat.

Lemma ensure_mapping_present key d s :
  heap s !! c = Some d -> is_Some (dict_get key d) ->
  ensure_mapping c key s = (Ok tt, s).
Proof.
  intros Hc Hk. unfold ensure_mapping. unfold bind at 1.
  rewrite (contains_at c key d) by done. by rewrite bool_decide_eq_true_2.
Qed.

(** Property X26: for a record that lacks [img] or [mask] and
    holds its three mappings already, [analyze_colony] changes nothing in the
    store: it logs the warning, with the [id] of the record or ["unknown"],
    and returns the record. *)
Theorem analyze_colony_incomplete_record advanced s d :
  heap s !! c = Some d ->
  is_Some (dict_get (lit "features") d) ->
  is_Some (dict_get (lit "scores") d) ->
  is_Some (dict_get (lit "phenotype") d) ->
  dict_get (lit "img") d = None \/ dict_get (lit "mask") d = None ->
  analyze_colony self c advanced s
  = (Ok c,
     logged WARNING
       (MissingData (default (VStr (lit "unknown")) (dict_get (lit "id") d))) s).
Proof.
  intros Hc Hf Hs Hp Hmiss. unfold analyze_colony.
  unfold bind at 1. rewrite (ensure_mapping_present _ d) by done.
  unfold bind at 1. rewrite (ensure_mapping_present _ d) by done.
  unfold bind at 1. rewrite (ensure_mapping_present _ d) by done.
  unfold bind at 1. rewrite (contains_at _ _ d) by done.
  unfold bind at 1. rewrite (contains_at _ _ d) by done.
  assert (negb (bool_decide (is_Some (dict_get (lit "img") d)))
          || negb (bool_decide (is_Some (dict_get (lit "mask") d))) = true) as ->.
  { destruct Hmiss as [-> | ->].
    - rewrite bool_decide_eq_false_2 by (by intros [? ?]). done.
    - rewrite (bool_decide_eq_false_2 (is_Some None)) by (by intros [? ?]).
      apply orb_true_r. }
  unfold bind at 1. by rewrite (get_default_at _ _ _ d) by done.
Qed.

Lemma strings_of_non_string (wells : list value) :
  Exists (fun v => forall w, v <> VStr w) wells ->
  strings_of wells = Raise TypeError.
Proof.
  induction 1 as [v rest Hv | v rest Hex IH].
  - destruct v; try done. by destruct (Hv s).
  - destruct v; try done. cbn [strings_of]. by rewrite IH.
Qed.

(** Property X27: when [overlapping_wells] is a list with an item
    that is not a string, the last step of [analyze_colony] raises [TypeError]
    after it has written [special_case]: the phenotype keeps [special_case]
    and gets no [affected_wells]. *)
Theorem cross_boundary_non_string_well s d lp p wells :
  heap s !! c = Some d ->
  dict_get (lit "cross_boundary") d = Some (VBool true) ->
  dict_get (lit "overlapping_wells") d = Some (VList wells) ->
  Exists (fun v => forall w, v <> VStr w) wells ->
  dict_get (lit "phenotype") d = Some (VDict lp) ->
  lp <> c -> heap s !! lp = Some p ->
  resolve_cross_boundary c s
  = (Raise TypeError,
     {| heap := <[lp := dict_set (lit "special_case") (VStr (lit "cross_boundary")) p]>
                  (heap s);
        log := log s |}).
Proof.
  intros Hc Hcb Hwells Hbad Hph Hlp Hp.
  unfold resolve_cross_boundary.
  unfold bind at 1. rewrite (get_default_at _ _ _ d) by done. rewrite Hcb.
  unfold bind at 1. cbn [default from_option id truthy ret].
  unfold bind at 1. rewrite (getitem_at _ _ d (VDict lp)) by done.
  unfold bind at 1. cbn [setitem_value]. rewrite (setitem_at _ _ _ p) by done.
  set (s1 := {| heap := <[lp := _]> (heap s); log := log s |}).
  assert (heap s1 !! c = Some d) as Hc1 by (simpl; by rewrite list_lookup_insert_ne).
  unfold bind at 1. rewrite (get_default_at _ _ _ d) by done. rewrite Hwells.
  cbn [default from_option id].
  unfold bind at 1. cbn [truthy ret].
  rewrite bool_decide_eq_false_2 by (intros ->; by apply Exists_nil in Hbad).
  cbn [negb]. unfold bind at 1. unfold join_value. unfold bind at 1. unfold lift.
  by rewrite (strings_of_non_string wells Hbad).
Qed.

(** Property X28: when [overlapping_wells] is one string that is not
    empty, and not a list, its characters are joined: from ["A1"] the
    phenotype gets the [affected_wells] ["A, 1"]. *)
Theorem cross_boundary_one_string s d lp p ch well :
  heap s !! c = Some d ->
  dict_get (lit "cross_boundary") d = Some (VBool true) ->
  dict_get (lit "overlapping_wells") d = Some (VStr (ch :: well)) ->
  dict_get (lit "phenotype") d = Some (VDict lp) ->
  lp <> c -> heap s !! lp = Some p ->
  resolve_cross_boundary c s
  = (Ok tt,
     {| heap :=
          <[lp := dict_set (lit "affected_wells")
                    (VStr (join (lit ", ") ((fun ch => [ch]) <$> ch :: well)))
                    (dict_set (lit "special_case") (VStr (lit "cross_boundary")) p)]>
            (heap s);
        log := log s |}).
Proof.
  intros Hc Hcb Hwells Hph Hlp Hp.
  pose proof (lookup_lt_Some _ _ _ Hp) as Hlt.
  unfold resolve_cross_boundary.
  unfold bind at 1. rewrite (get_default_at _ _ _ d) by done. rewrite Hcb.
  unfold bind at 1. cbn [default from_option id truthy ret].
  unfold bind at 1. rewrite (getitem_at _ _ d (VDict lp)) by done.
  unfold bind at 1. cbn [setitem_value]. rewrite (setitem_at _ _ _ p) by done.
  set (p1 := dict_set (lit "special_case") (VStr (lit "cross_boundary")) p).
  set (s1 := {| heap := <[lp := p1]> (heap s); log := log s |}).
  assert (heap s1 !! c = Some d) as Hc1 by (simpl; by rewrite list_lookup_insert_ne).
  assert (heap s1 !! lp = Some p1) as Hp1 by (simpl; by apply list_lookup_insert_eq).
  unfold bind at 1. rewrite (get_default_at _ _ _ d) by done. rewrite Hwells.
  cbn [default from_option id].
  unfold bind at 1. cbn [truthy ret].
  rewrite bool_decide_eq_false_2 by done. cbn [negb].
  unfold bind at 1. cbn [join_value ret].
  unfold bind at 1. rewrite (getitem_at _ _ d (VDict lp)) by done.
  cbn [setitem_value]. rewrite (setitem_at _ _ _ p1) by done. simpl.
  by rewrite list_insert_insert_eq.
Qed.

(** ** A second analysis *)

Lemma ensure_mapping_returns key d s :
  heap s !! c = Some d ->
  exists s' d',
    ensure_mapping c key s = (Ok tt, s') /\ extends s s'
    /\ heap s' !! c = Some d' /\ is_Some (dict_get key d').
Proof.
  intros Hc. destruct (dict_get key d) as [v|] eqn:Hk.
  - exists s, d. rewrite (ensure_mapping_present key d) by (try done; eauto).
    split; [done|]. split; [apply extends_refl|]. split; [done|]. eauto.
  - pose proof (lookup_lt_Some _ _ _ Hc) as Hlt.
    eexists _, _. split; [by apply ensure_mapping_absent|].
    split; [|split].
    + pose proof (grows_ensure_mapping c key s) as Hgrows.
      by rewrite (ensure_mapping_absent c key d s Hc Hk) in Hgrows.
    + simpl. rewrite lookup_app_l by (by rewrite length_insert).
      by apply list_lookup_insert_eq.
    + rewrite dict_get_app_new by done. eauto.
Qed.

Lemma extends_has_key s s' key d :
  extends s s' -> heap s !! c = Some d -> is_Some (dict_get key d) ->
  exists d', heap s' !! c = Some d' /\ is_Some (dict_get key d').
Proof.
  intros [_ Hheap] Hc Hk. destruct (Hheap c d Hc) as (d' & Hc' & [extra Hpre]).
  exists d'. split; [done|]. apply dict_get_is_Some. rewrite Hpre.
  apply elem_of_app. left. by apply dict_get_is_Some.
Qed.

Lemma keeps_objects_extract_features exts :
  keeps objects (extract_features c exts).
Proof.
  induction exts as [|t exts IH]; simpl; [apply keeps_ret|].
  repeat first [exact IH | keep_step].
Qed.

Lemma keeps_objects_without_advanced :
  keeps objects
    (has_img <~ contains c (lit "img") ;;
     has_mask <~ contains c (lit "mask") ;;
     if negb has_img || negb has_mask then
       id <~ get_default c (lit "id") (VStr (lit "unknown")) ;;
       logging WARNING (MissingData id) ;;;
       ret c
     else
       run_pipeline self c false ;;;
       resolve_cross_boundary c ;;;
       ret c).
Proof.
  apply keeps_bind; [keep_step|intros has_img].
  apply keeps_bind; [keep_step|intros has_mask].
  destruct (negb has_img || negb has_mask); [repeat keep_step|].
  apply keeps_bind; [|intros ?; apply keeps_bind; [|intros ?; apply keeps_ret]].
  - unfold run_pipeline, check_quality. cbn [andb].
    repeat first [exact (keeps_objects_extract_features _) | keep_step].
  - unfold resolve_cross_boundary.
    repeat first [exact (keeps_readonly _ _ (readonly_join_value _ _)) | keep_step].
Qed.

(** Property X29: after one run of [analyze_colony] on a record,
    whether it returned or raised, the record holds [features], [scores] and
    [phenotype]; a second run without the advanced analysis creates no object
    in the store. *)
Theorem analyze_colony_again s d :
  heap s !! c = Some d ->
  let s1 := (analyze_colony self c false s).2 in
  objects (analyze_colony self c false s1).2 = objects s1
  /\ exists d1, heap s1 !! c = Some d1
                /\ Forall (fun key => is_Some (dict_get key d1))
                     [lit "features"; lit "scores"; lit "phenotype"].
Proof.
  intros Hc s1.
  destruct (ensure_mapping_returns (lit "features") d s Hc)
    as (sa & da & Ha & Hxa & Hca & Hfa).
  destruct (ensure_mapping_returns (lit "scores") da sa Hca)
    as (sb & db & Hb & Hxb & Hcb & Hsb).
  destruct (ensure_mapping_returns (lit "phenotype") db sb Hcb)
    as (sc & dc & Hc3 & Hxc & Hcc & Hpc).
  set (rest :=
         has_img <~ contains c (lit "img") ;;
         has_mask <~ contains c (lit "mask") ;;
         if negb has_img || negb has_mask then
           id <~ get_default c (lit "id") (VStr (lit "unknown")) ;;
           logging WARNING (MissingData id) ;;;
           ret c
         else
           run_pipeline self c false ;;;
           resolve_cross_boundary c ;;;
           ret c).
  assert (grows rest) as Hgrows.
  { unfold rest.
    repeat first [exact (grows_run_pipeline _ _ _) | exact (grows_resolve _)
                 | grow_step]. }
  assert (s1 = (rest sc).2) as Hs1.
  { unfold s1, analyze_colony. unfold bind at 1. rewrite Ha.
    unfold bind at 1. rewrite Hb. unfold bind at 1. by rewrite Hc3. }
  assert (exists d1, heap s1 !! c = Some d1
                     /\ is_Some (dict_get (lit "features") d1)
                     /\ is_Some (dict_get (lit "scores") d1)
                     /\ is_Some (dict_get (lit "phenotype") d1)) as Hkeys.
  { destruct (extends_has_key sa sb _ da Hxb Hca Hfa) as (db' & Hcb' & Hfb).
    rewrite Hcb in Hcb'. injection Hcb' as <-.
    destruct (extends_has_key sb sc _ db Hxc Hcb Hfb) as (dc' & Hcc' & Hfc).
    rewrite Hcc in Hcc'. injection Hcc' as <-.
    destruct (extends_has_key sb sc _ db Hxc Hcb Hsb) as (dc' & Hcc' & Hsc).
    rewrite Hcc in Hcc'. injection Hcc' as <-.
    specialize (Hgrows sc). rewrite <- Hs1 in Hgrows.
    destruct (extends_has_key sc s1 _ dc Hgrows Hcc Hfc) as (d1 & Hc1 & Hf1).
    destruct (extends_has_key sc s1 _ dc Hgrows Hcc Hsc) as (d1' & Hc1' & Hs1').
    rewrite Hc1 in Hc1'. injection Hc1' as <-.
    destruct (extends_has_key sc s1 _ dc Hgrows Hcc Hpc) as (d1' & Hc1' & Hp1').
    rewrite Hc1 in Hc1'. injection Hc1' as <-.
    by exists d1. }
  destruct Hkeys as (d1 & Hc1 & Hf1 & Hs1' & Hp1). split.
  - unfold analyze_colony.
    unfold bind at 1. rewrite (ensure_mapping_present _ d1) by done.
    unfold bind at 1. rewrite (ensure_mapping_present _ d1) by done.
    unfold bind at 1. rewrite (ensure_mapping_present _ d1) by done.
    apply keeps_objects_without_advanced.
  - exists d1. split; [done|]. by repeat constructor.
Qed.

(** ** A complete record *)

Lemma extract_features_at d img mask lf (fs : extractor_type -> list (list Z * value))
    exts :
  dict_get (lit "img") d = Some img ->
  dict_get (lit "mask") d = Some mask ->
  dict_get (lit "features") d = Some (VDict lf) ->
  lf <> c ->
  (forall t h, extract t h img mask = Ok (fs t)) ->
  forall s features,
    heap s !! c = Some d -> heap s !! lf = Some features ->
    extract_features c exts s
    = (Ok tt,
       {| heap := <[lf := foldl (fun acc t => dict_update acc (fs t)) features exts]>
                    (heap s);
          log := log s |}).
Proof.
  intros Himg Hmask Hfeat Hlf Hext.
  induction exts as [|t exts IH]; intros s features Hc Hf.
  - simpl. unfold ret. rewrite list_insert_id by done. by destruct s.
  - pose proof (lookup_lt_Some _ _ _ Hf) as Hlt.
    cbn [extract_features foldl].
    unfold bind at 1. rewrite (getitem_at c _ d img) by done.
    unfold bind at 1. rewrite (getitem_at c _ d mask) by done.
    unfold bind at 1. unfold get at 1.
    unfold bind at 1. unfold lift at 1. rewrite Hext.
    unfold bind at 1. rewrite (getitem_at c _ d (VDict lf)) by done.
    unfold bind at 1. cbn [update_value].
    unfold bind at 1. rewrite (deref_at lf features) by done.
    unfold assign, modify.
    rewrite (IH _ (dict_update features (fs t))).
    + simpl. by rewrite list_insert_insert_eq.
    + simpl. by rewrite list_lookup_insert_ne.
    + simpl. by apply list_lookup_insert_eq.
Qed.

(** Property X30: for a record with [img] and [mask] and none of
    [features], [scores], [phenotype], [quality_score], [cross_boundary],
    without the advanced analysis and with collaborators that do not fail:
    [analyze_colony] returns the record, nothing is logged, the record gets
    its three mappings, the outputs of the extractors are merged into
    [features] in the order of the extractors, a later one overwriting an
    earlier one, and [scores] and [phenotype] hold what the scoring system
    makes of these features; no other object changes. *)
Theorem analyze_colony_complete_record s d img mask
    (fs : extractor_type -> list (list Z * value))
    (scores_of phenotype_of : list (list Z * value) -> list (list Z * value)) :
  heap s !! c = Some d ->
  dict_get (lit "img") d = Some img ->
  dict_get (lit "mask") d = Some mask ->
  Forall (fun key => dict_get key d = None)
    [lit "features"; lit "scores"; lit "phenotype"; lit "quality_score";
     lit "cross_boundary"] ->
  (forall t h, extract t h img mask = Ok (fs t)) ->
  (forall h l features, h !! l = Some features ->
     calculate_scores h (VDict l) = Ok (scores_of features)) ->
  (forall h l features, h !! l = Some features ->
     classify_phenotype h (VDict l) = Ok (phenotype_of features)) ->
  let n := length (heap s) in
  let features :=
    foldl (fun acc t => dict_update acc (fs t)) [] (feature_extractors self) in
  analyze_colony self c false s
  = (Ok c,
     {| heap :=
          <[c := d ++ [(lit "features", VDict n); (lit "scores", VDict (S n));
                       (lit "phenotype", VDict (S (S n)))]]> (heap s)
          ++ [features; dict_update [] (scores_of features);
              dict_update [] (phenotype_of features)];
        log := log s |}).
Proof.
  intros Hc Himg Hmask Hnone Hext Hscores Hpheno n features.
  apply Forall_cons in Hnone as [Hf Hnone].
  apply Forall_cons in Hnone as [Hs Hnone].
  apply Forall_cons in Hnone as [Hp Hnone].
  apply Forall_cons in Hnone as [Hq Hnone].
  apply Forall_cons in Hnone as [Hx _].
  pose proof (lookup_lt_Some _ _ _ Hc) as Hlt.
  unfold analyze_colony.
  unfold bind at 1. rewrite (ensure_mapping_absent _ _ d) by done.
  set (d1 := d ++ [(lit "features", VDict (length (heap s)))]).
  set (s1 := {| heap := <[c := d1]> (heap s) ++ [[]]; log := log s |}).
  assert (heap s1 !! c = Some d1) as Hc1.
  { simpl. rewrite lookup_app_l by (by rewrite length_insert).
    by apply list_lookup_insert_eq. }
  unfold bind at 1. rewrite (ensure_mapping_absent _ _ d1) by
    (try done; unfold d1; by rewrite dict_get_app_ne).
  set (d2 := d1 ++ [(lit "scores", VDict (length (heap s1)))]).
  set (s2 := {| heap := <[c := d2]> (heap s1) ++ [[]]; log := log s1 |}).
  assert (heap s2 !! c = Some d2) as Hc2.
  { simpl. rewrite lookup_app_l
      by (rewrite length_insert, length_app, length_insert; lia).
    apply list_lookup_insert_eq. rewrite length_app, length_insert. lia. }
  unfold bind at 1. rewrite (ensure_mapping_absent _ _ d2) by
    (try done; unfold d2, d1; by rewrite !dict_get_app_ne).
  set (d3 := d2 ++ [(lit "phenotype", VDict (length (heap s2)))]).
  set (s3 := {| heap := <[c := d3]> (heap s2) ++ [[]]; log := log s2 |}).
  set (d' := d ++ [(lit "features", VDict n); (lit "scores", VDict (S n));
                   (lit "phenotype", VDict (S (S n)))]).
  assert (d3 = d') as Hd3.
  { unfold d3, d2, d1, d'. simpl.
    rewrite !length_app, !length_insert, length_app, length_insert. simpl.
    fold n. rewrite <- !app_assoc. simpl.
    by replace (n + 1 + 1)%nat with (S (S n)) by lia;
       replace (n + 1)%nat with (S n) by lia. }
  assert (heap s3 = <[c := d']> (heap s) ++ [[]; []; []]) as Hheap.
  { rewrite <- Hd3. simpl.
    rewrite !insert_app_l
      by (rewrite ?length_app, ?length_insert, ?length_app, ?length_insert; lia).
    rewrite !list_insert_insert_eq. by rewrite <- !app_assoc. }
  assert (length (<[c := d']> (heap s)) = n) as Hlen by apply length_insert.
  assert (log s3 = log s) as Hlog by done.
  clearbody s3.
  assert (dict_get (lit "features") d' = Some (VDict n)) as Hf'.
  { unfold d'. change (d ++ _) with
      (d ++ [(lit "features", VDict n)] ++ [(lit "scores", VDict (S n))]
         ++ [(lit "phenotype", VDict (S (S n)))]).
    rewrite !app_assoc. rewrite !dict_get_app_ne by done.
    by apply dict_get_app_new. }
  assert (dict_get (lit "scores") d' = Some (VDict (S n))) as Hs'.
  { unfold d'. change (d ++ _) with
      (d ++ [(lit "features", VDict n)] ++ [(lit "scores", VDict (S n))]
         ++ [(lit "phenotype", VDict (S (S n)))]).
    rewrite !app_assoc. rewrite dict_get_app_ne by done.
    apply dict_get_app_new. by rewrite dict_get_app_ne. }
  assert (dict_get (lit "phenotype") d' = Some (VDict (S (S n)))) as Hp'.
  { unfold d'. change (d ++ _) with
      (d ++ [(lit "features", VDict n)] ++ [(lit "scores", VDict (S n))]
         ++ [(lit "phenotype", VDict (S (S n)))]).
    rewrite !app_assoc. apply dict_get_app_new. by rewrite !dict_get_app_ne. }
  assert (forall k, k <> lit "features" -> k <> lit "scores" ->
            k <> lit "phenotype" -> dict_get k d' = dict_get k d) as Hsame.
  { intros k ? ? ?. unfold d'. change (d ++ _) with
      (d ++ [(lit "features", VDict n)] ++ [(lit "scores", VDict (S n))]
         ++ [(lit "phenotype", VDict (S (S n)))]).
    rewrite !app_assoc. by rewrite !dict_get_app_ne. }
  assert (heap s3 !! c = Some d') as Hc3.
  { rewrite Hheap, lookup_app_l by lia. by apply list_lookup_insert_eq. }
  assert (heap s3 !! n = Some []) as Hn3.
  { rewrite Hheap, lookup_app_r by lia. by rewrite Hlen, Nat.sub_diag. }
  unfold bind at 1. rewrite (contains_at _ _ d') by done.
  unfold bind at 1. rewrite (contains_at _ _ d') by done.
  rewrite !Hsame by done. rewrite Himg, Hmask.
  rewrite !bool_decide_eq_true_2 by eauto. cbn [negb orb].
  unfold bind at 1. unfold run_pipeline.
  unfold bind at 1.
  rewrite (extract_features_at d' img mask n fs (feature_extractors self))
    with (features := [])
    by (try done; try lia; by rewrite Hsame).
  fold features.
  set (s4 := {| heap := <[n := features]> (heap s3); log := log s3 |}).
  assert (length (heap s3) = S (S (S n))) as Hlen3.
  { rewrite Hheap, length_app, Hlen. simpl. lia. }
  assert (heap s4 !! c = Some d') as Hc4
    by (simpl; by rewrite list_lookup_insert_ne by lia).
  assert (heap s4 !! n = Some features) as Hn4
    by (simpl; apply list_lookup_insert_eq; lia).
  assert (heap s4 !! S n = Some []) as Hs4.
  { simpl. rewrite list_lookup_insert_ne by lia.
    rewrite Hheap, lookup_app_r by lia. rewrite Hlen.
    by replace (S n - n)%nat with 1%nat by lia. }
  unfold bind at 1. rewrite (getitem_at c _ d' (VDict n)) by done.
  unfold bind at 1. unfold get at 1.
  unfold bind at 1. unfold lift at 1. rewrite (Hscores _ n features) by done.
  unfold bind at 1. rewrite (getitem_at c _ d' (VDict (S n))) by done.
  unfold bind at 1. cbn [update_value].
  unfold bind at 1. rewrite (deref_at (S n) []) by done.
  unfold assign, modify.
  set (s5 := {| heap := <[S n := dict_update [] (scores_of features)]> (heap s4);
                log := log s4 |}).
  assert (heap s5 !! c = Some d') as Hc5
    by (simpl; by rewrite !list_lookup_insert_ne by lia).
  assert (heap s5 !! n = Some features) as Hn5.
  { simpl. rewrite list_lookup_insert_ne by lia. exact Hn4. }
  assert (heap s5 !! S (S n) = Some []) as Hp5.
  { simpl. rewrite !list_lookup_insert_ne by lia.
    rewrite Hheap, lookup_app_r by lia. rewrite Hlen.
    by replace (S (S n) - n)%nat with 2%nat by lia. }
  unfold bind at 1. rewrite (getitem_at c _ d' (VDict n)) by done.
  unfold bind at 1. unfold get at 1.
  unfold bind at 1. unfold lift at 1. rewrite (Hpheno _ n features) by done.
  unfold bind at 1. rewrite (getitem_at c _ d' (VDict (S (S n)))) by done.
  unfold bind at 1. cbn [update_value].
  unfold bind at 1. rewrite (deref_at (S (S n)) []) by done.
  unfold assign, modify.
  set (s6 := {| heap := <[S (S n) := dict_update [] (phenotype_of features)]> (heap s5);
                log := log s5 |}).
  assert (heap s6 !! c = Some d') as Hc6
    by (simpl; by rewrite !list_lookup_insert_ne by lia).
  cbn [andb]. unfold bind at 1. cbn [ret].
  unfold check_quality.
  unfold bind at 1. rewrite (get_default_at c _ _ d') by done.
  rewrite Hsame, Hq by done. cbn [default from_option id].
  unfold bind at 1. cbn [below ret].
  assert (Qltb (1 # 2) float_0_3 = false) as -> by (by vm_compute).
  cbn [ret].
  unfold bind at 1. unfold resolve_cross_boundary.
  unfold bind at 1. rewrite (get_default_at c _ _ d') by done.
  rewrite Hsame, Hx by done. cbn [default from_option id].
  unfold bind at 1. cbn [truthy ret].
  unfold ret. f_equal. unfold s6, s5, s4. simpl. rewrite Hlog. f_equal.
  rewrite Hheap.
  rewrite (insert_app_r_alt _ _ n) by lia. rewrite Hlen, Nat.sub_diag.
  rewrite (insert_app_r_alt _ _ (S n)) by lia. rewrite Hlen.
  replace (S n - n)%nat with 1%nat by lia.
  rewrite (insert_app_r_alt _ _ (S (S n))) by lia. rewrite Hlen.
  replace (S (S n) - n)%nat with 2%nat by lia. done.
Qed.

End Record.

Lemma advanced_analysis_failure_witness :
  _perform_advanced_analysis (H := working_collaborators) broken_analyzer 0
    (store_of detected_record)
  = (Ok tt, logged ERROR (AdvancedFailed (Other 2)) (store_of detected_record)).
Proof.
  apply (advanced_analysis_failure (H := working_collaborators) broken_analyzer 0
           (store_of detected_record) detected_record (fun _ _ => Raise (Other 2))).
  - reflexivity.
  - reflexivity.
  - reflexivity.
Defined.

Lemma advanced_analysis_success_witness :
  _perform_advanced_analysis (H := counting_collaborators) zone_analyzer 0
    analysed_store
  = (Ok tt,
     {| heap :=
          [[(lit "id", VInt 7); (lit "img", VArray gray_image);
            (lit "mask", VArray sample_mask);
            (lit "features", VDict 1); (lit "scores", VDict 2);
            (lit "phenotype", VDict 3); (lit "advanced_masks", VDict 4)];
           [(lit "area", VInt 5); (lit "metabolite_diffusion_ratio", VFloat (2 # 1))];
           []; []; [(lit "diffusion", VArray sample_zone)]];
        log := [] |}).
Proof.
  etrans.
  - apply (advanced_analysis_success (H := counting_collaborators) zone_analyzer 0
             analysed_store
             [(lit "id", VInt 7); (lit "img", VArray gray_image);
              (lit "mask", VArray sample_mask);
              (lit "features", VDict 1); (lit "scores", VDict 2);
              (lit "phenotype", VDict 3)]
             (fun _ _ => Ok (VArray sample_zone))
             (VArray gray_image) (VArray sample_mask) (VArray sample_zone)
             1%nat [(lit "area", VInt 5)] (inject_Z 2) (inject_Z 1));
      try reflexivity.
    lia.
  - reflexivity.
Defined.

Lemma analyze_colony_incomplete_record_witness :
  analyze_colony (H := working_collaborators) front_analyzer 0 true incomplete_store
  = (Ok 0%nat, logged WARNING (MissingData (VInt 7)) incomplete_store).
Proof.
  apply (analyze_colony_incomplete_record (H := working_collaborators)
           front_analyzer 0 true incomplete_store
           [(lit "id", VInt 7); (lit "img", VArray gray_image);
            (lit "features", VDict 1); (lit "scores", VDict 2);
            (lit "phenotype", VDict 3)]).
  - reflexivity.
  - by eexists.
  - by eexists.
  - by eexists.
  - by right.
Defined.

Lemma cross_boundary_non_string_well_witness :
  resolve_cross_boundary 0 numbered_wells_store
  = (Raise TypeError,
     {| heap :=
          [[(lit "cross_boundary", VBool true);
            (lit "overlapping_wells", VList [VStr (lit "A1"); VInt 2]);
            (lit "phenotype", VDict 1)];
           [(lit "special_case", VStr (lit "cross_boundary"))]];
        log := [] |}).
Proof.
  apply (cross_boundary_non_string_well 0 numbered_wells_store
           [(lit "cross_boundary", VBool true);
            (lit "overlapping_wells", VList [VStr (lit "A1"); VInt 2]);
            (lit "phenotype", VDict 1)]
           1%nat [] [VStr (lit "A1"); VInt 2]); try reflexivity.
  - apply Exists_cons_tl, Exists_cons_hd. discriminate.
  - lia.
Defined.

Lemma cross_boundary_one_string_witness :
  resolve_cross_boundary 0 one_string_store
  = (Ok tt,
     {| heap :=
          [[(lit "cross_boundary", VBool true);
            (lit "overlapping_wells", VStr (lit "A1"));
            (lit "phenotype", VDict 1)];
           [(lit "special_case", VStr (lit "cross_boundary"));
            (lit "affected_wells", VStr (lit "A, 1"))]];
        log := [] |}).
Proof.
  apply (cross_boundary_one_string 0 one_string_store
           [(lit "cross_boundary", VBool true);
            (lit "overlapping_wells", VStr (lit "A1"));
            (lit "phenotype", VDict 1)]
           1%nat [] 65 [49]); try reflexivity.
  lia.
Defined.

Lemma analyze_colony_again_witness :
  let s1 := (analyze_colony (H := working_collaborators) front_analyzer 0 false
               (store_of detected_record)).2 in
  objects (analyze_colony (H := working_collaborators) front_analyzer 0 false s1).2
  = objects s1
  /\ exists d1, heap s1 !! 0%nat = Some d1
                /\ Forall (fun key => is_Some (dict_get key d1))
                     [lit "features"; lit "scores"; lit "phenotype"].
Proof.
  apply (analyze_colony_again (H := working_collaborators) front_analyzer 0
           (store_of detected_record) detected_record).
  reflexivity.
Defined.

Lemma analyze_colony_complete_record_witness :
  analyze_colony (H := working_collaborators) front_analyzer 0 false
    (store_of detected_record)
  = (Ok 0%nat,
     {| heap :=
          [detected_record ++
             [(lit "features", VDict 1); (lit "scores", VDict 2);
              (lit "phenotype", VDict 3)];
           [(lit "area", VInt 5); (lit "aerial_ratio", VInt 2)];
           [(lit "overall", VInt 3)];
           [(lit "development", VStr (lit "mature"))]];
        log := [] |}).
Proof.
  apply (analyze_colony_complete_record (H := working_collaborators) front_analyzer 0
           (store_of detected_record) detected_record
           (VArray gray_image) (VArray sample_mask)
           (fun t => match t with
                     | basic => [(lit "area", VInt 5)]
                     | metabolite => [(lit "pigment", VInt 1)]
                     | aerial => [(lit "aerial_ratio", VInt 2)]
                     end)
           (fun _ => [(lit "overall", VInt 3)])
           (fun _ => [(lit "development", VStr (lit "mature"))])).
  - reflexivity.
  - reflexivity.
  - reflexivity.
  - repeat constructor.
  - by intros [] h.
  - reflexivity.
  - reflexivity.
Defined.
